(** * Ranking engine of the free-association ranker

    Shallow embedding of [matrix_loader] ([load], the four matrix builders
    and [makeStochastic]), of [accessibility_ranker.pageRank] and
    [accessibility_ranker.hypertextInducedTopicSearch], and of
    [activation_ranker.pageRank] and its [hypertextInducedTopicSearch] draft.

    numpy [float64] values are idealised as reals; a dense numpy array is a
    list of rows, a row vector (shape [(1, n)]) is a list.  Python
    exceptions are values of [Exc] and [Result].  The lines of the input file
    are strings of Latin-1 characters (Python's [str] methods [split],
    [strip] and [isdigit] on that range). *)

From Stdlib Require Import Reals Psatz List Lia.
From Stdlib Require Import String Ascii Sorted Permutation.
Import List ListNotations.
Open Scope R_scope.

(** ** Python exceptions *)

(** The Python exceptions that the modelled code can raise. *)
Inductive PyError := ZeroDivisionError | ValueError | IndexError | KeyError.

Inductive Exc (A : Type) := Ok (a : A) | Err (e : PyError).
Arguments Ok {A} a.
Arguments Err {A} e.

Definition bind {A B} (m : Exc A) (k : A -> Exc B) : Exc B :=
  match m with Ok a => k a | Err e => Err e end.

Notation "x <- m ;; k" := (bind m (fun x => k)) (at level 61, m at next level, right associativity).

(** Python's [/] on a float numerator: [ZeroDivisionError] on a zero divisor. *)
Definition pydiv (a b : R) : Exc R :=
  if Req_EM_T b 0 then Err ZeroDivisionError else Ok (a / b).

(** ** Vectors and matrices *)

Abbreviation vec := (list R).
Abbreviation matrix := (list (list R)).

(** Python's builtin [sum] over a row (start value [0]). *)
Definition vsum (v : vec) : R := fold_right Rplus 0 v.

(** ** [matrix_loader.makeStochastic] *)

(** Inner loop [for j in range(len(matrix))] on row [i], with [total] the
    row sum computed before the loop and [n = len(matrix)]: [k] iterations
    are left and [row] holds the entries of the row from column [j] on.
    Reading or writing [matrix[i][j]] past the end of the row raises
    [IndexError]; the branch [i == j] of a zero row touches no entry; the
    entries from column [n] on are left as they are. *)
Fixpoint stochastic_row (n i j k : nat) (total : R) (row : vec) : Exc vec :=
  match k with
  | O => Ok row
  | S k' =>
      if Req_EM_T total 0 then
        if Nat.eq_dec i j then
          match row with
          | [] => stochastic_row n i (S j) k' total []
          | m :: row' => rest <- stochastic_row n i (S j) k' total row' ;; Ok (m :: rest)
          end
        else
          e <- pydiv 1 (INR (n - 1)) ;;
          match row with
          | [] => Err IndexError
          | _ :: row' => rest <- stochastic_row n i (S j) k' total row' ;; Ok (e :: rest)
          end
      else
        match row with
        | [] => Err IndexError
        | m :: row' => rest <- stochastic_row n i (S j) k' total row' ;; Ok (m / total :: rest)
        end
  end.

(** Outer loop [for i in range(len(matrix))]: row [i] is rewritten from its
    own entries only, so the in-place update is a map over the rows. *)
Fixpoint makeStochastic_rows (n i : nat) (rows : matrix) : Exc matrix :=
  match rows with
  | [] => Ok []
  | row :: rows' =>
      r <- stochastic_row n i 0 n (vsum row) row ;;
      rest <- makeStochastic_rows n (S i) rows' ;;
      Ok (r :: rest)
  end.

Definition makeStochastic (M : matrix) : Exc matrix :=
  makeStochastic_rows (length M) 0 M.

(** ** numpy vector primitives *)

(** Element-wise [+] of two equally long vectors. *)
Fixpoint vadd (u v : vec) : vec :=
  match u, v with
  | a :: u', b :: v' => (a + b) :: vadd u' v'
  | _, _ => []
  end.

(** [np.subtract(u, v)]. *)
Fixpoint vsub (u v : vec) : vec :=
  match u, v with
  | a :: u', b :: v' => (a - b) :: vsub u' v'
  | _, _ => []
  end.

Definition vscale (c : R) (v : vec) : vec := map (Rmult c) v.

(** [np.linalg.norm] of a vector: the Euclidean norm. *)
Definition normsq (v : vec) : R := vsum (map (fun a => a * a) v).
Definition norm (v : vec) : R := sqrt (normsq v).

(** The L1 norm, used to bound the residual. *)
Definition l1 (v : vec) : R := vsum (map Rabs v).

(** Number of columns (numpy [shape[1]]). *)
Definition ncols (M : matrix) : nat :=
  match M with [] => O | row :: _ => length row end.

(** [np.matmul(pi, M)] for a row vector [pi]: entry [j] is
    [sum_i pi[i] * M[i][j]], i.e. the rows of [M] weighted by [pi] and
    added up, starting from the zero row of width [w]. *)
Fixpoint vecmat_w (w : nat) (pi : vec) (M : matrix) : vec :=
  match pi, M with
  | p :: pi', row :: M' => vadd (vscale p row) (vecmat_w w pi' M')
  | _, _ => repeat 0 w
  end.

Definition vecmat (pi : vec) (M : matrix) : vec := vecmat_w (ncols M) pi M.

(** [np.matmul(pi, M)] for the [(1, k)] row vector [pi] and a 2-D array
    [M] of [r] rows: numpy raises [ValueError] unless [k = r]. *)
Definition matmul_row (pi : vec) (M : matrix) : Exc vec :=
  if Nat.eq_dec (length pi) (length M) then Ok (vecmat pi M) else Err ValueError.

(** [np.subtract(u, v)] on the [(1, k)] and [(1, l)] row vectors [u] and
    [v]: element-wise when [k = l], broadcast when one side has a single
    entry, [ValueError] otherwise. *)
Definition np_subtract (u v : vec) : Exc vec :=
  if Nat.eq_dec (length u) (length v) then Ok (vsub u v)
  else match u, v with
       | [a], _ => Ok (map (fun b => a - b) v)
       | _, [b] => Ok (map (fun a => a - b) u)
       | _, _ => Err ValueError
       end.

(** [A @ B]: row [i] of the product is [np.matmul(A[i], B)]. *)
Definition matmul (A B : matrix) : matrix := map (fun row => vecmat row B) A.

(** [np.matrix.transpose]. *)
Definition transpose (M : matrix) : matrix :=
  map (fun j => map (fun row => nth j row 0) M) (seq 0 (ncols M)).

(** [(1. / n) * np.ones((1, n))]: [1. / n] raises on [n = 0]. *)
Definition uniform (n : nat) : Exc vec :=
  r <- pydiv 1 (INR n) ;; Ok (repeat r n).

(** ** [accessibility_ranker.pageRank] *)

(** [ERatio = (1. - alpha) * (1. / n)]. *)
Definition ERatio (alpha : R) (n : nat) : Exc R :=
  r <- pydiv 1 (INR n) ;; Ok ((1 - alpha) * r).

(** The inner loop [for j in range(n)] of the Google transform on one row:
    [k] iterations are left and [row] holds the entries from column [j] on;
    [matrix[i][j]] raises [IndexError] past the end of the row, and the
    entries from column [n] on are left as they are. *)
Fixpoint google_row (alpha e : R) (k : nat) (row : vec) : Exc vec :=
  match k with
  | O => Ok row
  | S k' =>
      match row with
      | [] => Err IndexError
      | m :: row' => rest <- google_row alpha e k' row' ;; Ok ((alpha * m + e) :: rest)
      end
  end.

(** The outer loop [for i in range(n)], over the [n = len(matrix)] rows. *)
Fixpoint google_rows (alpha e : R) (n : nat) (rows : matrix) : Exc matrix :=
  match rows with
  | [] => Ok []
  | row :: rows' =>
      r <- google_row alpha e n row ;;
      rest <- google_rows alpha e n rows' ;;
      Ok (r :: rest)
  end.

(** The double loop [matrix[i][j] = (alpha * matrix[i][j]) + ERatio] over
    [i, j in range(n)], after [ERatio] is computed. *)
Definition google (M : matrix) (alpha : R) : Exc matrix :=
  e <- ERatio alpha (length M) ;;
  google_rows alpha e (length M) M.

(** One pass of the loop body: [prevpi = pi], [pi = np.matmul(pi, matrix)],
    [residual = np.linalg.norm(np.subtract(prevpi, pi))]. *)
Definition pr_step (G : matrix) (pi : vec) : Exc (vec * R) :=
  pi' <- matmul_row pi G ;;
  d <- np_subtract pi pi' ;;
  Ok (pi', norm d).

(** The power-rule loop [while (residual >= epsilon)].
    [pr_loop G eps pi residual iters res]: from the loop head in state
    [(pi, residual)] the loop body runs [iters] times (the last one raising,
    when [res] is an error) and the loop ends with [res]. *)
Inductive pr_loop (G : matrix) (eps : R) : vec -> R -> nat -> Exc vec -> Prop :=
| pr_done pi residual :
    residual < eps -> pr_loop G eps pi residual 0 (Ok pi)
| pr_iter pi residual pi' residual' iters res :
    eps <= residual -> pr_step G pi = Ok (pi', residual') ->
    pr_loop G eps pi' residual' iters res ->
    pr_loop G eps pi residual (S iters) res
| pr_raise pi residual e :
    eps <= residual -> pr_step G pi = Err e ->
    pr_loop G eps pi residual 1 (Err e).

(** The whole call, from the loaded matrix [M]: the Google transform, the
    start vector, [residual = 1.] and the loop; [pi[0]] is the returned row. *)
Inductive pageRank_run (M : matrix) (alpha eps : R) : nat -> Exc vec -> Prop :=
| pageRank_raise e :
    google M alpha = Err e -> pageRank_run M alpha eps 0 (Err e)
| pageRank_return G pi0 iters res :
    google M alpha = Ok G -> uniform (length M) = Ok pi0 ->
    pr_loop G eps pi0 1 iters res ->
    pageRank_run M alpha eps iters res.

(** ** [accessibility_ranker.hypertextInducedTopicSearch] *)

(** [.astype(bool).astype(int)] on one entry. *)
Definition bool_int (m : R) : R := if Req_EM_T m 0 then 0 else 1.

(** [L = matrix.astype(bool).astype(int)]. *)
Definition presence (M : matrix) : matrix := map (map bool_int) M.

(** [authMatrix = (transL @ L)] and [hubMatrix = (L @ transL)]. *)
Definition authMatrix (L : matrix) : matrix := matmul (transpose L) L.
Definition hubMatrix (L : matrix) : matrix := matmul L (transpose L).

(** [x /= np.linalg.norm(x)]. *)
Definition normalize (v : vec) : vec := map (fun a => a / norm v) v.

(** [x = (xi * np.matmul(x, authMatrix)) + ERatio] followed by the
    re-normalization, once [np.matmul] has returned. *)
Definition hits_update (xi E : R) (A : matrix) (x : vec) : vec :=
  normalize (map (fun a => xi * a + E) (vecmat x A)).

(** One pass of the loop body: the updates of [x] and [y] (each
    [np.matmul] raising [ValueError] on a shape mismatch), their
    re-normalization and [residual = norm(prevx - x) + norm(prevy - y)]. *)
Definition hits_step (A H : matrix) (xi E : R) (x y : vec) : Exc (vec * vec * R) :=
  ax <- matmul_row x A ;;
  hy <- matmul_row y H ;;
  let x' := normalize (map (fun a => xi * a + E) ax) in
  let y' := normalize (map (fun a => xi * a + E) hy) in
  dx <- np_subtract x x' ;;
  dy <- np_subtract y y' ;;
  Ok (x', y', norm dx + norm dy).

(** The loop [while (residual >= epsilon)] on the pair [(x, y)]. *)
Inductive hits_loop (A H : matrix) (xi E eps : R)
  : vec -> vec -> R -> nat -> Exc (vec * vec) -> Prop :=
| hits_done x y residual :
    residual < eps -> hits_loop A H xi E eps x y residual 0 (Ok (x, y))
| hits_iter x y residual x' y' residual' iters res :
    eps <= residual -> hits_step A H xi E x y = Ok (x', y', residual') ->
    hits_loop A H xi E eps x' y' residual' iters res ->
    hits_loop A H xi E eps x y residual (S iters) res
| hits_fail x y residual e :
    eps <= residual -> hits_step A H xi E x y = Err e ->
    hits_loop A H xi E eps x y residual 1 (Err e).

(** The call on [n = len(matrix)] and the binary form [L]: [ERatio] and the
    start vectors [x], [y] use [1. / n]; [residual = 1.]. *)
Inductive hits_core (n : nat) (L : matrix) (xi eps : R)
  : nat -> Exc (vec * vec) -> Prop :=
| hits_raise e :
    pydiv 1 (INR n) = Err e -> hits_core n L xi eps 0 (Err e)
| hits_return r iters res :
    pydiv 1 (INR n) = Ok r ->
    hits_loop (authMatrix L) (hubMatrix L) xi ((1 - xi) * r) eps
      (repeat r n) (repeat r n) 1 iters res ->
    hits_core n L xi eps iters res.

Definition hypertextInducedTopicSearch (M : matrix) (xi eps : R)
  : nat -> Exc (vec * vec) -> Prop :=
  hits_core (length M) (presence M) xi eps.

(** ** [activation_ranker.hypertextInducedTopicSearch] (draft) *)

(** [.astype(int)] on one float entry: truncation towards zero. *)
Definition astype_int (m : R) : R :=
  if Rle_dec 0 m then IZR (Int_part m) else - IZR (Int_part (- m)).

(** [L = matrix.astype(int)]. *)
Definition activation_L (M : matrix) : matrix := map (map astype_int) M.

(** ** Shapes and stochastic matrices *)

Definition square (n : nat) (M : matrix) : Prop :=
  length M = n /\ Forall (fun row => length row = n) M.

Definition nonneg_matrix (M : matrix) : Prop := Forall (Forall (Rle 0)) M.

(** Every row sums to [1]. *)
Definition rows_sum_one (M : matrix) : Prop := Forall (fun row => vsum row = 1) M.

Definition row_stochastic (n : nat) (M : matrix) : Prop :=
  square n M /\ nonneg_matrix M /\ rows_sum_one M.

(** Every column sums to [1] (the matrix is doubly stochastic when its rows
    do too). *)
Definition cols_sum_one (n : nat) (M : matrix) : Prop :=
  forall j, (j < n)%nat -> vsum (map (fun row => nth j row 0) M) = 1.

(** ** [activation_ranker.pageRank] *)

(** The loop of [accessibility_ranker.pageRank] with the counter update
    [k += 1] in its body.  [act_pr_loop G eps pi residual k res kf]: entered
    with counter [k], the loop exits with [pi = res] and counter [kf]. *)
Inductive act_pr_loop (G : matrix) (eps : R) : vec -> R -> nat -> Exc vec -> nat -> Prop :=
| act_pr_done pi residual k :
    residual < eps -> act_pr_loop G eps pi residual k (Ok pi) k
| act_pr_iter pi residual pi' residual' k res kf :
    eps <= residual -> pr_step G pi = Ok (pi', residual') ->
    act_pr_loop G eps pi' residual' (S k) res kf ->
    act_pr_loop G eps pi residual k res kf
| act_pr_raise pi residual k e :
    eps <= residual -> pr_step G pi = Err e ->
    act_pr_loop G eps pi residual k (Err e) (S k).

(** The call: the returned [pi[0]] together with the [k] that the final
    status message prints, or the exception raised. *)
Inductive act_pageRank_run (M : matrix) (alpha eps : R) : Exc (vec * nat) -> Prop :=
| act_pageRank_raise e :
    google M alpha = Err e -> act_pageRank_run M alpha eps (Err e)
| act_pageRank_return G pi0 res k :
    google M alpha = Ok G -> uniform (length M) = Ok pi0 ->
    act_pr_loop G eps pi0 1 0 (Ok res) k ->
    act_pageRank_run M alpha eps (Ok (res, k))
| act_pageRank_loop_raise G pi0 e k :
    google M alpha = Ok G -> uniform (length M) = Ok pi0 ->
    act_pr_loop G eps pi0 1 0 (Err e) k ->
    act_pageRank_run M alpha eps (Err e).

(** ** Results of the loaders and the draft engine *)

Inductive Result (A : Type) := Val (a : A) | Raise (e : PyError).
Arguments Val {A} a.
Arguments Raise {A} e.

Definition rbind {A B} (m : Result A) (k : A -> Result B) : Result B :=
  match m with Val a => k a | Raise e => Raise e end.

Notation "'let?' x ':=' m 'in' k" := (rbind m (fun x => k))
  (at level 200, x name, m at level 100, k at level 200).

Definition lift {A} (m : Exc A) : Result A :=
  match m with Ok a => Val a | Err e => Raise e end.

(** ** [activation_ranker.hypertextInducedTopicSearch] (draft): the loop *)

(** [np.matmul(A, B)] on 2-D arrays: the number of columns of [A] must be
    the number of rows of [B], otherwise numpy raises [ValueError]. *)
Definition np_matmul (A B : matrix) : Result matrix :=
  if Nat.eq_dec (ncols A) (length B) then Val (matmul A B) else Raise ValueError.

(** [X + ERatio] on a 2-D array. *)
Definition madd_scalar (X : matrix) (E : R) : matrix := map (map (fun a => a + E)) X.

(** [np.subtract(X, Y)] on two 2-D arrays of the same shape. *)
Fixpoint msub (X Y : matrix) : matrix :=
  match X, Y with
  | u :: X', v :: Y' => vsub u v :: msub X' Y'
  | _, _ => []
  end.

(** [np.linalg.norm] of a 2-D array: the Frobenius norm. *)
Definition fro (X : matrix) : R := norm (concat X).

(** [while (residual >= epsilon)] of the draft, on the [(1, n)] arrays [x]
    and [y]: [x = np.matmul(authMatrix, x) + ERatio], then the same for [y],
    then [residual = (norm(prevx - x) + norm(prevy - y)) * .5]; the call
    returns [x[0], y[0]]. *)
Inductive draft_loop (A H : matrix) (E eps : R)
  : matrix -> matrix -> R -> Result (vec * vec) -> Prop :=
| draft_done x y residual :
    residual < eps -> draft_loop A H E eps x y residual (Val (nth 0 x [], nth 0 y []))
| draft_raise_x x y residual e :
    eps <= residual -> np_matmul A x = Raise e ->
    draft_loop A H E eps x y residual (Raise e)
| draft_raise_y x y residual ax e :
    eps <= residual -> np_matmul A x = Val ax -> np_matmul H y = Raise e ->
    draft_loop A H E eps x y residual (Raise e)
| draft_iter x y residual ax hy res :
    eps <= residual -> np_matmul A x = Val ax -> np_matmul H y = Val hy ->
    draft_loop A H E eps (madd_scalar ax E) (madd_scalar hy E)
      ((fro (msub x (madd_scalar ax E)) + fro (msub y (madd_scalar hy E))) * 0.5) res ->
    draft_loop A H E eps x y residual res.

(** The draft call: [L = matrix.astype(int)], the products [transL @ L] and
    [L @ transL], [ERatio = (1. - xi) * (1. / n)], the double loop scaling
    both matrices by [xi], the start arrays [(1. / n) * np.ones((1, n))] and
    [residual = 1.]. *)
Inductive draft_hits_run (M : matrix) (xi eps : R) : Result (vec * vec) -> Prop :=
| draft_hits_raise e :
    pydiv 1 (INR (length M)) = Err e -> draft_hits_run M xi eps (Raise e)
| draft_hits_return r res :
    pydiv 1 (INR (length M)) = Ok r ->
    draft_loop (map (map (Rmult xi)) (authMatrix (activation_L M)))
               (map (map (Rmult xi)) (hubMatrix (activation_L M)))
               ((1 - xi) * r) eps [repeat r (length M)] [repeat r (length M)] 1 res ->
    draft_hits_run M xi eps res.

(** ** [matrix_loader]: the four matrix builders *)

(** A value of the dictionary built by [load]: the tuple
    [(target, forward strength, normed)]. *)
Definition target : Type := (string * R * bool)%type.

(** A Python [dict] from cues to lists of targets, in insertion order. *)
Definition assoc_dict : Type := list (string * list target).

(** [d[key]]: [KeyError] when the key is absent. *)
Fixpoint dict_get (d : assoc_dict) (key : string) : Result (list target) :=
  match d with
  | [] => Raise KeyError
  | (k, v) :: d' => if String.eqb k key then Val v else dict_get d' key
  end.

(** [l.index(x)]: the first position of [x]; [ValueError] when absent. *)
Fixpoint py_index (l : list string) (x : string) : Result nat :=
  match l with
  | [] => Raise ValueError
  | y :: l' => if String.eqb y x then Val O else let? k := py_index l' x in Val (S k)
  end.

(** Replace position [k] of a list (within range). *)
Fixpoint list_set {A : Type} (l : list A) (k : nat) (v : A) : list A :=
  match l, k with
  | [], _ => []
  | _ :: l', O => v :: l'
  | a :: l', S k' => a :: list_set l' k' v
  end.

(** [matrix[i][j] = v]: [IndexError] out of range. *)
Definition setitem (M : matrix) (i j : nat) (v : R) : Result matrix :=
  if Nat.ltb i (length M) then
    if Nat.ltb j (length (nth i M [])) then Val (list_set M i (list_set (nth i M []) j v))
    else Raise IndexError
  else Raise IndexError.

(** [np.zeros((N, N))]. *)
Definition zeros (N : nat) : matrix := repeat (repeat 0 N) N.

(** The body of [for target in dict[normed_list[i]]] on row [i]: [cell t]
    is the column and the value written for [t], if any (its evaluation may
    raise, as [index] does). *)
Fixpoint fill_targets (cell : target -> Result (option (nat * R))) (i : nat)
    (M : matrix) (ts : list target) : Result matrix :=
  match ts with
  | [] => Val M
  | t :: ts' =>
      let? o := cell t in
      match o with
      | None => fill_targets cell i M ts'
      | Some (c, v) => let? M' := setitem M i c v in fill_targets cell i M' ts'
      end
  end.

(** [for i in range(len(normed_list))], with [cues] the part of
    [normed_list] from position [i] on. *)
Fixpoint fill_rows (cell : target -> Result (option (nat * R))) (dict : assoc_dict)
    (i : nat) (cues : list string) (M : matrix) : Result matrix :=
  match cues with
  | [] => Val M
  | cue :: cues' =>
      let? ts := dict_get dict cue in
      let? M' := fill_targets cell i M ts in
      fill_rows cell dict (S i) cues' M'
  end.

(** [if target[2]: matrix[i][normed_list.index(target[0])] = 1.] *)
Definition normed_unweighted_cell (normed_list : list string) (t : target)
  : Result (option (nat * R)) :=
  let '(w, fsg, normed) := t in
  if normed then let? c := py_index normed_list w in Val (Some (c, 1)) else Val None.

(** [if target[2]: matrix[i][normed_list.index(target[0])] = target[1]] *)
Definition normed_weighted_cell (normed_list : list string) (t : target)
  : Result (option (nat * R)) :=
  let '(w, fsg, normed) := t in
  if normed then let? c := py_index normed_list w in Val (Some (c, fsg)) else Val None.

(** The branches of the full builders: a normed target goes to column
    [normed_list.index(target[0])], another one to column
    [len(normed_list) + unnormed_list.index(target[0])]. *)
Definition full_cell (normed_list unnormed_list : list string) (weighted : bool) (t : target)
  : Result (option (nat * R)) :=
  let '(w, fsg, normed) := t in
  let v := if weighted then fsg else 1 in
  if normed then let? c := py_index normed_list w in Val (Some (c, v))
  else let? c := py_index unnormed_list w in Val (Some ((length normed_list + c)%nat, v)).

(** The builders return the matrix that [matrix.dump(fileName)] writes,
    after the in-place [makeStochastic(matrix)]. *)
Definition createNormedUnweightedMatrix (dict : assoc_dict) (normed_list : list string)
  : Result matrix :=
  let? M := fill_rows (normed_unweighted_cell normed_list) dict 0 normed_list
                      (zeros (length normed_list)) in
  lift (makeStochastic M).

Definition createNormedWeightedMatrix (dict : assoc_dict) (normed_list : list string)
  : Result matrix :=
  let? M := fill_rows (normed_weighted_cell normed_list) dict 0 normed_list
                      (zeros (length normed_list)) in
  lift (makeStochastic M).

Definition createFullUnweightedMatrix (dict : assoc_dict) (normed_list unnormed_list : list string)
  : Result matrix :=
  let? M := fill_rows (full_cell normed_list unnormed_list false) dict 0 normed_list
                      (zeros (length normed_list + length unnormed_list)%nat) in
  lift (makeStochastic M).

Definition createFullWeightedMatrix (dict : assoc_dict) (normed_list unnormed_list : list string)
  : Result matrix :=
  let? M := fill_rows (full_cell normed_list unnormed_list true) dict 0 normed_list
                      (zeros (length normed_list + length unnormed_list)%nat) in
  lift (makeStochastic M).

(** The row [r] after the writes of [for target in ...] with the cell
    function [cell] (the targets whose cell writes nothing, or raises, leave it
    unchanged). *)
Definition row_after (cell : target -> Result (option (nat * R))) (ts : list target) (r : vec) : vec :=
  fold_left (fun r t => match cell t with Val (Some (c, v)) => list_set r c v | _ => r end) ts r.

(** Some target of [ts] is written into column [j]. *)
Definition written_to (cell : target -> Result (option (nat * R))) (ts : list target) (j : nat) : bool :=
  existsb (fun t => match cell t with Val (Some (c, _)) => Nat.eqb c j | _ => false end) ts.

(** The common shape of the four builders: fill [np.zeros((N, N))] row by
    row with [cell], then [makeStochastic]. *)
Definition build (cell : target -> Result (option (nat * R))) (N : nat)
    (d : assoc_dict) (nl : list string) : Result matrix :=
  let? M := fill_rows cell d 0 nl (zeros N) in lift (makeStochastic M).

(** ** [matrix_loader.load] *)

(** A line of the input file is a [string] whose characters are read as the
    code points [0 .. 255] (the text of an ASCII or Latin-1 file); the
    character predicates below are Python's on those code points. *)

(** [str.isspace] on one character. *)
Definition is_space (c : ascii) : bool :=
  let n := nat_of_ascii c in
  ((Nat.leb 9 n && Nat.leb n 13) || (Nat.leb 28 n && Nat.leb n 32) || Nat.eqb n 133 || Nat.eqb n 160)%bool.

(** [str.isdigit] on one character: the ASCII digits and the superscripts
    one, two and three. *)
Definition is_digit_char (c : ascii) : bool :=
  let n := nat_of_ascii c in
  ((Nat.leb 48 n && Nat.leb n 57) || Nat.eqb n 178 || Nat.eqb n 179 || Nat.eqb n 185)%bool.

(** The ASCII digits [0 .. 9], the only digits [int] accepts here. *)
Definition ascii_digit (c : ascii) : bool :=
  let n := nat_of_ascii c in (Nat.leb 48 n && Nat.leb n 57)%bool.

Fixpoint all_chars (p : ascii -> bool) (s : string) : bool :=
  match s with
  | EmptyString => true
  | String c s' => (p c && all_chars p s')%bool
  end.

(** [s.isdigit()]: non-empty and every character a digit. *)
Definition isdigit (s : string) : bool :=
  match s with
  | EmptyString => false
  | String _ _ => all_chars is_digit_char s
  end.

Fixpoint lstrip (s : string) : string :=
  match s with
  | EmptyString => EmptyString
  | String c s' => if is_space c then lstrip s' else s
  end.

Fixpoint rstrip (s : string) : string :=
  match s with
  | EmptyString => EmptyString
  | String c s' =>
      let r := rstrip s' in
      if (is_space c && String.eqb r EmptyString)%bool then EmptyString else String c r
  end.

(** [s.strip()]. *)
Definition strip (s : string) : string := rstrip (lstrip s).

(** [s.split(sep)] with a one-character separator: the pieces between the
    separators, empty ones included. *)
Fixpoint py_split (sep : ascii) (s : string) : list string :=
  match s with
  | EmptyString => [EmptyString]
  | String c s' =>
      if Ascii.eqb c sep then EmptyString :: py_split sep s'
      else match py_split sep s' with
           | w :: ws => String c w :: ws
           | [] => [String c EmptyString]
           end
  end.

(** The value of a string of ASCII digits, [acc] being the value of the
    digits before it. *)
Fixpoint digits_value (acc : nat) (s : string) : nat :=
  match s with
  | EmptyString => acc
  | String c s' => digits_value (acc * 10 + (nat_of_ascii c - 48))%nat s'
  end.

(** [int(s)] on a stripped string for which [s.isdigit()] holds (the only
    strings [load] passes to it): the decimal value when all its characters
    are ASCII digits, [ValueError] when one is a superscript. *)
Definition py_int (s : string) : Result nat :=
  if all_chars ascii_digit s then Val (digits_value 0 s) else Raise ValueError.

(** The test at the top of the loop body and the fields it reads:
    [None] for a skipped line ([continue]); otherwise the stripped cue and
    target, [normed], and the stripped fields [#G] and [#P]. *)
Definition line_fields (line : string) : option (string * string * bool * string * string) :=
  let d := py_split ","%char line in
  if (Nat.ltb (length d) 5 || negb (isdigit (strip (nth 3 d EmptyString)))
      || negb (isdigit (strip (nth 4 d EmptyString))))%bool
  then None
  else Some (strip (nth 0 d EmptyString), strip (nth 1 d EmptyString),
             String.eqb (strip (nth 2 d EmptyString)) "YES"%string,
             strip (nth 3 d EmptyString), strip (nth 4 d EmptyString)).

(** [assocs.setdefault(cue, []); assocs[cue].append(v)]: a new key goes
    last, as in a Python dict. *)
Fixpoint dict_append (d : assoc_dict) (key : string) (v : target) : assoc_dict :=
  match d with
  | [] => [(key, [v])]
  | (k, vs) :: d' =>
      if String.eqb k key then (k, vs ++ [v]) :: d' else (k, vs) :: dict_append d' key v
  end.

(** [(assocs, normed_list, unnormed_list)]. *)
Definition load_state : Type := (assoc_dict * list string * list string)%type.

(** One iteration of [for line in assoc_file] (the status messages aside). *)
Definition load_line (st : load_state) (line : string) : Result load_state :=
  match line_fields line with
  | None => Val st
  | Some (cue, target, normed, g, p) =>
      let? np := py_int p in
      let? ng := py_int g in
      let? fsg := lift (pydiv (INR np) (INR ng)) in
      let '(assocs, nl, ul) := st in
      let nl' := if (Nat.eqb (length nl) 0 || negb (String.eqb (last nl EmptyString) cue))%bool
                 then nl ++ [cue] else nl in
      let ul' := if (negb normed && negb (existsb (String.eqb target) ul))%bool
                 then ul ++ [target] else ul in
      Val (dict_append assocs cue (target, fsg, normed), nl', ul')
  end.

Fixpoint load_lines (st : load_state) (lines : list string) : Result load_state :=
  match lines with
  | [] => Val st
  | line :: lines' => let? st' := load_line st line in load_lines st' lines'
  end.

(** [list.sort] on strings (by code points): insertion sort, which gives the
    same list, the sorted arrangement of a list of strings being unique. *)
Fixpoint insert_sorted (x : string) (l : list string) : list string :=
  match l with
  | [] => [x]
  | y :: l' => if String.leb x y then x :: l else y :: insert_sorted x l'
  end.

Fixpoint sort_strings (l : list string) : list string :=
  match l with
  | [] => []
  | x :: l' => insert_sorted x (sort_strings l')
  end.

(** [load(fileName)] on the lines of the file. *)
Definition load (lines : list string) : Result load_state :=
  let? st := load_lines ([], [], []) lines in
  let '(assocs, nl, ul) := st in Val (assocs, nl, sort_strings ul).

(** The targets that the accepted lines of [lines] with cue [cue] give, in
    file order, each with the strength [#P / #G] it is read with. *)
Definition file_targets (lines : list string) (cue : string) : list target :=
  flat_map (fun line =>
    match line_fields line with
    | Some (c, t, normed, g, p) =>
        if String.eqb c cue
        then [(t, INR (digits_value 0 p) / INR (digits_value 0 g), normed)] else []
    | None => []
    end) lines.

(** The cues of the accepted lines of [lines], in file order. *)
Definition file_cues (lines : list string) : list string :=
  flat_map (fun line =>
    match line_fields line with
    | Some (c, _, _, _, _) => [c]
    | None => []
    end) lines.

(** [l] with every run of equal adjacent entries kept once, in order. *)
Fixpoint dedup_adj (l : list string) : list string :=
  match l with
  | [] => []
  | x :: l' =>
      match dedup_adj l' with
      | y :: r => if String.eqb x y then y :: r else x :: y :: r
      | [] => [x]
      end
  end.


(** Every target that an accepted line marks as normed is the cue of some
    accepted line. *)
Definition normed_targets_are_cues (lines : list string) : Prop :=
  forall line c t g p, In line lines -> line_fields line = Some (c, t, true, g, p) ->
  exists line' t' b' g' p', In line' lines /\ line_fields line' = Some (t, t', b', g', p').

(** ** Concrete inputs *)

(** The dictionary [load] builds from the lines
    [a,b,YES,2,1], [a,x,NO,2,1] and [b,a,YES,1,1]: cue [a] produced the
    normed [b] and the unnormed [x], cue [b] produced [a]. *)
Definition ex_dict : assoc_dict :=
  [("a"%string, [("b"%string, 0.5, true); ("x"%string, 0.5, false)]);
   ("b"%string, [("a"%string, 1, true)])].

Definition ex_normed : list string := ["a"%string; "b"%string].

Definition ex_unnormed : list string := ["x"%string].

(** A dictionary in which every strength is [0.5]. *)
Definition ex_half_dict : assoc_dict :=
  [("a"%string, [("b"%string, 0.5, true); ("x"%string, 0.5, false)]);
   ("b"%string, [("a"%string, 0.5, true); ("x"%string, 0.5, false)])].

(** The lines of a small input file: the three lines behind [ex_dict], a
    header line and a line whose [#G] is not a number (both skipped). *)
Definition ex_lines : list string :=
  ["CUE,TARGET,NORMED?,#G,#P"%string; "a,b,YES,2,1"%string; "a,x,NO,2,1"%string;
   "b,c,NO,n/a,1"%string; "b,a,YES,1,1"%string].

(** A file whose cues come back after another cue: [b], [a], [a], [b];
    its unnormed targets appear as [z] before [x]. *)
Definition ex_lines2 : list string :=
  ["b,z,NO,1,1"%string; "a,x,NO,2,1"%string; "a,z,NO,1,1"%string; "b,x,NO,1,2"%string].

Definition ex_dict2 : assoc_dict :=
  [("b"%string, [("z"%string, 1, false); ("x"%string, 2, false)]);
   ("a"%string, [("x"%string, 0.5, false); ("z"%string, 1, false)])].

Definition ex_normed2 : list string := ["b"%string; "a"%string; "b"%string].

Definition ex_unnormed2 : list string := ["x"%string; "z"%string].


(** The 3-node fully connected uniform stochastic matrix. *)
Definition uniform3 : matrix :=
  [[1/3; 1/3; 1/3]; [1/3; 1/3; 1/3]; [1/3; 1/3; 1/3]].

(** A square matrix with negative entries (its rows sum to [1]). *)
Definition negative2 : matrix := [[-1; 2]; [2; -1]].

(** A square non-negative matrix whose rows sum to [2] and [0]. *)
Definition unbalanced2 : matrix := [[1; 1]; [0; 0]].

(** The 2-node graph where each node links only to the other. *)
Definition swap2 : matrix := [[0; 1]; [1; 0]].

(** The 2-node graph with the single link [0 -> 1]. *)
Definition chain2 : matrix := [[0; 1]; [0; 0]].

(** A 2-node stochastic matrix whose entries are all [0.5]. *)
Definition half2 : matrix := [[0.5; 0.5]; [0.5; 0.5]].

(** Two matrices have the same zero/non-zero pattern. *)
Definition same_support (M1 M2 : matrix) : Prop :=
  Forall2 (Forall2 (fun a b => a = 0 <-> b = 0)) M1 M2.

(** * Proofs *)

(** ** Regularizer *)

Lemma pydiv_ok (a b : R) : b <> 0 -> pydiv a b = Ok (a / b).
Proof. intros Hb. unfold pydiv. destruct (Req_EM_T b 0); [contradiction | reflexivity]. Qed.

Lemma INR_pred_nz (n : nat) : (2 <= n)%nat -> INR (n - 1) <> 0.
Proof. intros Hn. apply not_0_INR. lia. Qed.

Lemma stochastic_row_scaled (n i : nat) (total : R) (row : vec) :
  forall j, total <> 0 ->
  stochastic_row n i j (length row) total row = Ok (map (fun m => m / total) row).
Proof.
  induction row as [|m row IH]; intros j Ht; simpl; [reflexivity|].
  destruct (Req_EM_T total 0); [contradiction|].
  rewrite (IH (S j) Ht). reflexivity.
Qed.

Lemma stochastic_row_dangling (n i : nat) (row : vec) :
  (2 <= n)%nat -> Forall (fun m => m = 0) row ->
  forall j, stochastic_row n i j (length row) 0 row =
    Ok (map (fun k => if Nat.eq_dec i k then 0 else 1 / INR (n - 1))
            (seq j (length row))).
Proof.
  intros Hn. induction 1 as [|m row Hm Hrow IH]; intros j; simpl; [reflexivity|].
  destruct (Req_EM_T 0 0) as [_|]; [|congruence].
  destruct (Nat.eq_dec i j) as [Hij|Hij]; simpl.
  - rewrite (IH (S j)). simpl. subst m. reflexivity.
  - rewrite (pydiv_ok _ _ (INR_pred_nz n Hn)). simpl. rewrite (IH (S j)). reflexivity.
Qed.

Lemma vsum_map_div (t : R) (row : vec) :
  vsum (map (fun m => m / t) row) = vsum row / t.
Proof. induction row as [|a row IH]; simpl; [unfold Rdiv; ring|]. rewrite IH. unfold Rdiv; ring. Qed.

Lemma vsum_zero_nonneg (row : vec) :
  Forall (Rle 0) row -> vsum row = 0 -> Forall (fun m => m = 0) row.
Proof.
  induction 1 as [|a row Ha Hrow IH]; simpl; intros Hs; constructor.
  - assert (0 <= vsum row).
    { clear IH Hs. induction Hrow; simpl; lra. }
    lra.
  - apply IH. assert (0 <= vsum row).
    { clear IH Hs. induction Hrow; simpl; lra. }
    lra.
Qed.

Lemma vsum_dangling_off (i : nat) (c : R) :
  forall len j, (i < j)%nat ->
  vsum (map (fun k => if Nat.eq_dec i k then 0 else c) (seq j len)) = c * INR len.
Proof.
  induction len as [|len IH]; intros j Hij; [simpl; ring|].
  rewrite S_INR. cbn [seq map vsum fold_right].
  destruct (Nat.eq_dec i j); [lia|]. fold (vsum (map (fun k => if Nat.eq_dec i k then 0 else c) (seq (S j) len))).
  rewrite (IH (S j)) by lia. ring.
Qed.

Lemma vsum_dangling (i : nat) (c : R) :
  forall len j, (j <= i < j + len)%nat ->
  vsum (map (fun k => if Nat.eq_dec i k then 0 else c) (seq j len)) = c * INR (len - 1).
Proof.
  induction len as [|len IH]; intros j Hij; [lia|]. cbn [seq map vsum fold_right].
  fold (vsum (map (fun k => if Nat.eq_dec i k then 0 else c) (seq (S j) len))).
  destruct (Nat.eq_dec i j) as [->|Hne].
  - rewrite (vsum_dangling_off j c len (S j)) by lia.
    replace (S len - 1)%nat with len by lia. ring.
  - rewrite (IH (S j)) by lia. destruct len as [|len]; [lia|].
    replace (S (S len) - 1)%nat with (S len) by lia.
    replace (S len - 1)%nat with len by lia. rewrite S_INR. ring.
Qed.

Lemma vsum_one_nonzero (r : vec) : vsum r = 1 -> exists x, In x r /\ x <> 0.
Proof.
  induction r as [|a r IH]; simpl; intros Hs; [lra|].
  destruct (Req_EM_T a 0) as [Ha|Ha].
  - destruct IH as [x [Hx Hx0]]; [lra|]. exists x. auto.
  - exists a. auto.
Qed.

Lemma stochastic_row_ok (n i : nat) (total : R) (row : vec) :
  (2 <= n)%nat -> forall j, exists r, stochastic_row n i j (length row) total row = Ok r.
Proof.
  intros Hn. induction row as [|m row IH]; intros j; simpl; [eauto|].
  destruct (IH (S j)) as [r Hr].
  destruct (Req_EM_T total 0); [destruct (Nat.eq_dec i j)|]; simpl;
    try rewrite (pydiv_ok _ _ (INR_pred_nz n Hn)); simpl; rewrite Hr; simpl; eauto.
Qed.

Lemma makeStochastic_rows_spec (n : nat) :
  (2 <= n)%nat -> forall rows i, Forall (fun row => length row = n) rows ->
  exists rows', makeStochastic_rows n i rows = Ok rows' /\ length rows' = length rows /\
    forall k, (k < length rows)%nat ->
      stochastic_row n (i + k) 0 n (vsum (nth k rows [])) (nth k rows []) = Ok (nth k rows' []).
Proof.
  intros Hn. induction rows as [|row rows IH]; intros i Hl0; simpl.
  - exists []. repeat split. intros k Hk. lia.
  - apply Forall_cons_iff in Hl0 as [Hlr Hl0].
    destruct (stochastic_row_ok n i (vsum row) row Hn 0) as [r Hr]. rewrite Hlr in Hr. rewrite Hr. simpl.
    destruct (IH (S i) Hl0) as [rows' [E [Hl Hk]]]. rewrite E. simpl.
    exists (r :: rows'). repeat split; [simpl; lia|].
    intros [|k] Hkl; simpl.
    + rewrite Nat.add_0_r. exact Hr.
    + replace (i + S k)%nat with (S i + k)%nat by lia. apply Hk. lia.
Qed.

Lemma vsum_nonneg (row : vec) : Forall (Rle 0) row -> 0 <= vsum row.
Proof. induction 1; simpl; lra. Qed.

Lemma Forall2_right {A B : Type} (P : B -> Prop) (Rel : A -> B -> Prop) l l' :
  Forall2 Rel l l' -> (forall a b, Rel a b -> P b) -> Forall P l'.
Proof. intros HF HP. induction HF; constructor; eauto. Qed.

Lemma makeStochastic_rows_props (n : nat) :
  (2 <= n)%nat -> forall rows i, (i + length rows = n)%nat ->
  Forall (fun row => length row = n /\ Forall (Rle 0) row) rows ->
  exists rows', makeStochastic_rows n i rows = Ok rows' /\
    Forall2 (fun row row' =>
      length row' = n /\ vsum row' = 1 /\
      (0 < vsum row -> row' = map (fun m => m / vsum row) row)) rows rows'.
Proof.
  intros Hn. induction rows as [|row rows IH]; intros i Hi Hrows; simpl.
  - exists []. split; [reflexivity | constructor].
  - apply Forall_cons_iff in Hrows as [[Hlen Hnn] Hrest]. simpl in Hi.
    destruct (IH (S i) ltac:(lia) Hrest) as [rows' [E HF]].
    assert (Hs : forall t, stochastic_row n i 0 n t row = stochastic_row n i 0 (length row) t row)
      by (rewrite Hlen; reflexivity).
    rewrite Hs.
    destruct (Req_EM_T (vsum row) 0) as [Hz|Hz].
    + pose proof (vsum_zero_nonneg row Hnn Hz) as Hzero.
      rewrite Hz, (stochastic_row_dangling n i row Hn Hzero 0). simpl. rewrite E. simpl.
      eexists. split; [reflexivity|]. constructor; [|exact HF].
      rewrite length_map, length_seq. split; [lia|]. split; [|intros; lra].
      rewrite Hlen, (vsum_dangling i (1 / INR (n - 1)) n 0) by lia.
      field. apply INR_pred_nz. exact Hn.
    + rewrite (stochastic_row_scaled n i _ row 0 Hz). simpl. rewrite E. simpl.
      eexists. split; [reflexivity|]. constructor; [|exact HF].
      rewrite length_map. split; [lia|]. split; [|auto].
      rewrite vsum_map_div. field. exact Hz.
Qed.

(** ** Claims about the regularizer *)

(** C3: for every square non-negative matrix with [n >= 2], [makeStochastic]
    returns (without raising) a matrix of the same shape in which every row
    sums to [1] and no row is entirely zero; a row whose original sum [S]
    was positive becomes that row divided entrywise by [S]. *)
Theorem makeStochastic_rows_stochastic (n : nat) (M : matrix) :
  (2 <= n)%nat -> square n M -> nonneg_matrix M ->
  exists M', makeStochastic M = Ok M' /\ square n M' /\ rows_sum_one M' /\
    Forall (fun row => exists x, In x row /\ x <> 0) M' /\
    Forall2 (fun row row' => 0 < vsum row -> row' = map (fun m => m / vsum row) row) M M'.
Proof.
  intros Hn [HlM Hrows] Hnn.
  assert (HF : Forall (fun row => length row = n /\ Forall (Rle 0) row) M).
  { rewrite Forall_forall in *. intros row Hin. split; auto.
    unfold nonneg_matrix in Hnn. rewrite Forall_forall in Hnn. auto. }
  assert (H0 : (0 + length M)%nat = n) by (simpl; exact HlM).
  destruct (makeStochastic_rows_props n Hn M 0 H0 HF) as [M' [E H2]].
  exists M'. unfold makeStochastic. rewrite HlM. split; [exact E|].
  pose proof (Forall2_length H2) as Hl.
  assert (Hall : Forall (fun row' => length row' = n /\ vsum row' = 1) M').
  { apply (Forall2_right _ _ _ _ H2). intros a b [? [? _]]. auto. }
  rewrite Forall_forall in Hall.
  repeat split.
  - transitivity (length M); [symmetry; exact Hl | exact HlM].
  - apply Forall_forall. intros r Hr. apply Hall. exact Hr.
  - apply Forall_forall. intros r Hr. apply Hall. exact Hr.
  - apply Forall_forall. intros r Hr. apply vsum_one_nonzero. apply Hall. exact Hr.
  - eapply Forall2_impl; [|exact H2]. intros a b [_ [_ H]]. exact H.
Qed.

(** C4: row [i] of an [n x n] matrix with [n >= 2] that is entirely zero
    becomes, after [makeStochastic], the row with [0] on the diagonal and
    [1/(n-1)] everywhere else; for three nodes a zero third row becomes
    [[0.5; 0.5; 0]]. *)
Theorem makeStochastic_dangling_row :
  (forall (n : nat) (M : matrix) (i : nat),
      (2 <= n)%nat -> square n M -> (i < n)%nat ->
      Forall (fun m => m = 0) (nth i M []) ->
      exists M', makeStochastic M = Ok M' /\
        nth i M' [] = map (fun j => if Nat.eq_dec i j then 0 else 1 / INR (n - 1)) (seq 0 n)) /\
  (forall M : matrix, square 3 M -> nth 2 M [] = [0; 0; 0] ->
      exists M', makeStochastic M = Ok M' /\ nth 2 M' [] = [0.5; 0.5; 0]).
Proof.
  assert (Hgen : forall (n : nat) (M : matrix) (i : nat),
      (2 <= n)%nat -> square n M -> (i < n)%nat ->
      Forall (fun m => m = 0) (nth i M []) ->
      exists M', makeStochastic M = Ok M' /\
        nth i M' [] = map (fun j => if Nat.eq_dec i j then 0 else 1 / INR (n - 1)) (seq 0 n)).
  { intros n M i Hn [HlM Hrows] Hi Hz.
    destruct (makeStochastic_rows_spec n Hn M 0 Hrows) as [M' [E [_ Hk]]].
    exists M'. unfold makeStochastic. rewrite HlM. split; [exact E|].
    specialize (Hk i ltac:(lia)). simpl in Hk.
    assert (Hs : vsum (nth i M []) = 0).
    { clear Hk E. induction Hz; simpl; lra. }
    assert (Hli : length (nth i M []) = n).
    { rewrite Forall_forall in Hrows. apply Hrows, nth_In. lia. }
    rewrite Hs in Hk. rewrite <- Hli in Hk at 2.
    rewrite (stochastic_row_dangling n i _ Hn Hz 0) in Hk.
    injection Hk as <-. rewrite Hli. reflexivity. }
  split; [exact Hgen|].
  intros M HM H2.
  destruct (Hgen 3%nat M 2%nat ltac:(lia) HM ltac:(lia) ltac:(rewrite H2; repeat constructor))
    as [M' [E Hrow]].
  exists M'. split; [exact E|]. rewrite Hrow. simpl.
  repeat f_equal; lra.
Qed.

(** C7 (amended): on a [1 x 1] matrix [makeStochastic] raises nothing: the
    guard [i != j] skips the only entry, so a dangling [[0]] comes back
    unchanged and no division by [n - 1 = 0] happens; a non-zero entry
    becomes [1]. *)
Theorem makeStochastic_single_node (m : R) :
  makeStochastic [[m]] = Ok [[if Req_EM_T m 0 then 0 else 1]].
Proof.
  unfold makeStochastic. simpl.
  replace (m + 0) with m by ring.
  destruct (Req_EM_T m 0) as [->|Hm]; simpl; [reflexivity|].
  unfold Rdiv. rewrite Rinv_r by exact Hm. reflexivity.
Qed.

(** C7 (counterexample): the dangling [1 x 1] matrix [[0]] does not make
    [makeStochastic] raise any error. *)
Lemma makeStochastic_single_node_no_error :
  ~ (exists e, makeStochastic [[0]] = Err e).
Proof.
  intros [e He]. unfold makeStochastic in He. simpl in He.
  destruct (Req_EM_T (0 + 0) 0); simpl in He; discriminate.
Qed.

(** ** Vector algebra *)

Lemma length_vadd (u v : vec) : length (vadd u v) = Nat.min (length u) (length v).
Proof. revert v; induction u as [|a u IH]; intros [|b v]; simpl; auto. Qed.

Lemma length_vsub (u v : vec) : length (vsub u v) = Nat.min (length u) (length v).
Proof. revert v; induction u as [|a u IH]; intros [|b v]; simpl; auto. Qed.

Lemma length_vscale (c : R) (v : vec) : length (vscale c v) = length v.
Proof. apply length_map. Qed.

Lemma vsum_vadd (u v : vec) : length u = length v -> vsum (vadd u v) = vsum u + vsum v.
Proof.
  revert v; induction u as [|a u IH]; intros [|b v] H; simpl in *; try lra; try discriminate.
  rewrite IH by lia. ring.
Qed.

Lemma vsum_vsub (u v : vec) : length u = length v -> vsum (vsub u v) = vsum u - vsum v.
Proof.
  revert v; induction u as [|a u IH]; intros [|b v] H; simpl in *; try lra; try discriminate.
  rewrite IH by lia. ring.
Qed.

Lemma vsum_vscale (c : R) (v : vec) : vsum (vscale c v) = c * vsum v.
Proof. induction v as [|a v IH]; simpl; [ring|]. fold (vscale c v). rewrite IH. ring. Qed.

Lemma vsum_repeat (c : R) (w : nat) : vsum (repeat c w) = c * INR w.
Proof. induction w as [|w IH]; [simpl; ring|]. rewrite S_INR. simpl. fold (vsum (repeat c w)). rewrite IH. ring. Qed.

Lemma length_vecmat_w (w : nat) (pi : vec) (M : matrix) :
  Forall (fun row => length row = w) M -> length (vecmat_w w pi M) = w.
Proof.
  revert M; induction pi as [|p pi IH]; intros M HM; destruct HM as [|row M Hrow HM];
    simpl; try apply repeat_length.
  rewrite length_vadd, length_vscale, IH by exact HM. lia.
Qed.

(** [np.matmul] keeps the total mass of [pi] when every row sums to [1]. *)
Lemma vsum_vecmat_w (w : nat) (pi : vec) (M : matrix) :
  length pi = length M -> Forall (fun row => length row = w /\ vsum row = 1) M ->
  vsum (vecmat_w w pi M) = vsum pi.
Proof.
  revert M; induction pi as [|p pi IH]; intros M Hl HM; destruct HM as [|row M [Hw Hs] HM];
    simpl in *; try discriminate.
  - rewrite vsum_repeat. ring.
  - rewrite vsum_vadd.
    + rewrite vsum_vscale, Hs, IH by (auto; lia). ring.
    + rewrite length_vscale, length_vecmat_w; [exact Hw|].
      eapply Forall_impl; [|exact HM]. simpl. tauto.
Qed.

Lemma vecmat_w_nonneg (w : nat) (pi : vec) (M : matrix) :
  Forall (Rle 0) pi -> Forall (Forall (Rle 0)) M -> Forall (Rle 0) (vecmat_w w pi M).
Proof.
  revert M; induction pi as [|p pi IH]; intros M Hpi HM; destruct HM as [|row M Hrow HM];
    simpl; try (apply Forall_forall; intros x Hx; apply repeat_spec in Hx; lra).
  inversion Hpi as [|? ? Hp Hpi']; subst.
  specialize (IH M Hpi' HM). remember (vecmat_w w pi M) as rest. clear Heqrest.
  revert rest IH. induction Hrow as [|m row Hm Hrow IHr]; intros [|r rest] Hrest; simpl; constructor.
  - inversion Hrest; subst. nra.
  - inversion Hrest; subst. apply IHr. assumption.
Qed.

Lemma vsub_vadd_vadd (a b c d : vec) :
  length a = length b -> length c = length a -> length d = length a ->
  vsub (vadd a b) (vadd c d) = vadd (vsub a c) (vsub b d).
Proof.
  revert b c d; induction a as [|x a IH]; intros [|y b] [|z c] [|t d] H1 H2 H3;
    simpl in *; try reflexivity; try discriminate.
  f_equal; [ring | apply IH; lia].
Qed.

Lemma vsub_vscale (p q : R) (r : vec) : vsub (vscale p r) (vscale q r) = vscale (p - q) r.
Proof. induction r as [|m r IH]; simpl; [reflexivity|]. f_equal; [ring | exact IH]. Qed.

Lemma vsub_repeat (a b : R) (w : nat) : vsub (repeat a w) (repeat b w) = repeat (a - b) w.
Proof. induction w as [|w IH]; simpl; [reflexivity|]. f_equal. exact IH. Qed.

(** [np.matmul] is linear in the row vector. *)
Lemma vecmat_w_vsub (w : nat) (p q : vec) (M : matrix) :
  length p = length M -> length q = length M -> Forall (fun row => length row = w) M ->
  vsub (vecmat_w w p M) (vecmat_w w q M) = vecmat_w w (vsub p q) M.
Proof.
  revert q M; induction p as [|a p IH]; intros [|b q] M Hp Hq HM;
    destruct HM as [|row M Hrow HM]; simpl in *; try discriminate.
  - rewrite vsub_repeat. f_equal. ring.
  - rewrite vsub_vadd_vadd.
    + rewrite vsub_vscale, IH by (auto; lia). reflexivity.
    + rewrite length_vscale, length_vecmat_w; auto.
    + rewrite !length_vscale. reflexivity.
    + rewrite length_vscale, !length_vecmat_w; auto.
Qed.

Lemma google_row_step (p alpha t c : R) (row X : vec) (w : nat) :
  length row = w -> length X = w ->
  vadd (vscale p (map (fun m => alpha * m + t) row)) (vadd (vscale alpha X) (repeat c w)) =
  vadd (vscale alpha (vadd (vscale p row) X)) (repeat (t * p + c) w).
Proof.
  revert X w; induction row as [|m row IH]; intros [|x X] w Hr HX; subst w;
    simpl in *; try reflexivity; try discriminate.
  f_equal; [ring|]. apply IH; lia.
Qed.

(** Multiplying by the Google matrix [alpha * M + t] is multiplying by [M],
    scaling by [alpha] and adding [t] times the mass of the vector. *)
Lemma vecmat_w_google (w : nat) (alpha t : R) (d : vec) (M : matrix) :
  length d = length M -> Forall (fun row => length row = w) M ->
  vecmat_w w d (map (map (fun m => alpha * m + t)) M) =
  vadd (vscale alpha (vecmat_w w d M)) (repeat (t * vsum d) w).
Proof.
  revert M; induction d as [|p d IH]; intros M Hl HM; destruct HM as [|row M Hrow HM];
    simpl in *; try discriminate.
  - clear. induction w as [|w IH]; simpl; [reflexivity|]. f_equal; [ring | exact IH].
  - rewrite IH by (auto; lia). rewrite google_row_step; auto.
    + f_equal. f_equal. ring.
    + apply length_vecmat_w. exact HM.
Qed.

Lemma l1_nonneg (v : vec) : 0 <= l1 v.
Proof. induction v as [|a v IH]; unfold l1; simpl; [lra|]. fold (l1 v). pose proof (Rabs_pos a). lra. Qed.

Lemma l1_vadd (u v : vec) : length u = length v -> l1 (vadd u v) <= l1 u + l1 v.
Proof.
  revert v; induction u as [|a u IH]; intros [|b v] H; unfold l1 in *; simpl in *; try lra; try discriminate.
  pose proof (Rabs_triang a b). specialize (IH v ltac:(lia)). lra.
Qed.

Lemma l1_vscale (c : R) (v : vec) : l1 (vscale c v) = Rabs c * l1 v.
Proof.
  induction v as [|a v IH]; unfold l1 in *; simpl in *; [ring|].
  fold (vscale c v). rewrite IH, Rabs_mult. ring.
Qed.

Lemma l1_repeat_0 (w : nat) : l1 (repeat 0 w) = 0.
Proof. induction w as [|w IH]; unfold l1 in *; simpl in *; [reflexivity|]. rewrite IH, Rabs_R0. ring. Qed.

Lemma l1_nonneg_row (row : vec) : Forall (Rle 0) row -> l1 row = vsum row.
Proof. induction 1; unfold l1 in *; simpl in *; [reflexivity|]. rewrite Rabs_right by lra. lra. Qed.

(** A non-negative matrix whose rows sum to [1] does not increase the
    [l1] norm. *)
Lemma l1_vecmat_w (w : nat) (d : vec) (M : matrix) :
  length d = length M ->
  Forall (fun row => length row = w /\ Forall (Rle 0) row /\ vsum row = 1) M ->
  l1 (vecmat_w w d M) <= l1 d.
Proof.
  revert M; induction d as [|p d IH]; intros M Hl HM; destruct HM as [|row M [Hw [Hnn Hs]] HM];
    simpl in *; try discriminate.
  - rewrite l1_repeat_0. unfold l1; simpl; lra.
  - eapply Rle_trans; [apply l1_vadd|].
    + rewrite length_vscale, length_vecmat_w; [exact Hw|].
      eapply Forall_impl; [|exact HM]. simpl. tauto.
    + rewrite l1_vscale, l1_nonneg_row, Hs by exact Hnn.
      specialize (IH M ltac:(lia) HM). unfold l1 at 2. simpl. fold (l1 d). lra.
Qed.

Lemma normsq_nonneg (v : vec) : 0 <= normsq v.
Proof. induction v as [|a v IH]; unfold normsq in *; simpl in *; nra. Qed.

(** The Euclidean norm is bounded by the [l1] norm. *)
Lemma norm_le_l1 (v : vec) : norm v <= l1 v.
Proof.
  unfold norm. rewrite <- (sqrt_square (l1 v)) by apply l1_nonneg.
  apply sqrt_le_1_alt.
  induction v as [|a v IH]; unfold normsq, l1 in *; simpl in *; [lra|].
  fold (l1 v) in *. fold (normsq v) in *.
  pose proof (l1_nonneg v). pose proof (Rabs_pos a).
  assert (a * a = Rabs a * Rabs a) by (rewrite <- Rabs_mult; rewrite Rabs_right; [ring | nra]).
  nra.
Qed.

(** ** PageRank *)

Lemma pydiv_INR (n : nat) : (1 <= n)%nat -> pydiv 1 (INR n) = Ok (1 / INR n).
Proof. intros Hn. apply pydiv_ok. apply not_0_INR. lia. Qed.

Lemma google_row_ok (alpha e : R) (k : nat) (row : vec) :
  (k <= length row)%nat ->
  google_row alpha e k row = Ok (map (fun m => alpha * m + e) (firstn k row) ++ skipn k row).
Proof.
  revert row; induction k as [|k IH]; intros [|m row] Hk; simpl in *; try reflexivity; [lia|].
  rewrite IH by lia. reflexivity.
Qed.

Lemma google_row_short (alpha e : R) (k : nat) (row : vec) :
  (length row < k)%nat -> google_row alpha e k row = Err IndexError.
Proof.
  revert row; induction k as [|k IH]; intros [|m row] Hk; simpl in *; try lia; try reflexivity.
  rewrite IH by lia. reflexivity.
Qed.

Lemma google_rows_ok (alpha e : R) (n : nat) (rows : matrix) :
  Forall (fun row => (n <= length row)%nat) rows ->
  google_rows alpha e n rows =
    Ok (map (fun row => map (fun m => alpha * m + e) (firstn n row) ++ skipn n row) rows).
Proof.
  induction 1 as [|row rows Hr _ IH]; simpl; [reflexivity|].
  rewrite google_row_ok by exact Hr. simpl. rewrite IH. reflexivity.
Qed.

Lemma google_ok (M : matrix) (alpha : R) :
  (1 <= length M)%nat -> Forall (fun row => length row = length M) M ->
  google M alpha = Ok (map (map (fun m => alpha * m + (1 - alpha) * (1 / INR (length M)))) M).
Proof.
  intros Hn Hsq. unfold google, ERatio. rewrite pydiv_INR by exact Hn. simpl.
  rewrite google_rows_ok.
  - f_equal. apply map_ext_in. intros row Hrow.
    rewrite Forall_forall in Hsq. rewrite <- (Hsq row Hrow), firstn_all, skipn_all, app_nil_r.
    reflexivity.
  - eapply Forall_impl; [|exact Hsq]. intros row ->. lia.
Qed.


Lemma google_rows_short (alpha e : R) (n : nat) (rows : matrix) :
  (exists row, In row rows /\ (length row < n)%nat) -> google_rows alpha e n rows = Err IndexError.
Proof.
  induction rows as [|row rows IH]; intros [r [Hin Hr]]; [destruct Hin|]. simpl.
  destruct (Nat.lt_ge_cases (length row) n) as [Hs|Hl].
  - rewrite google_row_short by exact Hs. reflexivity.
  - rewrite google_row_ok by exact Hl. simpl. rewrite IH; [reflexivity|].
    destruct Hin as [<-|Hin]; [lia|]. eauto.
Qed.

(** The Google loop reads [matrix[i][j]] for [j < n = len(matrix)]: a row
    shorter than [n] raises [IndexError]. *)
Lemma google_short (M : matrix) (alpha : R) :
  (1 <= length M)%nat -> (exists row, In row M /\ (length row < length M)%nat) ->
  google M alpha = Err IndexError.
Proof.
  intros Hn Hs. unfold google, ERatio. rewrite pydiv_INR by exact Hn. simpl.
  apply google_rows_short. exact Hs.
Qed.

Lemma uniform_ok (n : nat) : (1 <= n)%nat -> uniform n = Ok (repeat (1 / INR n) n).
Proof. intros Hn. unfold uniform. rewrite pydiv_INR by exact Hn. reflexivity. Qed.

Lemma vsum_map_affine (a t : R) (row : vec) :
  vsum (map (fun m => a * m + t) row) = a * vsum row + t * INR (length row).
Proof.
  induction row as [|m row IH]; simpl; [ring|]. rewrite IH.
  destruct (length row); simpl; ring.
Qed.

(** ** Shapes of the numpy steps *)

Lemma norm_vsub_self (v : vec) : norm (vsub v v) = 0.
Proof.
  unfold norm. replace (normsq (vsub v v)) with 0; [apply sqrt_0|].
  induction v as [|a v IH]; unfold normsq in *; simpl; [reflexivity|]. rewrite <- IH. ring.
Qed.


Lemma ncols_square (n : nat) (M : matrix) : square n M -> ncols M = n.
Proof.
  intros [Hl Hr]. destruct M as [|row M]; simpl in *; [exact Hl|].
  inversion Hr; assumption.
Qed.

Lemma length_vecmat_sq (n : nat) (p : vec) (M : matrix) :
  square n M -> length (vecmat p M) = n.
Proof.
  intros HM. unfold vecmat. rewrite (ncols_square n M HM).
  apply length_vecmat_w. apply HM.
Qed.

Lemma matmul_row_ok (pi : vec) (M : matrix) :
  length pi = length M -> matmul_row pi M = Ok (vecmat pi M).
Proof. intros H. unfold matmul_row. destruct (Nat.eq_dec _ _); [reflexivity | contradiction]. Qed.

Lemma matmul_row_mismatch (pi : vec) (M : matrix) :
  length pi <> length M -> matmul_row pi M = Err ValueError.
Proof. intros H. unfold matmul_row. destruct (Nat.eq_dec _ _); [contradiction | reflexivity]. Qed.

Lemma np_subtract_ok (u v : vec) : length u = length v -> np_subtract u v = Ok (vsub u v).
Proof. intros H. unfold np_subtract. destruct (Nat.eq_dec _ _); [reflexivity | contradiction]. Qed.

(** On a square [G] and a vector of matching length, one pass of the
    power-rule body is the pure step. *)
Lemma pr_step_sq (n : nat) (G : matrix) (p : vec) :
  square n G -> length p = n ->
  pr_step G p = Ok (vecmat p G, norm (vsub p (vecmat p G))).
Proof.
  intros HG Hp. unfold pr_step.
  rewrite matmul_row_ok by (destruct HG; lia). simpl.
  rewrite np_subtract_ok by (rewrite (length_vecmat_sq n p G HG); exact Hp). reflexivity.
Qed.

(** Any exit state of the loop on a square [G] is a returned vector that
    satisfies every property of [pi] kept by a power-rule step. *)
Lemma pr_loop_inv (n : nat) (G : matrix) (eps : R) (P : vec -> Prop) :
  square n G -> (forall p, P p -> length p = n) -> (forall p, P p -> P (vecmat p G)) ->
  forall pi residual iters res, pr_loop G eps pi residual iters res -> P pi ->
  exists r, res = Ok r /\ P r.
Proof.
  intros Hsq HL HP pi residual iters res H.
  induction H as [pi r Hr|pi r pi' r' k res Hr Hs H IH|pi r e Hr Hs]; intros Hp.
  - eauto.
  - rewrite (pr_step_sq n G pi Hsq (HL pi Hp)) in Hs. injection Hs as <- <-. apply IH, HP, Hp.
  - rewrite (pr_step_sq n G pi Hsq (HL pi Hp)) in Hs. discriminate.
Qed.

(** The loop stops once the residual of some iterate is below [eps]. *)
Lemma pr_loop_exit (n : nat) (G : matrix) (eps : R) :
  square n G ->
  forall N pi residual, length pi = n ->
  norm (vsub (Nat.iter N (fun p => vecmat p G) pi)
             (vecmat (Nat.iter N (fun p => vecmat p G) pi) G)) < eps ->
  exists iters res, pr_loop G eps pi residual iters (Ok res).
Proof.
  intros HG. induction N as [|N IH]; intros pi residual Hp HN.
  - destruct (Rlt_le_dec residual eps) as [Hr|Hr].
    + exists O, pi. constructor. exact Hr.
    + exists 1%nat, (vecmat pi G). eapply pr_iter; [exact Hr | exact (pr_step_sq n G pi HG Hp)|].
      constructor. exact HN.
  - destruct (Rlt_le_dec residual eps) as [Hr|Hr].
    + exists O, pi. constructor. exact Hr.
    + rewrite Nat.iter_succ_r in HN.
      destruct (IH _ (norm (vsub pi (vecmat pi G))) (length_vecmat_sq n pi G HG) HN) as [k [res H]].
      exists (S k), res. eapply pr_iter; [exact Hr | exact (pr_step_sq n G pi HG Hp) | exact H].
Qed.

Lemma pr_loop_deterministic (G : matrix) (eps : R) :
  forall pi residual k1 r1, pr_loop G eps pi residual k1 r1 ->
  forall k2 r2, pr_loop G eps pi residual k2 r2 -> k1 = k2 /\ r1 = r2.
Proof.
  intros pi residual k1 r1 H1.
  induction H1 as [pi r Hr|pi r pi' r' k res Hr Hs H IH|pi r e Hr Hs]; intros k2 r2 H2;
    inversion H2 as [? ? Hr2|? ? pi2 r2' k' res' Hr2 Hs2 H'|? ? e2 Hr2 Hs2]; subst; try lra;
    try (split; congruence).
  rewrite Hs in Hs2. injection Hs2 as <- <-. destruct (IH _ _ H') as [-> ->]. auto.
Qed.

Section GoogleMatrix.
Variable n : nat.
Variable M : matrix.
Variable alpha : R.
Hypothesis Hn : (1 <= n)%nat.
Hypothesis HM : row_stochastic n M.
Hypothesis Halpha : 0 < alpha < 1.

Let t : R := (1 - alpha) * (1 / INR n).
Let G : matrix := map (map (fun m => alpha * m + t)) M.
Let f (p : vec) : vec := vecmat p G.

Lemma HlenM : length M = n.
Proof. destruct HM as [[H _] _]. exact H. Qed.

Lemma google_G : google M alpha = Ok G.
Proof.
  destruct HM as [[Hl Hr] _].
  rewrite google_ok; rewrite Hl; [reflexivity | exact Hn | exact Hr].
Qed.

Lemma t_pos : 0 < t.
Proof.
  unfold t. apply Rmult_lt_0_compat; [lra|].
  apply Rdiv_lt_0_compat; [lra|]. apply lt_0_INR. lia.
Qed.

Lemma M_rows : Forall (fun row => length row = n /\ Forall (Rle 0) row /\ vsum row = 1) M.
Proof.
  destruct HM as [[_ Hl] [Hnn Hs]]. unfold nonneg_matrix, rows_sum_one in *.
  rewrite Forall_forall in *. intros row Hin. auto.
Qed.

Lemma G_rows : Forall (fun row => length row = n /\ Forall (Rlt 0) row /\ vsum row = 1) G.
Proof.
  pose proof M_rows as HR. pose proof t_pos. unfold G. rewrite Forall_map.
  eapply Forall_impl; [|exact HR]. intros row [Hl [Hnn Hs]]. split; [|split].
  - rewrite length_map. exact Hl.
  - rewrite Forall_map. eapply Forall_impl; [|exact Hnn]. simpl. intros m Hm. nra.
  - rewrite vsum_map_affine, Hs, Hl. unfold t. field. apply not_0_INR. lia.
Qed.

Lemma G_rows_weak : Forall (fun row => length row = n /\ vsum row = 1) G.
Proof. eapply Forall_impl; [|exact G_rows]. simpl. tauto. Qed.

Lemma length_G : length G = n.
Proof. unfold G. rewrite length_map. exact HlenM. Qed.

Lemma G_square : square n G.
Proof.
  split; [exact length_G|]. eapply Forall_impl; [|exact G_rows]. simpl. tauto.
Qed.

Lemma ncols_G : ncols G = n.
Proof.
  pose proof G_rows as HR. pose proof length_G as HL.
  destruct G as [|row G'] eqn:E; simpl in *; [lia|]. inversion HR; tauto.
Qed.

Lemma f_w (p : vec) : f p = vecmat_w n p G.
Proof. unfold f, vecmat. rewrite ncols_G. reflexivity. Qed.

Lemma length_f (p : vec) : length (f p) = n.
Proof. rewrite f_w. apply length_vecmat_w. eapply Forall_impl; [|exact G_rows]. simpl. tauto. Qed.

Lemma vsum_f (p : vec) : length p = n -> vsum (f p) = vsum p.
Proof. intros Hp. rewrite f_w. apply vsum_vecmat_w; [rewrite length_G; exact Hp | exact G_rows_weak]. Qed.

Lemma nonneg_f (p : vec) : Forall (Rle 0) p -> Forall (Rle 0) (f p).
Proof.
  intros Hp. rewrite f_w. apply vecmat_w_nonneg; [exact Hp|].
  eapply Forall_impl; [|exact G_rows]. intros row [_ [H _]].
  eapply Forall_impl; [|exact H]. intros; lra.
Qed.

(** The difference of successive iterates shrinks by [alpha] in [l1]. *)
Lemma contraction (p : vec) :
  length p = n -> l1 (vsub (f p) (f (f p))) <= alpha * l1 (vsub p (f p)).
Proof.
  intros Hp.
  assert (Hfp : length (f p) = n) by apply length_f.
  assert (Hd : length (vsub p (f p)) = length M) by (rewrite length_vsub, HlenM; lia).
  assert (Hs : vsum (vsub p (f p)) = 0) by (rewrite vsum_vsub, vsum_f by lia; ring).
  pose proof M_rows as HR.
  assert (HRl : Forall (fun row => length row = n) M) by (eapply Forall_impl; [|exact HR]; simpl; tauto).
  rewrite (f_w (f p)), (f_w p) at 1. rewrite vecmat_w_vsub.
  2, 3: rewrite length_G; lia.
  2: eapply Forall_impl; [|exact G_rows]; simpl; tauto.
  unfold G. rewrite vecmat_w_google by assumption. rewrite Hs, Rmult_0_r.
  eapply Rle_trans; [apply l1_vadd|].
  - rewrite length_vscale, length_vecmat_w, repeat_length; auto.
  - rewrite l1_repeat_0, l1_vscale, Rabs_right by lra.
    pose proof (l1_vecmat_w n _ M Hd HR). nra.
Qed.

Lemma contraction_iter (p : vec) (k : nat) :
  length p = n ->
  l1 (vsub (Nat.iter k f p) (f (Nat.iter k f p))) <= alpha ^ k * l1 (vsub p (f p)).
Proof.
  intros Hp. induction k as [|k IH]; simpl; [lra|].
  assert (Hk : length (Nat.iter k f p) = n) by (destruct k; simpl; [exact Hp | apply length_f]).
  eapply Rle_trans; [apply contraction; exact Hk|].
  pose proof (pow_le alpha k ltac:(lra)). nra.
Qed.

Lemma residual_eventually (p : vec) (eps : R) :
  length p = n -> 0 < eps -> exists k, norm (vsub (Nat.iter k f p) (f (Nat.iter k f p))) < eps.
Proof.
  intros Hp Heps. set (C := l1 (vsub p (f p))).
  assert (HC : 0 <= C) by apply l1_nonneg.
  destruct (pow_lt_1_zero alpha ltac:(rewrite Rabs_right; lra) (eps / (C + 1))
              ltac:(apply Rdiv_lt_0_compat; lra)) as [N HN].
  exists N. specialize (HN N (le_n N)). rewrite Rabs_right in HN by (apply Rle_ge, pow_le; lra).
  eapply Rle_lt_trans; [apply norm_le_l1|].
  eapply Rle_lt_trans; [apply contraction_iter; exact Hp|].
  fold C. apply (Rmult_lt_compat_r (C + 1)) in HN; [|lra].
  unfold Rdiv in HN. rewrite Rmult_assoc, Rinv_l, Rmult_1_r in HN by lra.
  pose proof (pow_le alpha N ltac:(lra)). nra.
Qed.
End GoogleMatrix.

Lemma nth_map_lt {A B : Type} (g : A -> B) (l : list A) (k : nat) (d : A) (d' : B) :
  (k < length l)%nat -> nth k (map g l) d' = g (nth k l d).
Proof.
  intros Hk. rewrite (nth_indep _ d' (g d)) by (rewrite length_map; exact Hk).
  apply map_nth.
Qed.

Lemma pr_loop_nonneg_mass (G : matrix) (eps : R) (n : nat) :
  square n G ->
  (forall p, length p = n -> vsum (vecmat p G) = vsum p) ->
  (forall p, Forall (Rle 0) p -> Forall (Rle 0) (vecmat p G)) ->
  forall pi residual iters res, pr_loop G eps pi residual iters (Ok res) ->
  length pi = n -> Forall (Rle 0) pi -> vsum pi = 1 ->
  length res = n /\ Forall (Rle 0) res /\ vsum res = 1.
Proof.
  intros Hsq Hs Hnn pi residual iters res H Hlp Hnp Hsp.
  destruct (pr_loop_inv n G eps (fun p => length p = n /\ Forall (Rle 0) p /\ vsum p = 1)
              Hsq ltac:(intros p [Hp _]; exact Hp) ltac:(intros p [H1 [H2 H3]]; split;
                [apply (length_vecmat_sq n p G Hsq) | split; [auto | rewrite Hs; auto]])
              pi residual iters (Ok res) H (conj Hlp (conj Hnp Hsp))) as [r [E Hr]].
  injection E as <-. exact Hr.
Qed.

Lemma vsum_uniform (n : nat) : (1 <= n)%nat -> vsum (repeat (1 / INR n) n) = 1.
Proof. intros Hn. rewrite vsum_repeat. field. apply not_0_INR. lia. Qed.

Lemma uniform_nonneg (n : nat) : Forall (Rle 0) (repeat (1 / INR n) n).
Proof.
  apply Forall_forall. intros x Hx. apply repeat_spec in Hx. subst x.
  destruct n; [simpl; unfold Rdiv; rewrite Rinv_0; lra|].
  apply Rlt_le, Rdiv_lt_0_compat; [lra | apply lt_0_INR; lia].
Qed.

(** ** Claims about PageRank *)

(** C1: for an [n x n] row-stochastic [M] ([n >= 1]), [0 < alpha < 1] and
    [eps > 0], the Google transform succeeds with
    [G[i][j] = alpha * M[i][j] + (1 - alpha) / n]; [G] is square, strictly
    positive and row-stochastic; and the power-rule loop terminates: a run of
    [pageRank] reaching [return] exists (runs are deterministic, see
    [pr_loop_deterministic]). *)
Theorem pageRank_google_terminates (n : nat) (M : matrix) (alpha eps : R) :
  (1 <= n)%nat -> row_stochastic n M -> 0 < alpha < 1 -> 0 < eps ->
  exists G, google M alpha = Ok G /\ square n G /\
    (forall i j, (i < n)%nat -> (j < n)%nat ->
       nth j (nth i G []) 0 = alpha * nth j (nth i M []) 0 + (1 - alpha) / INR n) /\
    Forall (Forall (Rlt 0)) G /\ rows_sum_one G /\
    exists iters pi, pageRank_run M alpha eps iters (Ok pi).
Proof.
  intros Hn HM Halpha Heps.
  pose proof (HlenM n M HM) as HlM.
  pose proof (G_rows n M alpha Hn HM Halpha) as HG.
  set (G := map (map (fun m => alpha * m + (1 - alpha) * (1 / INR n))) M) in *.
  exists G. split; [exact (google_G n M alpha Hn HM)|].
  split; [|split; [|split; [|split]]].
  - split; [exact (length_G n M alpha HM)|]. eapply Forall_impl; [|exact HG]. simpl; tauto.
  - intros i j Hi Hj. unfold G.
    rewrite (nth_map_lt _ M i []) by lia.
    assert (Hrow : length (nth i M []) = n).
    { destruct HM as [[_ Hl] _]. rewrite Forall_forall in Hl. apply Hl, nth_In. lia. }
    rewrite (nth_map_lt _ _ j 0) by lia. unfold Rdiv. ring.
  - eapply Forall_impl; [|exact HG]. simpl; tauto.
  - eapply Forall_impl; [|exact HG]. simpl; tauto.
  - destruct (residual_eventually n M alpha Hn HM Halpha (repeat (1 / INR n) n) eps
                (repeat_length _ _) Heps) as [k Hk].
    destruct (pr_loop_exit n G eps (G_square n M alpha Hn HM Halpha) k (repeat (1 / INR n) n) 1
                (repeat_length _ _) Hk) as [iters [pi Hrun]].
    exists iters, pi. econstructor.
    + exact (google_G n M alpha Hn HM).
    + rewrite HlM. apply uniform_ok. exact Hn.
    + exact Hrun.
Qed.

(** C2: every vector returned by [pageRank] on an [n x n] row-stochastic
    matrix ([n >= 1]) with [0 < alpha < 1] has [n] non-negative entries
    summing to [1]. *)
Theorem pageRank_distribution (n : nat) (M : matrix) (alpha eps : R) (iters : nat) (pi : vec) :
  (1 <= n)%nat -> row_stochastic n M -> 0 < alpha < 1 ->
  pageRank_run M alpha eps iters (Ok pi) ->
  length pi = n /\ Forall (Rle 0) pi /\ vsum pi = 1.
Proof.
  intros Hn HM Halpha Hrun.
  inversion Hrun as [|G pi0 k res HG Hpi0 Hloop]. subst k res.
  pose proof (HlenM n M HM) as HlM.
  rewrite (google_G n M alpha Hn HM) in HG. injection HG as <-.
  rewrite HlM, uniform_ok in Hpi0 by exact Hn. injection Hpi0 as <-.
  eapply pr_loop_nonneg_mass; [| | |exact Hloop| | |].
  - exact (G_square n M alpha Hn HM Halpha).
  - intros p Hp. apply (vsum_f n M alpha Hn HM Halpha p Hp).
  - intros p Hp. apply (nonneg_f n M alpha Hn HM Halpha p Hp).
  - apply repeat_length.
  - apply uniform_nonneg.
  - apply vsum_uniform. exact Hn.
Qed.

Lemma pageRank_run_deterministic (M : matrix) (alpha eps : R) :
  forall k1 r1, pageRank_run M alpha eps k1 r1 ->
  forall k2 r2, pageRank_run M alpha eps k2 r2 -> k1 = k2 /\ r1 = r2.
Proof.
  intros k1 r1 H1 k2 r2 H2.
  destruct H1 as [e1 E1|G1 p1 k1 res1 E1 U1 L1]; destruct H2 as [e2 E2|G2 p2 k2 res2 E2 U2 L2];
    rewrite E1 in E2; try discriminate.
  - injection E2 as ->. auto.
  - injection E2 as <-. rewrite U1 in U2. injection U2 as <-.
    destruct (pr_loop_deterministic G1 eps p1 1 k1 res1 L1 k2 res2 L2) as [-> ->]. auto.
Qed.

(** Equality of two concrete vectors, entry by entry. *)
Ltac list_lra :=
  repeat match goal with
  | |- (_ :: _) = (_ :: _) => apply f_equal2
  | |- [] = [] => reflexivity
  | |- @eq R _ _ => lra
  end.

(** A start vector that one power-rule step maps to itself: the loop runs
    once and stops with a zero residual. *)
Lemma pr_fixed_one_step (G : matrix) (eps : R) (p : vec) :
  0 < eps <= 1 -> length p = length G -> vecmat p G = p ->
  pr_loop G eps p 1 1 (Ok p).
Proof.
  intros Heps Hl Hf. eapply pr_iter; [lra| |].
  - unfold pr_step. rewrite matmul_row_ok by exact Hl. rewrite Hf. simpl.
    rewrite np_subtract_ok by reflexivity. reflexivity.
  - apply pr_done. rewrite norm_vsub_self. lra.
Qed.

(** A run whose first power-rule step already lands on the start vector. *)
Ltac pageRank_one_step :=
  econstructor;
  [ apply google_ok; simpl; [lia | repeat constructor]
  | apply uniform_ok; simpl; lia
  | match goal with
    | |- pr_loop _ _ _ _ _ (Ok ?res) =>
        replace (repeat _ _) with res by (simpl; list_lra)
    end;
    apply pr_fixed_one_step; [lra | reflexivity | unfold vecmat; simpl; list_lra] ].

Lemma uniform3_run : pageRank_run uniform3 0.85 1e-8 1 (Ok [1/3; 1/3; 1/3]).
Proof. unfold uniform3. pageRank_one_step. Qed.

Lemma negative2_run : pageRank_run negative2 0.85 1e-8 1 (Ok [0.5; 0.5]).
Proof. unfold negative2. pageRank_one_step. Qed.

Lemma unbalanced2_run : pageRank_run unbalanced2 0.85 1e-8 1 (Ok [0.5; 0.5]).
Proof. unfold unbalanced2. pageRank_one_step. Qed.

(** C9: on the 3-node uniform matrix with [alpha = 0.85] and [eps = 1e-8],
    the only run of [pageRank] performs exactly one iteration of the loop
    and returns [[1/3; 1/3; 1/3]]. *)
Theorem pageRank_uniform3_one_iteration (iters : nat) (res : Exc vec) :
  pageRank_run uniform3 0.85 1e-8 iters res <-> (iters = 1%nat /\ res = Ok [1/3; 1/3; 1/3]).
Proof.
  split.
  - intros H. exact (pageRank_run_deterministic _ _ _ _ _ H _ _ uniform3_run).
  - intros [-> ->]. exact uniform3_run.
Qed.

(** ** HITS *)

Lemma bool_int_0 : bool_int 0 = 0.
Proof. unfold bool_int. destruct (Req_EM_T 0 0); [reflexivity | congruence]. Qed.

Lemma bool_int_nz (a : R) : a <> 0 -> bool_int a = 1.
Proof. intros Ha. unfold bool_int. destruct (Req_EM_T a 0); [contradiction | reflexivity]. Qed.

Lemma bool_int_same (a b : R) : (a = 0 <-> b = 0) -> bool_int a = bool_int b.
Proof.
  intros Hab. destruct (Req_EM_T a 0) as [Ha|Ha].
  - rewrite Ha, (proj1 Hab Ha), bool_int_0. reflexivity.
  - rewrite !bool_int_nz; [reflexivity | |exact Ha]. intros Hb. apply Ha, Hab, Hb.
Qed.

Lemma presence_nonneg (M : matrix) : nonneg_matrix (presence M).
Proof.
  unfold nonneg_matrix, presence. apply Forall_forall. intros row Hrow.
  apply in_map_iff in Hrow as [r [<- _]]. apply Forall_forall. intros x Hx.
  apply in_map_iff in Hx as [a [<- _]]. unfold bool_int. destruct (Req_EM_T a 0); lra.
Qed.

Lemma transpose_nonneg (L : matrix) : nonneg_matrix L -> nonneg_matrix (transpose L).
Proof.
  unfold nonneg_matrix, transpose. intros HL. apply Forall_forall. intros col Hcol.
  apply in_map_iff in Hcol as [j [<- _]]. apply Forall_forall. intros x Hx.
  apply in_map_iff in Hx as [row [<- Hrow]].
  destruct (nth_in_or_default j row 0) as [Hin | ->]; [|lra].
  rewrite Forall_forall in HL. specialize (HL row Hrow). rewrite Forall_forall in HL. auto.
Qed.

Lemma matmul_nonneg (A B : matrix) : nonneg_matrix A -> nonneg_matrix B -> nonneg_matrix (matmul A B).
Proof.
  unfold nonneg_matrix, matmul. intros HA HB. rewrite Forall_map.
  eapply Forall_impl; [|exact HA]. intros row Hrow. apply vecmat_w_nonneg; assumption.
Qed.


Lemma transpose_square (n : nat) (L : matrix) : square n L -> square n (transpose L).
Proof.
  intros HL. pose proof (ncols_square n L HL) as Hc. destruct HL as [Hl _].
  unfold transpose. rewrite Hc. split.
  - rewrite length_map, length_seq. reflexivity.
  - apply Forall_forall. intros col Hcol. apply in_map_iff in Hcol as [j [<- _]].
    rewrite length_map. exact Hl.
Qed.

Lemma matmul_square (n : nat) (A B : matrix) : square n A -> square n B -> square n (matmul A B).
Proof.
  intros [HlA _] HB. pose proof (ncols_square n B HB) as Hc. unfold matmul. split.
  - rewrite length_map. exact HlA.
  - apply Forall_forall. intros r Hr. apply in_map_iff in Hr as [row [<- _]].
    unfold vecmat. rewrite Hc. apply length_vecmat_w. destruct HB as [_ HB]. exact HB.
Qed.

Lemma authMatrix_square (n : nat) (L : matrix) : square n L -> square n (authMatrix L).
Proof. intros HL. apply matmul_square; [apply transpose_square|]; exact HL. Qed.

Lemma hubMatrix_square (n : nat) (L : matrix) : square n L -> square n (hubMatrix L).
Proof. intros HL. apply matmul_square; [|apply transpose_square]; exact HL. Qed.

Lemma presence_square (n : nat) (M : matrix) : square n M -> square n (presence M).
Proof.
  intros [Hl HR]. unfold presence. split; [rewrite length_map; exact Hl|].
  rewrite Forall_map. eapply Forall_impl; [|exact HR]. intros row H. rewrite length_map. exact H.
Qed.

Lemma normsq_map_div (c : R) (v : vec) :
  c <> 0 -> normsq (map (fun a => a / c) v) = normsq v / (c * c).
Proof.
  intros Hc. induction v as [|a v IH]; unfold normsq in *; simpl in *; [unfold Rdiv; ring|].
  rewrite IH. field. exact Hc.
Qed.

Lemma normsq_pos (v : vec) : Forall (Rlt 0) v -> v <> [] -> 0 < normsq v.
Proof.
  intros Hv Hne. destruct Hv as [|a v Ha Hv]; [contradiction|].
  unfold normsq; simpl. fold (normsq v). pose proof (normsq_nonneg v). nra.
Qed.

(** Re-normalizing a positive vector gives a non-negative vector of
    Euclidean norm [1]. *)
Lemma normalize_unit (v : vec) :
  Forall (Rlt 0) v -> v <> [] ->
  Forall (Rle 0) (normalize v) /\ norm (normalize v) = 1.
Proof.
  intros Hv Hne. pose proof (normsq_pos v Hv Hne) as Hs.
  assert (Hn : 0 < norm v) by (apply sqrt_lt_R0; exact Hs).
  split.
  - unfold normalize. rewrite Forall_map. eapply Forall_impl; [|exact Hv].
    intros a Ha. apply Rlt_le, Rdiv_lt_0_compat; assumption.
  - unfold normalize. unfold norm at 1. rewrite normsq_map_div by lra.
    unfold norm. rewrite sqrt_sqrt by lra. unfold Rdiv. rewrite Rinv_r by lra. apply sqrt_1.
Qed.

Lemma normalize_repeat (n : nat) (E : R) :
  (1 <= n)%nat -> 0 < E -> normalize (repeat E n) = repeat (1 / sqrt (INR n)) n.
Proof.
  intros Hn HE. unfold normalize. rewrite map_repeat. f_equal.
  assert (Hs : normsq (repeat E n) = E * E * INR n).
  { unfold normsq. rewrite map_repeat, vsum_repeat. reflexivity. }
  unfold norm. rewrite Hs, sqrt_mult_alt, sqrt_square by nra.
  assert (0 < sqrt (INR n)) by (apply sqrt_lt_R0, lt_0_INR; lia).
  field. split; lra.
Qed.

Lemma normsq_repeat (d : R) (k : nat) : normsq (repeat d k) = d * d * INR k.
Proof. unfold normsq. rewrite map_repeat, vsum_repeat. reflexivity. Qed.

Lemma norm_repeat_ge (d : R) (k : nat) : (1 <= k)%nat -> Rabs d <= norm (repeat d k).
Proof.
  intros Hk. unfold norm. rewrite normsq_repeat, <- sqrt_Rsqr_abs. unfold Rsqr.
  apply sqrt_le_1_alt. assert (1 <= INR k) by (apply (le_INR 1); exact Hk).
  pose proof (Rle_0_sqr d). unfold Rsqr in *. nra.
Qed.

Lemma norm_uniform (n : nat) : (1 <= n)%nat -> norm (repeat (1 / INR n) n) = 1 / sqrt (INR n).
Proof.
  intros Hn. assert (Hp : 0 < INR n) by (apply lt_0_INR; lia).
  unfold norm. rewrite normsq_repeat.
  replace (1 / INR n * (1 / INR n) * INR n) with (1 / INR n) by (field; lra).
  rewrite sqrt_div_alt, sqrt_1 by exact Hp. reflexivity.
Qed.

Lemma length_hits_update (n : nat) (A : matrix) (xi E : R) (x : vec) :
  square n A -> length (hits_update xi E A x) = n.
Proof. intros HA. unfold hits_update, normalize. rewrite !length_map. apply length_vecmat_sq. exact HA. Qed.

(** On square matrices and vectors of matching length, one pass of the
    HITS loop body is the pair of pure updates. *)
Lemma hits_step_sq (n : nat) (A H : matrix) (xi E : R) (x y : vec) :
  square n A -> square n H -> length x = n -> length y = n ->
  hits_step A H xi E x y =
    Ok (hits_update xi E A x, hits_update xi E H y,
        norm (vsub x (hits_update xi E A x)) + norm (vsub y (hits_update xi E H y))).
Proof.
  intros HA HH Hx Hy. unfold hits_step.
  rewrite (matmul_row_ok x A) by (destruct HA; lia).
  rewrite (matmul_row_ok y H) by (destruct HH; lia). simpl.
  pose proof (length_hits_update n A xi E x HA) as LA.
  pose proof (length_hits_update n H xi E y HH) as LH. unfold hits_update in LA, LH.
  rewrite (np_subtract_ok x) by lia. rewrite (np_subtract_ok y) by lia. reflexivity.
Qed.

(** A loop run on square matrices either exits at once or ends right after
    an update of some reachable pair [(px, py)] whose residual is below
    [eps]. *)
Lemma hits_loop_last (n : nat) (A H : matrix) (xi E eps : R) (P : vec -> Prop) :
  square n A -> square n H -> (forall x, P x -> length x = n) ->
  (forall x, P x -> P (hits_update xi E A x)) ->
  (forall y, P y -> P (hits_update xi E H y)) ->
  forall x y residual iters res, hits_loop A H xi E eps x y residual iters res ->
  P x -> P y ->
  (iters = O /\ res = Ok (x, y) /\ residual < eps) \/
  (exists px py, P px /\ P py /\ (1 <= iters)%nat /\
     res = Ok (hits_update xi E A px, hits_update xi E H py) /\
     norm (vsub px (hits_update xi E A px)) + norm (vsub py (hits_update xi E H py)) < eps).
Proof.
  intros HsA HsH HL HA HH x y residual iters res Hloop.
  induction Hloop as [x y r Hr|x y r x' y' r' k res Hr Hs Hloop IH|x y r e Hr Hs]; intros Hx Hy.
  - left. auto.
  - rewrite (hits_step_sq n A H xi E x y HsA HsH (HL x Hx) (HL y Hy)) in Hs.
    injection Hs as <- <- <-.
    right. destruct (IH (HA x Hx) (HH y Hy)) as [[-> [-> Hlt]]|[px [py [Hpx [Hpy [Hk [Hres Hlt]]]]]]].
    + exists x, y. repeat split; auto.
    + exists px, py. repeat split; auto; lia.
  - rewrite (hits_step_sq n A H xi E x y HsA HsH (HL x Hx) (HL y Hy)) in Hs. discriminate.
Qed.

Section HitsUpdate.
Variable n : nat.
Variable A : matrix.
Variable xi : R.
Hypothesis Hn : (1 <= n)%nat.
Hypothesis HA : square n A.
Hypothesis HAnn : nonneg_matrix A.
Hypothesis Hxi : 0 < xi < 1.

Let E : R := (1 - xi) * (1 / INR n).

Lemma E_pos : 0 < E.
Proof. unfold E. apply Rmult_lt_0_compat; [lra|]. apply Rdiv_lt_0_compat; [lra|]. apply lt_0_INR. lia. Qed.

(** One damped update of a non-negative score vector is non-negative and of
    unit norm. *)
Lemma hits_update_unit (x : vec) :
  Forall (Rle 0) x ->
  Forall (Rle 0) (hits_update xi E A x) /\ norm (hits_update xi E A x) = 1.
Proof.
  intros Hx. unfold hits_update. apply normalize_unit.
  - rewrite Forall_map. pose proof E_pos.
    eapply Forall_impl; [|apply vecmat_w_nonneg; [exact Hx | exact HAnn]].
    simpl. intros a Ha. nra.
  - unfold vecmat. rewrite (ncols_square n A HA).
    intros Hnil. apply (f_equal (@length R)) in Hnil. rewrite length_map in Hnil.
    rewrite length_vecmat_w in Hnil; [simpl in Hnil; lia|]. destruct HA as [_ HR]. exact HR.
Qed.
End HitsUpdate.

Lemma auth_hub_facts (n : nat) (M : matrix) :
  square n M ->
  square n (authMatrix (presence M)) /\ nonneg_matrix (authMatrix (presence M)) /\
  square n (hubMatrix (presence M)) /\ nonneg_matrix (hubMatrix (presence M)).
Proof.
  intros HM. pose proof (presence_square n M HM) as HL. pose proof (presence_nonneg M) as HLn.
  split; [|split; [|split]].
  - apply authMatrix_square. exact HL.
  - apply matmul_nonneg; [apply transpose_nonneg|]; exact HLn.
  - apply hubMatrix_square. exact HL.
  - apply matmul_nonneg; [|apply transpose_nonneg]; exact HLn.
Qed.

(** ** Claims about HITS *)

(** With [eps > 1] the initial residual [1.] skips the loop: the call
    returns the start vectors. *)
Lemma hits_core_large_eps (n : nat) (L : matrix) (xi eps : R) :
  (1 <= n)%nat -> 1 < eps ->
  forall iters res, hits_core n L xi eps iters res <->
    iters = O /\ res = Ok (repeat (1 / INR n) n, repeat (1 / INR n) n).
Proof.
  intros Hn Heps iters res. split.
  - intros H. destruct H as [e He|r k res' Hr Hloop].
    + rewrite pydiv_INR in He by exact Hn. discriminate.
    + rewrite pydiv_INR in Hr by exact Hn. injection Hr as <-.
      inversion Hloop; subst; [split; reflexivity | lra | lra].
  - intros [-> ->]. eapply hits_return; [apply pydiv_INR; exact Hn|]. apply hits_done. exact Heps.
Qed.

(** C5 (amended): for a square [n x n] matrix ([n >= 1]) and [0 < xi < 1]:
    with [eps <= 1] (so that the initial residual [1.] enters the loop),
    every run of [hypertextInducedTopicSearch] returns [(x, y)] after at
    least one iteration, where [x] and [y] are the last updates —
    multiplication by the authority (resp. hub) matrix scaled by [xi],
    addition of [(1 - xi) * (1 / n)], re-normalization — of some [(px, py)]
    with [norm(px - x) + norm(py - y) < eps]; [x] and [y] are non-negative
    and of Euclidean norm [1].  With [eps > 1] the only run makes no
    iteration and returns the start vectors [(1/n, ..., 1/n)], whose norm is
    [1 / sqrt n]. *)
Theorem hits_step_and_result (n : nat) (M : matrix) (xi : R) :
  (1 <= n)%nat -> square n M -> 0 < xi < 1 ->
  (forall (eps : R) (iters : nat) (res : Exc (vec * vec)), eps <= 1 ->
     hypertextInducedTopicSearch M xi eps iters res ->
     exists x y px py, res = Ok (x, y) /\ (1 <= iters)%nat /\
       x = normalize (map (fun a => xi * a + (1 - xi) * (1 / INR n))
                          (vecmat px (authMatrix (presence M)))) /\
       y = normalize (map (fun a => xi * a + (1 - xi) * (1 / INR n))
                          (vecmat py (hubMatrix (presence M)))) /\
       norm (vsub px x) + norm (vsub py y) < eps /\
       Forall (Rle 0) x /\ Forall (Rle 0) y /\ norm x = 1 /\ norm y = 1) /\
  (forall (eps : R) (iters : nat) (res : Exc (vec * vec)), 1 < eps ->
     (hypertextInducedTopicSearch M xi eps iters res <->
      iters = O /\ res = Ok (repeat (1 / INR n) n, repeat (1 / INR n) n))) /\
  norm (repeat (1 / INR n) n) = 1 / sqrt (INR n).
Proof.
  intros Hn HM Hxi.
  destruct (auth_hub_facts n M HM) as [HA [HAnn [HH HHnn]]].
  pose proof HM as [HlM _].
  split; [|split; [|exact (norm_uniform n Hn)]].
  - intros eps iters res Heps Hrun.
    unfold hypertextInducedTopicSearch in Hrun. rewrite HlM in Hrun.
    destruct Hrun as [e He|r k res' Hr Hloop].
    + rewrite pydiv_INR in He by exact Hn. discriminate.
    + rewrite pydiv_INR in Hr by exact Hn. injection Hr as <-.
      set (P := fun v : vec => length v = n /\ Forall (Rle 0) v).
      assert (HPA : forall x, P x -> P (hits_update xi ((1 - xi) * (1 / INR n)) (authMatrix (presence M)) x)).
      { intros x [_ Hx]. split; [exact (length_hits_update n _ _ _ x HA)|].
        exact (proj1 (hits_update_unit n _ xi Hn HA HAnn Hxi x Hx)). }
      assert (HPH : forall y, P y -> P (hits_update xi ((1 - xi) * (1 / INR n)) (hubMatrix (presence M)) y)).
      { intros y [_ Hy]. split; [exact (length_hits_update n _ _ _ y HH)|].
        exact (proj1 (hits_update_unit n _ xi Hn HH HHnn Hxi y Hy)). }
      assert (HP0 : P (repeat (1 / INR n) n)) by (split; [apply repeat_length | apply uniform_nonneg]).
      destruct (hits_loop_last n _ _ _ _ _ P HA HH (fun x Hx => proj1 Hx) HPA HPH
                  _ _ _ _ _ Hloop HP0 HP0)
        as [[_ [_ Hlt]]|[px [py [[_ Hpx] [[_ Hpy] [Hk [-> Hlt]]]]]]]; [lra|].
      do 4 eexists. split; [reflexivity|]. split; [exact Hk|].
      split; [reflexivity|]. split; [reflexivity|]. split; [exact Hlt|].
      destruct (hits_update_unit n _ xi Hn HA HAnn Hxi px Hpx).
      destruct (hits_update_unit n _ xi Hn HH HHnn Hxi py Hpy).
      repeat split; assumption.
  - intros eps iters res Heps. unfold hypertextInducedTopicSearch. rewrite HlM.
    apply hits_core_large_eps; assumption.
Qed.

(** C5 (counterexample): with [eps = 2 > 1] the loop body never runs and
    [hypertextInducedTopicSearch] returns the start vectors [[0.5; 0.5]],
    whose Euclidean norm is [sqrt 0.5], not [1]. *)
Lemma hits_large_eps_not_unit :
  hypertextInducedTopicSearch swap2 0.85 2 0 (Ok ([0.5; 0.5], [0.5; 0.5])) /\
  norm [0.5; 0.5] <> 1.
Proof.
  split.
  - unfold hypertextInducedTopicSearch. eapply hits_return; [apply pydiv_INR; simpl; lia|].
    replace (repeat (1 / INR (length swap2)) (length swap2)) with [0.5; 0.5]
      by (simpl; list_lra).
    apply hits_done. lra.
  - unfold norm, normsq, vsum. simpl. intros H.
    apply (f_equal (fun z => z * z)) in H. rewrite sqrt_sqrt in H by lra. lra.
Qed.

(** The authority and hub matrices of [swap2] are the identity. *)
Lemma swap2_auth_hub :
  authMatrix (presence swap2) = [[1; 0]; [0; 1]] /\ hubMatrix (presence swap2) = [[1; 0]; [0; 1]].
Proof.
  assert (HP : presence swap2 = [[0; 1]; [1; 0]]).
  { unfold presence, swap2. simpl. rewrite bool_int_0, (bool_int_nz 1) by lra. reflexivity. }
  rewrite HP. split; unfold authMatrix, hubMatrix, transpose, matmul, vecmat; simpl; list_lra.
Qed.

Lemma square2_id : square 2 [[1; 0]; [0; 1]].
Proof. split; [reflexivity | repeat constructor]. Qed.

Lemma hits_update_id2 (xi E a : R) :
  0 < xi * a + E -> hits_update xi E [[1; 0]; [0; 1]] (repeat a 2) = repeat (1 / sqrt (INR 2)) 2.
Proof.
  intros Ha. unfold hits_update.
  replace (vecmat (repeat a 2) [[1; 0]; [0; 1]]) with (repeat a 2)
    by (unfold vecmat; simpl; list_lra).
  rewrite map_repeat. apply normalize_repeat; [lia | exact Ha].
Qed.

Lemma sqrt2_bounds : 1 < sqrt (INR 2) < 1.5.
Proof.
  replace (INR 2) with 2 by (simpl; lra).
  pose proof (sqrt_sqrt 2 ltac:(lra)) as Hs. pose proof (sqrt_pos 2). nra.
Qed.

(** On the 2-cycle [swap2] the first update already reaches the fixed pair
    [(1/sqrt 2, 1/sqrt 2)]: the loop runs twice, the second residual being
    [0]. *)
Lemma swap2_hits_run :
  hypertextInducedTopicSearch swap2 0.85 1e-8 2
    (Ok (repeat (1 / sqrt (INR 2)) 2, repeat (1 / sqrt (INR 2)) 2)).
Proof.
  destruct swap2_auth_hub as [HA HH]. pose proof sqrt2_bounds as Hs2.
  assert (Hc : 0 < 1 / sqrt (INR 2)) by (apply Rdiv_lt_0_compat; lra).
  unfold hypertextInducedTopicSearch. eapply hits_return; [apply pydiv_INR; simpl; lia|].
  change (length swap2) with 2%nat. rewrite HA, HH.
  assert (Hh : 0 < 1 / INR 2) by (simpl; lra).
  eapply hits_iter; [lra | apply (hits_step_sq 2); [exact square2_id | exact square2_id | reflexivity | reflexivity] |].
  rewrite !hits_update_id2 by nra.
  eapply hits_iter; [| apply (hits_step_sq 2); [exact square2_id | exact square2_id | apply repeat_length | apply repeat_length] |].
  - rewrite vsub_repeat.
    pose proof (norm_repeat_ge (1 / INR 2 - 1 / sqrt (INR 2)) 2 ltac:(lia)) as Hge.
    assert (Hd : 1 / 6 <= Rabs (1 / INR 2 - 1 / sqrt (INR 2))).
    { rewrite Rabs_left1.
      - replace (INR 2) with 2 at 1 by (simpl; lra).
        assert (2 / 3 <= 1 / sqrt (INR 2)).
        { apply (Rmult_le_reg_r (sqrt (INR 2))); [lra|].
          replace (1 / sqrt (INR 2) * sqrt (INR 2)) with 1 by (field; lra). lra. }
        lra.
      - replace (INR 2) with 2 at 1 by (simpl; lra).
        assert (1 / 2 <= 1 / sqrt (INR 2)).
        { apply (Rmult_le_reg_r (sqrt (INR 2))); [lra|].
          replace (1 / sqrt (INR 2) * sqrt (INR 2)) with 1 by (field; lra). lra. }
        lra. }
    lra.
  - rewrite !hits_update_id2 by nra. apply hits_done. rewrite norm_vsub_self. lra.
Qed.

Lemma normalize_e2 (a : R) : 0 < a -> normalize [0; a] = [0; 1] /\ normalize [a; 0] = [1; 0].
Proof.
  intros Ha. unfold normalize, norm, normsq, vsum. simpl.
  replace (0 * 0 + (a * a + 0)) with (a * a) by ring.
  replace (a * a + (0 * 0 + 0)) with (a * a) by ring.
  rewrite sqrt_square by lra. split; repeat f_equal; field; lra.
Qed.

Lemma norm_cons_ge (a : R) (v : vec) : Rabs a <= norm (a :: v).
Proof.
  unfold norm. rewrite <- sqrt_Rsqr_abs. apply sqrt_le_1_alt.
  unfold normsq, Rsqr. simpl. fold (normsq v). pose proof (normsq_nonneg v). lra.
Qed.

(** The authority matrix of [chain2] is [diag(0, 1)], its hub matrix
    [diag(1, 0)]. *)
Lemma chain2_auth_hub :
  authMatrix (presence chain2) = [[0; 0]; [0; 1]] /\ hubMatrix (presence chain2) = [[1; 0]; [0; 0]].
Proof.
  assert (HP : presence chain2 = [[0; 1]; [0; 0]]).
  { unfold presence, chain2. simpl. rewrite bool_int_0, (bool_int_nz 1) by lra. reflexivity. }
  rewrite HP. split; unfold authMatrix, hubMatrix, transpose, matmul, vecmat; simpl; list_lra.
Qed.

(** With [xi = 1] ([E = 0]) HITS on [chain2] reaches the authority vector
    [[0; 1]] and the hub vector [[1; 0]] after two iterations. *)
Lemma chain2_hits_run :
  hypertextInducedTopicSearch chain2 1 0.5 2 (Ok ([0; 1], [1; 0])).
Proof.
  destruct chain2_auth_hub as [HA HH].
  destruct (normalize_e2 (1 / 2) ltac:(lra)) as [N1 N2].
  destruct (normalize_e2 1 ltac:(lra)) as [N3 N4].
  assert (SA : square 2 [[0; 0]; [0; 1]]) by (split; [reflexivity | repeat constructor]).
  assert (SH : square 2 [[1; 0]; [0; 0]]) by (split; [reflexivity | repeat constructor]).
  unfold hypertextInducedTopicSearch. eapply hits_return; [apply pydiv_INR; simpl; lia|].
  change (length chain2) with 2%nat. rewrite HA, HH.
  replace (repeat (1 / INR 2) 2) with [0.5; 0.5] by (simpl; list_lra).
  replace ((1 - 1) * (1 / INR 2)) with 0 by ring.
  eapply hits_iter; [lra | apply (hits_step_sq 2); [exact SA | exact SH | reflexivity | reflexivity] |].
  assert (U1 : hits_update 1 0 [[0; 0]; [0; 1]] [0.5; 0.5] = [0; 1]).
  { unfold hits_update. etransitivity; [|exact N1]. f_equal. unfold vecmat. simpl. list_lra. }
  assert (U2 : hits_update 1 0 [[1; 0]; [0; 0]] [0.5; 0.5] = [1; 0]).
  { unfold hits_update. etransitivity; [|exact N2]. f_equal. unfold vecmat. simpl. list_lra. }
  assert (U3 : hits_update 1 0 [[0; 0]; [0; 1]] [0; 1] = [0; 1]).
  { unfold hits_update. etransitivity; [|exact N3]. f_equal. unfold vecmat. simpl. list_lra. }
  assert (U4 : hits_update 1 0 [[1; 0]; [0; 0]] [1; 0] = [1; 0]).
  { unfold hits_update. etransitivity; [|exact N4]. f_equal. unfold vecmat. simpl. list_lra. }
  rewrite U1, U2.
  eapply hits_iter; [| apply (hits_step_sq 2); [exact SA | exact SH | reflexivity | reflexivity] |].
  - change (vsub [0.5; 0.5] [0; 1]) with [0.5 - 0; 0.5 - 1].
    change (vsub [0.5; 0.5] [1; 0]) with [0.5 - 1; 0.5 - 0].
    pose proof (norm_cons_ge (0.5 - 0) [0.5 - 1]) as H1.
    pose proof (norm_cons_ge (0.5 - 1) [0.5 - 0]) as H2.
    rewrite Rabs_right in H1 by lra. rewrite Rabs_left in H2 by lra. lra.
  - rewrite U3, U4. apply hits_done. rewrite !norm_vsub_self. lra.
Qed.

(** C10: [hypertextInducedTopicSearch] depends on the input only through its
    zero/non-zero pattern: two matrices with the same support have exactly
    the same runs, for every [xi] and [eps]. *)
Theorem hits_support_only (M1 M2 : matrix) (xi eps : R) :
  same_support M1 M2 ->
  hypertextInducedTopicSearch M1 xi eps = hypertextInducedTopicSearch M2 xi eps.
Proof.
  intros HS. unfold hypertextInducedTopicSearch.
  assert (Hl : length M1 = length M2) by exact (Forall2_length HS).
  assert (Hp : presence M1 = presence M2).
  { clear Hl. unfold presence. induction HS as [|r1 r2 M1 M2 Hr _ IH]; [reflexivity|]. simpl.
    rewrite IH. f_equal. induction Hr as [|a b r1 r2 Hab _ IHr]; [reflexivity|]. simpl.
    rewrite IHr. f_equal. apply bool_int_same. exact Hab. }
  rewrite Hl, Hp. reflexivity.
Qed.

Lemma Int_part_small (x : R) : 0 <= x < 1 -> Int_part x = 0%Z.
Proof.
  intros Hx. destruct (base_Int_part x) as [H1 H2].
  assert (Hlt : IZR (Int_part x) < IZR 1) by lra.
  assert (Hgt : IZR (-1) < IZR (Int_part x)) by lra.
  apply lt_IZR in Hlt. apply lt_IZR in Hgt. lia.
Qed.

(** C6 (code bug, activation draft): [matrix.astype(int)] truncates the
    stochastic matrix [half2] to the zero matrix, so the draft's "binary
    form" [L] and its authority and hub matrices are all zero, while the
    presence matrix of [half2] is all ones and its authority matrix is
    [[2, 2], [2, 2]]. *)
Theorem activation_L_truncates :
  activation_L half2 = [[0; 0]; [0; 0]] /\ presence half2 = [[1; 1]; [1; 1]] /\
  authMatrix (activation_L half2) = [[0; 0]; [0; 0]] /\
  hubMatrix (activation_L half2) = [[0; 0]; [0; 0]] /\
  authMatrix (presence half2) = [[2; 2]; [2; 2]] /\
  hubMatrix (presence half2) = [[2; 2]; [2; 2]].
Proof.
  assert (Ht : astype_int 0.5 = 0).
  { unfold astype_int. destruct (Rle_dec 0 0.5); [|lra].
    rewrite Int_part_small by lra. reflexivity. }
  assert (Hb : bool_int 0.5 = 1) by (apply bool_int_nz; lra).
  assert (HL : activation_L half2 = [[0; 0]; [0; 0]]).
  { unfold activation_L, half2. simpl. rewrite Ht. reflexivity. }
  assert (HP : presence half2 = [[1; 1]; [1; 1]]).
  { unfold presence, half2. simpl. rewrite Hb. reflexivity. }
  rewrite HL, HP.
  repeat split; unfold authMatrix, hubMatrix, transpose, matmul, vecmat; simpl; list_lra.
Qed.

(** ** Entries of the authority and hub matrices *)

Lemma nth_vadd (u v : vec) (j : nat) :
  length u = length v -> nth j (vadd u v) 0 = nth j u 0 + nth j v 0.
Proof.
  revert v j; induction u as [|a u IH]; intros [|b v] j H; simpl in *; try discriminate.
  - destruct j; ring.
  - destruct j; [reflexivity|]. apply IH. lia.
Qed.

Lemma nth_vecmat_w (w : nat) (p : vec) (M : matrix) (j : nat) :
  length p = length M -> Forall (fun row => length row = w) M -> (j < w)%nat ->
  nth j (vecmat_w w p M) 0 =
  vsum (map (fun k => nth k p 0 * nth j (nth k M []) 0) (seq 0 (length M))).
Proof.
  revert M; induction p as [|a p IH]; intros M Hl HM Hj; destruct HM as [|row M Hrow HM];
    simpl in *; try discriminate.
  - rewrite nth_repeat. reflexivity.
  - rewrite nth_vadd.
    + unfold vscale. rewrite (nth_map_lt _ row j 0 0) by lia. rewrite IH by (auto; lia).
      rewrite <- seq_shift, map_map. reflexivity.
    + rewrite length_vscale, length_vecmat_w; auto.
Qed.

Lemma matmul_entry (n : nat) (A B : matrix) (i j : nat) :
  square n A -> square n B -> (i < n)%nat -> (j < n)%nat ->
  nth j (nth i (matmul A B) []) 0 =
  vsum (map (fun k => nth k (nth i A []) 0 * nth j (nth k B []) 0) (seq 0 n)).
Proof.
  intros [HlA HA] HB Hi Hj. pose proof (ncols_square n B HB) as Hc. destruct HB as [HlB HB'].
  unfold matmul. rewrite (nth_map_lt (fun row => vecmat row B) A i [] []) by lia.
  unfold vecmat. rewrite Hc, nth_vecmat_w; auto.
  - rewrite HlB. reflexivity.
  - rewrite HlB. rewrite Forall_forall in HA. apply HA, nth_In. lia.
Qed.

Lemma transpose_entry (n : nat) (L : matrix) (i j : nat) :
  square n L -> (i < n)%nat -> (j < n)%nat ->
  nth j (nth i (transpose L) []) 0 = nth i (nth j L []) 0.
Proof.
  intros HL Hi Hj. pose proof (ncols_square n L HL) as Hc. destruct HL as [Hl _].
  unfold transpose. rewrite Hc.
  rewrite (nth_map_lt _ (seq 0 n) i O []) by (rewrite length_seq; lia).
  rewrite seq_nth by lia. simpl.
  rewrite (nth_map_lt _ L j [] 0) by lia. reflexivity.
Qed.

(** In [accessibility_ranker], [L^T L] and [L L^T] are symmetric. *)
Lemma auth_hub_symmetric (n : nat) (M : matrix) (i j : nat) :
  square n M -> (i < n)%nat -> (j < n)%nat ->
  nth j (nth i (authMatrix (presence M)) []) 0 = nth i (nth j (authMatrix (presence M)) []) 0 /\
  nth j (nth i (hubMatrix (presence M)) []) 0 = nth i (nth j (hubMatrix (presence M)) []) 0.
Proof.
  intros HM Hi Hj. pose proof (presence_square n M HM) as HL.
  pose proof (transpose_square n _ HL) as HT.
  unfold authMatrix, hubMatrix. rewrite !(matmul_entry n) by assumption.
  split; f_equal; apply map_ext_in; intros k Hk; apply in_seq in Hk;
    assert (Hk' : (k < n)%nat) by lia.
  - rewrite (transpose_entry n _ i k HL Hi Hk'), (transpose_entry n _ j k HL Hj Hk'). ring.
  - rewrite (transpose_entry n _ k i HL Hk' Hi), (transpose_entry n _ k j HL Hk' Hj). ring.
Qed.

(** ** Instances of the claims on concrete inputs *)

Ltac forall_each :=
  repeat first [ apply Forall_nil | apply Forall_cons | apply Forall2_nil | apply Forall2_cons ].

Lemma pageRank_google_terminates_witness :
  row_stochastic 3 uniform3 /\ exists iters pi, pageRank_run uniform3 0.85 1e-8 iters (Ok pi).
Proof.
  assert (HM : row_stochastic 3 uniform3).
  { unfold row_stochastic, square, nonneg_matrix, rows_sum_one, uniform3.
    split; [split; [reflexivity|]|split]; forall_each; simpl; try reflexivity;
      unfold vsum; simpl; lra. }
  split; [exact HM|].
  destruct (pageRank_google_terminates 3 uniform3 0.85 1e-8 ltac:(lia) HM ltac:(lra) ltac:(lra))
    as [G [_ [_ [_ [_ [_ Hrun]]]]]].
  exact Hrun.
Defined.

Lemma pageRank_distribution_witness :
  row_stochastic 3 uniform3 /\
  length [1/3; 1/3; 1/3] = 3%nat /\ Forall (Rle 0) [1/3; 1/3; 1/3] /\ vsum [1/3; 1/3; 1/3] = 1.
Proof.
  assert (HM : row_stochastic 3 uniform3).
  { unfold row_stochastic, square, nonneg_matrix, rows_sum_one, uniform3.
    split; [split; [reflexivity|]|split]; forall_each; simpl; try reflexivity;
      unfold vsum; simpl; lra. }
  split; [exact HM|].
  apply (pageRank_distribution 3 uniform3 0.85 1e-8 1); [lia | exact HM | lra | exact uniform3_run].
Defined.

Lemma makeStochastic_rows_stochastic_witness :
  exists M', makeStochastic [[0; 1; 1]; [2; 0; 0]; [0; 0; 0]] = Ok M' /\ rows_sum_one M'.
Proof.
  assert (Hsq : square 3 [[0; 1; 1]; [2; 0; 0]; [0; 0; 0]]).
  { split; [reflexivity|]. forall_each; reflexivity. }
  assert (Hnn : nonneg_matrix [[0; 1; 1]; [2; 0; 0]; [0; 0; 0]]).
  { unfold nonneg_matrix. forall_each; lra. }
  destruct (makeStochastic_rows_stochastic 3 _ ltac:(lia) Hsq Hnn) as [M' [E [_ [Hr _]]]].
  exists M'. split; [exact E | exact Hr].
Defined.

Lemma makeStochastic_dangling_row_witness :
  exists M', makeStochastic [[0; 1; 1]; [2; 0; 0]; [0; 0; 0]] = Ok M' /\
    nth 2 M' [] = [0.5; 0.5; 0].
Proof.
  apply (proj2 makeStochastic_dangling_row).
  - split; [reflexivity|]. forall_each; reflexivity.
  - reflexivity.
Defined.

Lemma hits_step_and_result_witness :
  hypertextInducedTopicSearch swap2 0.85 1e-8 2
    (Ok (repeat (1 / sqrt (INR 2)) 2, repeat (1 / sqrt (INR 2)) 2)) /\
  norm (repeat (1 / sqrt (INR 2)) 2) = 1 /\
  hypertextInducedTopicSearch swap2 0.85 2 0 (Ok (repeat (1 / INR 2) 2, repeat (1 / INR 2) 2)) /\
  norm (repeat (1 / INR 2) 2) = 1 / sqrt (INR 2).
Proof.
  assert (Hsq : square 2 swap2) by (split; [reflexivity|]; unfold swap2; forall_each; reflexivity).
  destruct (hits_step_and_result 2 swap2 0.85 ltac:(lia) Hsq ltac:(lra)) as [H1 [H2 H3]].
  split; [exact swap2_hits_run|]. split.
  - destruct (H1 1e-8 2%nat _ ltac:(lra) swap2_hits_run)
      as [x [y [px [py [E [_ [_ [_ [_ [_ [_ [Hx _]]]]]]]]]]]].
    injection E as Ex Ey. subst x. exact Hx.
  - split; [apply (proj2 (H2 2 0%nat _ ltac:(lra))); split; reflexivity | exact H3].
Defined.

Lemma pageRank_uniform3_one_iteration_witness :
  pageRank_run uniform3 0.85 1e-8 1 (Ok [1/3; 1/3; 1/3]).
Proof.
  apply (proj2 (pageRank_uniform3_one_iteration 1 (Ok [1/3; 1/3; 1/3]))).
  split; reflexivity.
Defined.

Lemma hits_support_only_witness :
  hypertextInducedTopicSearch [[1; 2]; [0; 3]] 0.85 1e-8 =
  hypertextInducedTopicSearch [[5; 7]; [0; 1]] 0.85 1e-8.
Proof.
  apply hits_support_only. unfold same_support.
  forall_each; split; intro; lra.
Defined.

(** * Further properties of the regularizer and the engines *)

(** ** [makeStochastic] *)

Lemma stochastic_row_square (n i : nat) (total : R) (row : vec) :
  (i < n)%nat -> forall j, (j + length row <= n)%nat ->
  stochastic_row n i j (length row) total row =
    Ok (map (fun k => if Req_EM_T total 0
                      then (if Nat.eq_dec i k then nth (k - j) row 0 else 1 / INR (n - 1))
                      else nth (k - j) row 0 / total)
            (seq j (length row))).
Proof.
  intros Hi. induction row as [|m row IH]; intros j Hj; simpl in *; [reflexivity|].
  rewrite (IH (S j)) by lia.
  assert (Hsh : map (fun k => if Req_EM_T total 0
                     then (if Nat.eq_dec i k then nth (k - S j) row 0 else 1 / INR (n - 1))
                     else nth (k - S j) row 0 / total) (seq (S j) (length row)) =
                map (fun k => if Req_EM_T total 0
                     then (if Nat.eq_dec i k then nth (k - j) (m :: row) 0 else 1 / INR (n - 1))
                     else nth (k - j) (m :: row) 0 / total) (seq (S j) (length row))).
  { apply map_ext_in. intros k Hk. apply in_seq in Hk.
    replace (k - j)%nat with (S (k - S j)) by lia. reflexivity. }
  rewrite Hsh. cbn [seq map]. rewrite Nat.sub_diag. cbn [nth].
  destruct (Req_EM_T total 0); [destruct (Nat.eq_dec i j)|]; simpl; try reflexivity.
  rewrite pydiv_ok by (apply not_0_INR; lia). reflexivity.
Qed.

Lemma map_nth_seq_self {A : Type} (l : list A) (d : A) :
  map (fun k => nth k l d) (seq 0 (length l)) = l.
Proof.
  induction l as [|a l IH]; simpl; [reflexivity|]. f_equal.
  rewrite <- seq_shift, map_map. exact IH.
Qed.

Lemma makeStochastic_rows_square (n : nat) :
  forall rows i, (i + length rows = n)%nat -> Forall (fun row => length row = n) rows ->
  makeStochastic_rows n i rows =
    Ok (map (fun k => map (fun j =>
           if Req_EM_T (vsum (nth k rows [])) 0
           then (if Nat.eq_dec (i + k) j then nth j (nth k rows []) 0 else 1 / INR (n - 1))
           else nth j (nth k rows []) 0 / vsum (nth k rows [])) (seq 0 n))
         (seq 0 (length rows))).
Proof.
  induction rows as [|row rows IH]; intros i Hi Hrows; simpl; [reflexivity|].
  apply Forall_cons_iff in Hrows as [Hlen Hrest]. simpl in Hi.
  replace (stochastic_row n i 0 n (vsum row) row)
    with (stochastic_row n i 0 (length row) (vsum row) row) by (rewrite Hlen; reflexivity).
  rewrite (stochastic_row_square n i (vsum row) row) by lia. simpl.
  rewrite (IH (S i)) by (auto; lia). simpl. rewrite Hlen. f_equal. f_equal.
  - rewrite Nat.add_0_r. apply map_ext. intros k. rewrite Nat.sub_0_r. reflexivity.
  - rewrite <- seq_shift, map_map. apply map_ext. intros k. simpl.
    replace (i + S k)%nat with (S i + k)%nat by lia. reflexivity.
Qed.

(** Entry [(i, j)] of [makeStochastic M] for a square [M], read off the two
    loops: never an exception, whatever [n] and the signs of the entries. *)
Lemma makeStochastic_square_entries (n : nat) (M : matrix) :
  square n M ->
  makeStochastic M =
    Ok (map (fun i => map (fun j =>
           if Req_EM_T (vsum (nth i M [])) 0
           then (if Nat.eq_dec i j then nth j (nth i M []) 0 else 1 / INR (n - 1))
           else nth j (nth i M []) 0 / vsum (nth i M [])) (seq 0 n))
         (seq 0 n)).
Proof.
  intros [Hl Hrows]. unfold makeStochastic. rewrite Hl.
  rewrite (makeStochastic_rows_square n M 0) by (auto; lia). rewrite Hl. reflexivity.
Qed.

Lemma makeStochastic_square_shape (n : nat) (M M' : matrix) :
  square n M -> makeStochastic M = Ok M' -> square n M'.
Proof.
  intros HM E. rewrite (makeStochastic_square_entries n M HM) in E. injection E as <-.
  split; [rewrite length_map, length_seq; reflexivity|].
  apply Forall_forall. intros row Hin. apply in_map_iff in Hin as [i [<- _]].
  rewrite length_map, length_seq. reflexivity.
Qed.

(** [makeStochastic] raises no exception on any square matrix, of any size
    (also [0 x 0] and [1 x 1]) and with any entries, and keeps its shape:
    [1. / (len(matrix) - 1)] is only evaluated off the diagonal, which
    exists only when [n >= 2]. *)
Theorem makeStochastic_never_raises (n : nat) (M : matrix) :
  square n M -> exists M', makeStochastic M = Ok M' /\ square n M'.
Proof.
  intros HM. eexists. split; [exact (makeStochastic_square_entries n M HM)|].
  exact (makeStochastic_square_shape n M _ HM (makeStochastic_square_entries n M HM)).
Qed.

(** A row whose entries add up to [0] without all being [0] (it then has a
    negative entry) takes the dangling branch: its diagonal entry is kept
    and every other entry becomes [1/(n-1)], so the row sums to
    [1 + M[i][i]] rather than [1]. *)
Theorem makeStochastic_zero_sum_row (n : nat) (M : matrix) (i : nat) :
  square n M -> (i < n)%nat -> vsum (nth i M []) = 0 ->
  exists M', makeStochastic M = Ok M' /\
    nth i M' [] = map (fun j => if Nat.eq_dec i j then nth i (nth i M []) 0
                                else 1 / INR (n - 1)) (seq 0 n).
Proof.
  intros HM Hi Hs. eexists. split; [exact (makeStochastic_square_entries n M HM)|].
  rewrite (nth_map_lt _ (seq 0 n) i O []) by (rewrite length_seq; exact Hi).
  rewrite seq_nth by exact Hi. simpl.
  apply map_ext_in. intros j Hj.
  rewrite Hs. destruct (Req_EM_T 0 0) as [_|]; [|congruence].
  destruct (Nat.eq_dec i j) as [<-|]; reflexivity.
Qed.

Lemma stochastic_row_sum_one (n i : nat) :
  forall k row j, (k <= length row)%nat -> stochastic_row n i j k 1 row = Ok row.
Proof.
  induction k as [|k IH]; intros [|m row] j Hk; simpl in *; try reflexivity; [lia|].
  destruct (Req_EM_T 1 0); [lra|]. rewrite IH by lia. simpl.
  f_equal. f_equal. unfold Rdiv. rewrite Rinv_1. ring.
Qed.

Lemma makeStochastic_rows_sum_one (n : nat) :
  forall rows i, Forall (fun row => (n <= length row)%nat) rows -> rows_sum_one rows ->
  makeStochastic_rows n i rows = Ok rows.
Proof.
  induction rows as [|row rows IH]; intros i Hl Hrows; simpl; [reflexivity|].
  apply Forall_cons_iff in Hrows as [Hs Hrest]. apply Forall_cons_iff in Hl as [Hl1 Hl].
  rewrite Hs, stochastic_row_sum_one by exact Hl1. simpl. rewrite IH by assumption. reflexivity.
Qed.

(** A matrix whose rows already sum to [1] and have at least [len(matrix)]
    entries is returned unchanged (each entry the loop visits is divided by
    its row sum [1]). *)
Theorem makeStochastic_fixes_stochastic (M : matrix) :
  Forall (fun row => (length M <= length row)%nat) M -> rows_sum_one M -> makeStochastic M = Ok M.
Proof. intros Hl H. apply makeStochastic_rows_sum_one; assumption. Qed.

(** Regularizing twice is regularizing once: on a square non-negative matrix
    with [n >= 2] the rows of [makeStochastic M] sum to [1], so a second
    pass leaves it unchanged. *)
Theorem makeStochastic_idempotent (n : nat) (M : matrix) :
  (2 <= n)%nat -> square n M -> nonneg_matrix M ->
  bind (makeStochastic M) makeStochastic = makeStochastic M.
Proof.
  intros Hn [HlM Hrows] Hnn.
  assert (HF : Forall (fun row => length row = n /\ Forall (Rle 0) row) M).
  { rewrite Forall_forall in *. intros row Hin. split; auto.
    unfold nonneg_matrix in Hnn. rewrite Forall_forall in Hnn. auto. }
  destruct (makeStochastic_rows_props n Hn M 0 ltac:(simpl; lia) HF) as [M' [E H2]].
  unfold makeStochastic at 1 3. rewrite HlM, E. simpl.
  apply makeStochastic_rows_sum_one.
  - rewrite <- (Forall2_length H2), HlM. apply (Forall2_right _ _ _ _ H2). intros a b [Hb _]. lia.
  - apply (Forall2_right _ _ _ _ H2). intros a b [_ [Hb _]]. exact Hb.
Qed.

Lemma stochastic_row_scale (n i : nat) (c t : R) :
  c <> 0 -> forall k row j, (length row <= k)%nat -> (t = 0 -> Forall (fun m => m = 0) row) ->
  stochastic_row n i j k (c * t) (map (Rmult c) row) = stochastic_row n i j k t row.
Proof.
  intros Hc. induction k as [|k IH]; intros row j Hl Hz.
  { destruct row; [reflexivity | simpl in Hl; lia]. }
  assert (Hl' : (length (tl row) <= k)%nat) by (destruct row; simpl in *; lia).
  assert (Hz' : t = 0 -> Forall (fun m => m = 0) (tl row)).
  { intros Ht. specialize (Hz Ht). destruct row; [constructor | inversion Hz; assumption]. }
  simpl. destruct (Req_EM_T (c * t) 0) as [Hct|Hct]; destruct (Req_EM_T t 0) as [Ht|Ht].
  - destruct (Nat.eq_dec i j).
    + destruct row as [|m row]; simpl.
      * exact (IH [] (S j) (Nat.le_0_l _) (fun _ => Forall_nil _)).
      * rewrite (IH row (S j) Hl' Hz'). specialize (Hz Ht). inversion Hz. subst m.
        rewrite Rmult_0_r. reflexivity.
    + destruct row as [|m row]; simpl; [reflexivity|]. rewrite (IH row (S j) Hl' Hz'). reflexivity.
  - exfalso. apply Rmult_integral in Hct as [|]; contradiction.
  - exfalso. apply Hct. rewrite Ht. ring.
  - destruct row as [|m row]; simpl; [reflexivity|]. rewrite (IH row (S j) Hl' Hz').
    replace (c * m / (c * t)) with (m / t) by (field; split; assumption). reflexivity.
Qed.

Lemma vsum_map_mult (c : R) (row : vec) : vsum (map (Rmult c) row) = c * vsum row.
Proof. induction row as [|a row IH]; simpl; [ring|]. rewrite IH. ring. Qed.

Lemma makeStochastic_rows_scale (n : nat) (c : R) (M : matrix) :
  nonneg_matrix M -> Forall (fun row => length row = n) M -> c <> 0 ->
  forall i, makeStochastic_rows n i (map (map (Rmult c)) M) = makeStochastic_rows n i M.
Proof.
  intros Hnn Hl Hc. induction Hnn as [|row M Hrow Hnn IH]; intros i; simpl; [reflexivity|].
  apply Forall_cons_iff in Hl as [Hl1 Hl].
  rewrite vsum_map_mult, stochastic_row_scale; [|exact Hc|lia|].
  - destruct (stochastic_row n i 0 n (vsum row) row); simpl; [|reflexivity].
    rewrite IH by exact Hl. reflexivity.
  - intros Hs. apply vsum_zero_nonneg; assumption.
Qed.

(** Scaling a non-negative matrix by a non-zero factor does not change the
    regularized matrix: every row is divided by its own sum, and an all-zero
    row stays all zero. *)
Theorem makeStochastic_scale_invariant (n : nat) (M : matrix) (c : R) :
  square n M -> nonneg_matrix M -> c <> 0 ->
  makeStochastic (map (map (Rmult c)) M) = makeStochastic M.
Proof.
  intros [Hl Hrows] Hnn Hc. unfold makeStochastic. rewrite length_map, Hl.
  apply makeStochastic_rows_scale; assumption.
Qed.

(** ** PageRank and HITS *)

Lemma pydiv_zero (a : R) : pydiv a (INR 0) = Err ZeroDivisionError.
Proof. unfold pydiv. simpl. destruct (Req_EM_T 0 0); [reflexivity | congruence]. Qed.

(** On the empty ([0 x 0]) matrix every engine raises [ZeroDivisionError]
    at [1. / n], before any iteration: both [pageRank]s, the HITS of
    [accessibility_ranker] and the HITS draft. *)
Theorem engines_empty_matrix (alpha xi eps : R) :
  (forall iters res, pageRank_run [] alpha eps iters res <->
                     iters = 0%nat /\ res = Err ZeroDivisionError) /\
  (forall res, act_pageRank_run [] alpha eps res <-> res = Err ZeroDivisionError) /\
  (forall iters res, hypertextInducedTopicSearch [] xi eps iters res <->
                     iters = 0%nat /\ res = Err ZeroDivisionError) /\
  (forall res, draft_hits_run [] xi eps res <-> res = Raise ZeroDivisionError).
Proof.
  assert (Hg : google [] alpha = Err ZeroDivisionError).
  { unfold google, ERatio. simpl length. rewrite pydiv_zero. reflexivity. }
  split; [|split; [|split]].
  - intros iters res. split.
    + intros H. destruct H as [e E|G pi0 k r E _ _]; rewrite Hg in E; [|discriminate].
      injection E as <-. auto.
    + intros [-> ->]. constructor. exact Hg.
  - intros res. split.
    + intros H. destruct H as [e E|G pi0 r k E _ _|G pi0 e k E _ _]; rewrite Hg in E;
        [|discriminate|discriminate].
      injection E as <-. reflexivity.
    + intros ->. constructor. exact Hg.
  - intros iters res. unfold hypertextInducedTopicSearch. simpl length. split.
    + intros H. destruct H as [e E|r k r' E _]; rewrite pydiv_zero in E; [|discriminate].
      injection E as <-. auto.
    + intros [-> ->]. constructor. apply pydiv_zero.
  - intros res. split.
    + intros H. destruct H as [e E|r r' E _]; simpl length in E; rewrite pydiv_zero in E;
        [|discriminate]. injection E as <-. reflexivity.
    + intros ->. constructor. simpl length. apply pydiv_zero.
Qed.


Lemma nth_repeat_in {A : Type} (a d : A) (n k : nat) : (k < n)%nat -> nth k (repeat a n) d = a.
Proof. revert k; induction n as [|n IH]; intros [|k] Hk; simpl; try lia; auto. apply IH. lia. Qed.

Lemma map_nth_seq_comp {A B : Type} (f : A -> B) (l : list A) (d : A) :
  map (fun k => f (nth k l d)) (seq 0 (length l)) = map f l.
Proof. rewrite <- (map_nth_seq_self l d) at 2. rewrite map_map. reflexivity. Qed.

Lemma vsum_map_scale {A : Type} (c : R) (g : A -> R) (l : list A) :
  vsum (map (fun k => c * g k) l) = c * vsum (map g l).
Proof. induction l as [|a l IH]; simpl; [ring|]. rewrite IH. ring. Qed.

Lemma vadd_repeat_scale (alpha a b : R) (w : nat) :
  vadd (vscale alpha (repeat a w)) (repeat b w) = repeat (alpha * a + b) w.
Proof. induction w as [|w IH]; simpl; [reflexivity|]. f_equal. exact IH. Qed.

(** With uniform columns the uniform vector is a fixed point of the Google
    matrix, for every [alpha]. *)
Lemma vecmat_uniform_google (n : nat) (M : matrix) (alpha : R) :
  (1 <= n)%nat -> square n M -> cols_sum_one n M ->
  vecmat (repeat (1 / INR n) n) (map (map (fun m => alpha * m + (1 - alpha) * (1 / INR n))) M) =
  repeat (1 / INR n) n.
Proof.
  intros Hn [Hl Hrows] Hcols.
  assert (Hc : ncols (map (map (fun m => alpha * m + (1 - alpha) * (1 / INR n))) M) = n).
  { destruct M as [|row M]; simpl in *; [lia|]. rewrite length_map.
    inversion Hrows; assumption. }
  unfold vecmat. rewrite Hc, vecmat_w_google by (rewrite ?repeat_length; auto).
  assert (Hm : vecmat_w n (repeat (1 / INR n) n) M = repeat (1 / INR n) n).
  { apply nth_ext with (d := 0) (d' := 0).
    - rewrite length_vecmat_w, repeat_length by exact Hrows. reflexivity.
    - intros j Hj. rewrite length_vecmat_w in Hj by exact Hrows.
      rewrite nth_vecmat_w by (rewrite ?repeat_length; auto).
      rewrite nth_repeat_in by exact Hj.
      rewrite (map_ext_in _ (fun k => 1 / INR n * nth j (nth k M []) 0)).
      + rewrite vsum_map_scale, (map_nth_seq_comp (fun row => nth j row 0) M []), Hcols by exact Hj.
        ring.
      + intros k Hk. apply in_seq in Hk. rewrite nth_repeat_in by lia. reflexivity. }
  rewrite Hm, vadd_repeat_scale, vsum_uniform by exact Hn. f_equal. ring.
Qed.

(** When every column of [M] sums to [1] (with [epsilon] in [(0, 1]]), the
    loop runs exactly once and [pageRank] returns the uniform vector
    [1/n], for every [alpha]: the first step maps [1/n] to itself and leaves
    a zero residual. *)
Theorem pageRank_uniform_columns (n : nat) (M : matrix) (alpha eps : R) :
  (1 <= n)%nat -> square n M -> cols_sum_one n M -> 0 < eps <= 1 ->
  forall iters res, pageRank_run M alpha eps iters res <->
    iters = 1%nat /\ res = Ok (repeat (1 / INR n) n).
Proof.
  intros Hn HM Hcols Heps.
  pose proof HM as [Hl _].
  assert (Hrun : pageRank_run M alpha eps 1 (Ok (repeat (1 / INR n) n))).
  { econstructor.
    - apply google_ok; [lia | rewrite Hl; apply HM].
    - rewrite Hl. apply uniform_ok. exact Hn.
    - rewrite Hl. apply pr_fixed_one_step; [lra | rewrite length_map, repeat_length; lia|].
      exact (vecmat_uniform_google n M alpha Hn HM Hcols). }
  intros iters res. split.
  - intros H. destruct (pageRank_run_deterministic _ _ _ _ _ H _ _ Hrun) as [-> ->]. auto.
  - intros [-> ->]. exact Hrun.
Qed.

Lemma act_pr_loop_pr_loop (G : matrix) (eps : R) :
  forall pi residual k res kf, act_pr_loop G eps pi residual k res kf ->
  exists iters, pr_loop G eps pi residual iters res /\ kf = (k + iters)%nat.
Proof.
  induction 1 as [pi residual k Hlt|pi residual pi' r' k res kf Hle Hs _ IH|pi residual k e Hle Hs].
  - exists O. split; [apply pr_done; exact Hlt | lia].
  - destruct IH as [iters [Hl ->]]. exists (S iters). split; [eapply pr_iter; eassumption | lia].
  - exists 1%nat. split; [apply pr_raise; assumption | lia].
Qed.

Lemma pr_loop_act_pr_loop (G : matrix) (eps : R) :
  forall pi residual iters res, pr_loop G eps pi residual iters res ->
  forall k, act_pr_loop G eps pi residual k res (k + iters).
Proof.
  induction 1 as [pi residual Hlt|pi residual pi' r' iters res Hle Hs _ IH|pi residual e Hle Hs];
    intros k.
  - rewrite Nat.add_0_r. apply act_pr_done. exact Hlt.
  - eapply act_pr_iter; [exact Hle | exact Hs|].
    replace (k + S iters)%nat with (S k + iters)%nat by lia. apply IH.
  - replace (k + 1)%nat with (S k) by lia. apply act_pr_raise; assumption.
Qed.

(** The [pageRank] of [activation_ranker] computes what the one of
    [accessibility_ranker] computes, and the [k] its status message prints
    is the number of iterations of the power rule; both raise the same
    exceptions. *)
Theorem activation_pageRank_same (M : matrix) (alpha eps : R) :
  (forall pi k, act_pageRank_run M alpha eps (Ok (pi, k)) <-> pageRank_run M alpha eps k (Ok pi)) /\
  (forall e, act_pageRank_run M alpha eps (Err e) <->
             exists iters, pageRank_run M alpha eps iters (Err e)).
Proof.
  split.
  - intros pi k. split.
    + intros H. inversion H as [|G pi0 res k' E U L|]; subst.
      destruct (act_pr_loop_pr_loop _ _ _ _ _ _ _ L) as [iters [Hl ->]].
      econstructor; eassumption.
    + intros H. inversion H as [|G pi0 iters res E U L]; subst.
      econstructor; [eassumption | eassumption | apply (pr_loop_act_pr_loop _ _ _ _ _ _ L 0)].
  - intros e. split.
    + intros H. inversion H as [e' E| |G pi0 e' k E U L]; subst.
      * exists O. constructor. exact E.
      * destruct (act_pr_loop_pr_loop _ _ _ _ _ _ _ L) as [iters [Hl _]].
        exists iters. econstructor; eassumption.
    + intros [iters H]. inversion H as [e' E|G pi0 iters' res E U L]; subst.
      * constructor. exact E.
      * eapply act_pageRank_loop_raise; [exact E | exact U | exact (pr_loop_act_pr_loop _ _ _ _ _ _ L 0)].
Qed.

Lemma transpose_involutive (n : nat) (L : matrix) :
  square n L -> transpose (transpose L) = L.
Proof.
  intros HL. pose proof (transpose_square n _ HL) as HT.
  pose proof (transpose_square n _ HT) as HTT.
  destruct HL as [Hl Hrows]. destruct HTT as [Hl2 Hrows2].
  apply nth_ext with (d := []) (d' := []); [congruence|].
  intros i Hi. rewrite Hl2 in Hi.
  apply nth_ext with (d := 0) (d' := 0).
  - rewrite Forall_forall in Hrows, Hrows2.
    rewrite Hrows2, Hrows; [reflexivity | apply nth_In; lia | apply nth_In; lia].
  - intros j Hj. rewrite Forall_forall in Hrows2. rewrite Hrows2 in Hj by (apply nth_In; lia).
    rewrite (transpose_entry n (transpose L) i j HT Hi Hj).
    rewrite (transpose_entry n L j i (conj Hl Hrows) Hj Hi). reflexivity.
Qed.

Lemma presence_transpose (M : matrix) : presence (transpose M) = transpose (presence M).
Proof.
  unfold presence, transpose.
  assert (Hc : ncols (map (map bool_int) M) = ncols M).
  { destruct M; simpl; [reflexivity | apply length_map]. }
  rewrite Hc, map_map. apply map_ext. intros j. rewrite !map_map. apply map_ext. intros row.
  rewrite <- bool_int_0 at 2. rewrite map_nth. reflexivity.
Qed.

Lemma length_transpose (M : matrix) : length (transpose M) = ncols M.
Proof. unfold transpose. rewrite length_map, length_seq. reflexivity. Qed.

Lemma matmul_row_err (p : vec) (M : matrix) (e : PyError) :
  matmul_row p M = Err e -> e = ValueError.
Proof. unfold matmul_row. destruct (Nat.eq_dec _ _); congruence. Qed.

Lemma np_subtract_err (u v : vec) (e : PyError) : np_subtract u v = Err e -> e = ValueError.
Proof.
  unfold np_subtract. destruct (Nat.eq_dec _ _); [congruence|].
  destruct u as [|a [|b u]]; destruct v as [|c [|d v]]; simpl; congruence.
Qed.

(** Exchanging the roles of [x] and [y] in the loop body: the same checks
    run in another order, and every failing one raises [ValueError]. *)
Lemma hits_step_swap (A H : matrix) (xi E : R) (x y : vec) :
  hits_step H A xi E y x =
  match hits_step A H xi E x y with
  | Ok (x', y', r) => Ok (y', x', r)
  | Err e => Err e
  end.
Proof.
  unfold hits_step.
  destruct (matmul_row x A) as [ax|e1] eqn:E1; destruct (matmul_row y H) as [hy|e2] eqn:E2; simpl;
    try (apply matmul_row_err in E1); try (apply matmul_row_err in E2); subst; try reflexivity.
  destruct (np_subtract x _) as [dx|e3] eqn:E3; destruct (np_subtract y _) as [dy|e4] eqn:E4; simpl;
    try (apply np_subtract_err in E3); try (apply np_subtract_err in E4); subst; try reflexivity.
  rewrite Rplus_comm. reflexivity.
Qed.

Lemma hits_loop_swap (A H : matrix) (xi E eps : R) :
  forall x y residual iters res, hits_loop A H xi E eps x y residual iters res ->
  hits_loop H A xi E eps y x residual iters
    (match res with Ok (a, b) => Ok (b, a) | Err e => Err e end).
Proof.
  induction 1 as [x y r Hlt|x y r x' y' r' k res Hle Hs _ IH|x y r e Hle Hs].
  - apply hits_done. exact Hlt.
  - eapply hits_iter; [exact Hle | rewrite hits_step_swap, Hs; reflexivity | exact IH].
  - apply hits_fail; [exact Hle | rewrite hits_step_swap, Hs; reflexivity].
Qed.

(** HITS on the transposed matrix (every link reversed) returns the same two
    vectors with their roles exchanged: the authorities of [M^T] are the hubs
    of [M] and the other way round. *)
Theorem hits_transpose_swaps (n : nat) (M : matrix) (xi eps : R) (iters : nat) (x y : vec) :
  square n M ->
  hypertextInducedTopicSearch (transpose M) xi eps iters (Ok (x, y)) <->
  hypertextInducedTopicSearch M xi eps iters (Ok (y, x)).
Proof.
  intros HM. pose proof (presence_square n M HM) as HL.
  unfold hypertextInducedTopicSearch.
  rewrite length_transpose, (ncols_square n M HM), presence_transpose.
  pose proof HM as [Hl _]. rewrite Hl.
  assert (Ha : authMatrix (transpose (presence M)) = hubMatrix (presence M)).
  { unfold authMatrix, hubMatrix. rewrite (transpose_involutive n _ HL). reflexivity. }
  assert (Hh : hubMatrix (transpose (presence M)) = authMatrix (presence M)).
  { unfold authMatrix, hubMatrix. rewrite (transpose_involutive n _ HL). reflexivity. }
  split.
  - intros Hr. inversion Hr as [|r k res E Hloop]; subst.
    rewrite Ha, Hh in Hloop. econstructor; [exact E|].
    exact (hits_loop_swap _ _ _ _ _ _ _ _ _ _ Hloop).
  - intros Hr. inversion Hr as [|r k res E Hloop]; subst.
    econstructor; [exact E|]. rewrite Ha, Hh.
    exact (hits_loop_swap _ _ _ _ _ _ _ _ _ _ Hloop).
Qed.

Lemma vecmat_w_zero_rows (w : nat) (x : vec) (A : matrix) :
  Forall (fun row => row = repeat 0 w) A -> vecmat_w w x A = repeat 0 w.
Proof.
  intros HA. revert x. induction HA as [|row A Hrow HA IH]; intros [|p x]; simpl; auto.
  rewrite IH, Hrow, vadd_repeat_scale. f_equal. ring.
Qed.

Lemma presence_zero_rows (n : nat) (M : matrix) :
  square n M -> Forall (Forall (fun m => m = 0)) M ->
  Forall (fun row => row = repeat 0 n) (presence M).
Proof.
  intros [_ Hrows] Hz. unfold presence. apply Forall_map.
  rewrite Forall_forall in *. intros row Hin. rewrite <- (Hrows row Hin).
  specialize (Hz row Hin). clear Hin. induction Hz as [|m row Hm _ IH]; [reflexivity|].
  simpl. subst m. rewrite bool_int_0, IH. reflexivity.
Qed.

Lemma authMatrix_zero_rows (n : nat) (L : matrix) :
  square n L -> Forall (fun row => row = repeat 0 n) L ->
  Forall (fun row => row = repeat 0 n) (authMatrix L) /\
  Forall (fun row => row = repeat 0 n) (hubMatrix L).
Proof.
  intros HL Hz. pose proof (ncols_square n L HL) as Hc.
  pose proof (transpose_square n L HL) as HT.
  assert (HTz : Forall (fun row => row = repeat 0 n) (transpose L)).
  { destruct HL as [Hl _]. unfold transpose. rewrite Hc. apply Forall_map, Forall_forall.
    intros j Hj. apply in_seq in Hj. rewrite <- Hl.
    clear Hl Hc HT. induction Hz as [|row L Hrow Hz IH]; [reflexivity|].
    simpl. rewrite IH, Hrow, nth_repeat. reflexivity. }
  unfold authMatrix, hubMatrix, matmul, vecmat. split; apply Forall_map, Forall_forall;
    intros row _.
  - rewrite Hc. apply vecmat_w_zero_rows. exact Hz.
  - rewrite (ncols_square n _ HT). apply vecmat_w_zero_rows. exact HTz.
Qed.

Lemma hits_update_zero (n : nat) (A : matrix) (xi E : R) (x : vec) :
  (1 <= n)%nat -> 0 < E -> square n A -> Forall (fun row => row = repeat 0 n) A ->
  hits_update xi E A x = repeat (1 / sqrt (INR n)) n.
Proof.
  intros Hn HE HA Hz. unfold hits_update, vecmat.
  rewrite (ncols_square n A HA), vecmat_w_zero_rows by exact Hz.
  rewrite map_repeat. replace (xi * 0 + E) with E by ring.
  apply normalize_repeat; assumption.
Qed.

(** On a graph without links (an [n x n] matrix of zeros, [n >= 1]),
    [0 < xi < 1] and [0 < epsilon <= 1], HITS gives every node the same
    authority and hub score [1/sqrt n]: the first update already reaches
    this pair, and at most one more iteration confirms it. *)
Theorem hits_no_links (n : nat) (M : matrix) (xi eps : R) :
  (1 <= n)%nat -> square n M -> Forall (Forall (fun m => m = 0)) M ->
  0 < xi < 1 -> 0 < eps <= 1 ->
  (exists iters, hypertextInducedTopicSearch M xi eps iters
                   (Ok (repeat (1 / sqrt (INR n)) n, repeat (1 / sqrt (INR n)) n))) /\
  (forall iters res, hypertextInducedTopicSearch M xi eps iters res ->
     (iters = 1 \/ iters = 2)%nat /\
     res = Ok (repeat (1 / sqrt (INR n)) n, repeat (1 / sqrt (INR n)) n)).
Proof.
  intros Hn HM Hz Hxi Heps.
  pose proof (presence_square n M HM) as HL.
  destruct (authMatrix_zero_rows n _ HL (presence_zero_rows n M HM Hz)) as [HAz HHz].
  pose proof (authMatrix_square n _ HL) as HA. pose proof (hubMatrix_square n _ HL) as HH.
  set (E := (1 - xi) * (1 / INR n)).
  assert (HE : 0 < E).
  { unfold E. apply Rmult_lt_0_compat; [lra|]. apply Rdiv_lt_0_compat; [lra|]. apply lt_0_INR. lia. }
  set (c := repeat (1 / sqrt (INR n)) n).
  assert (Hua : forall x, hits_update xi E (authMatrix (presence M)) x = c).
  { intros x. apply hits_update_zero; assumption. }
  assert (Huh : forall y, hits_update xi E (hubMatrix (presence M)) y = c).
  { intros y. apply hits_update_zero; assumption. }
  pose proof HM as [Hl _].
  assert (Hc : length c = n) by apply repeat_length.
  assert (Hu : length (repeat (1 / INR n) n) = n) by apply repeat_length.
  assert (Hst : forall x y, length x = n -> length y = n ->
            hits_step (authMatrix (presence M)) (hubMatrix (presence M)) xi E x y =
            Ok (c, c, norm (vsub x c) + norm (vsub y c))).
  { intros x y Hx Hy. rewrite (hits_step_sq n _ _ _ _ x y HA HH Hx Hy), Hua, Huh. reflexivity. }
  unfold hypertextInducedTopicSearch. rewrite Hl. split.
  - set (u := repeat (1 / INR n) n) in *.
    destruct (Rlt_le_dec (norm (vsub u c) + norm (vsub u c)) eps) as [Hlt|Hge].
    + exists 1%nat. econstructor; [apply pydiv_INR; exact Hn|]. fold E u.
      eapply hits_iter; [lra | apply Hst; assumption |]. apply hits_done. exact Hlt.
    + exists 2%nat. econstructor; [apply pydiv_INR; exact Hn|]. fold E u.
      eapply hits_iter; [lra | apply Hst; assumption |].
      eapply hits_iter; [exact Hge | apply Hst; assumption |].
      rewrite norm_vsub_self. apply hits_done. lra.
  - intros iters res Hr. inversion Hr as [e E'|r k res' E' Hloop]; subst.
    + rewrite pydiv_INR in E' by exact Hn. discriminate.
    + rewrite pydiv_INR in E' by exact Hn. injection E' as <-. fold E in Hloop.
      inversion Hloop as [? ? ? Hlt|? ? ? x1 y1 r1 k1 ? Hle1 Hs1 Hloop1|? ? ? e1 Hle1 Hs1];
        subst; [lra| |rewrite Hst in Hs1 by assumption; discriminate].
      rewrite Hst in Hs1 by assumption. injection Hs1 as <- <- <-.
      inversion Hloop1 as [? ? ? Hlt|? ? ? x2 y2 r2 k2 ? Hle2 Hs2 Hloop2|? ? ? e2 Hle2 Hs2];
        subst; [auto| |rewrite Hst in Hs2 by assumption; discriminate].
      rewrite Hst in Hs2 by assumption. injection Hs2 as <- <- <-.
      rewrite norm_vsub_self in Hloop2.
      inversion Hloop2; subst; [auto | lra | lra].
Qed.

(** ** The engines on unvalidated input *)

Lemma square_map_map (n : nat) (f : R -> R) (M : matrix) :
  square n M -> square n (map (map f) M).
Proof.
  intros [Hl Hr]. split; [rewrite length_map; exact Hl|].
  rewrite Forall_map. eapply Forall_impl; [|exact Hr]. intros row <-. apply length_map.
Qed.

(** On a square [n x n] matrix, [n >= 1], no run of [pageRank] raises. *)
Lemma pageRank_no_error (n : nat) (M : matrix) (alpha eps : R) (iters : nat) (e : PyError) :
  (1 <= n)%nat -> square n M -> ~ pageRank_run M alpha eps iters (Err e).
Proof.
  intros Hn HM H. pose proof HM as [Hl Hr].
  assert (HG : google M alpha =
                 Ok (map (map (fun m => alpha * m + (1 - alpha) * (1 / INR (length M)))) M)).
  { apply google_ok; rewrite Hl; assumption. }
  pose proof (square_map_map n (fun m => alpha * m + (1 - alpha) * (1 / INR (length M))) M HM) as HsG.
  inversion H as [e' E|G pi0 k r E U L]; rewrite HG in E; [discriminate|].
  injection E as <-. rewrite Hl, uniform_ok in U by exact Hn. injection U as <-.
  destruct (pr_loop_inv n _ eps (fun p => length p = n) HsG (fun p Hp => Hp)
              (fun p _ => length_vecmat_sq n p _ HsG) _ _ _ _ L (repeat_length _ _)) as [r' [Er _]].
  discriminate.
Qed.

(** On a square [n x n] matrix, [n >= 1], no run of HITS raises. *)
Lemma hits_no_error (n : nat) (M : matrix) (xi eps : R) (iters : nat) (e : PyError) :
  (1 <= n)%nat -> square n M -> ~ hypertextInducedTopicSearch M xi eps iters (Err e).
Proof.
  intros Hn HM H. pose proof (presence_square n M HM) as HL. pose proof HM as [Hl _].
  pose proof (authMatrix_square n _ HL) as HA. pose proof (hubMatrix_square n _ HL) as HH.
  unfold hypertextInducedTopicSearch in H. rewrite Hl in H.
  inversion H as [e' E|r k res E Hloop]; [rewrite pydiv_INR in E by exact Hn; discriminate|].
  destruct (hits_loop_last n _ _ xi ((1 - xi) * r) eps (fun v => length v = n) HA HH
              (fun x Hx => Hx) (fun x _ => length_hits_update n _ xi _ x HA)
              (fun y _ => length_hits_update n _ xi _ y HH) _ _ _ _ _ Hloop
              (repeat_length _ _) (repeat_length _ _))
    as [[_ [Er _]]|[px [py [_ [_ [_ [Er _]]]]]]]; discriminate.
Qed.

Lemma np_subtract_mismatch (u v : vec) :
  length u <> length v -> (2 <= length u)%nat -> (2 <= length v)%nat ->
  np_subtract u v = Err ValueError.
Proof.
  intros H Hu Hv. unfold np_subtract. destruct (Nat.eq_dec _ _); [contradiction|].
  destruct u as [|a [|b u]]; simpl in Hu; try lia.
  destruct v as [|c [|d v]]; simpl in Hv; try lia. reflexivity.
Qed.

Lemma length_vecmat_rect (m : nat) (p : vec) (G : matrix) :
  (1 <= length G)%nat -> Forall (fun row => length row = m) G -> length (vecmat p G) = m.
Proof.
  intros Hn Hr. unfold vecmat.
  replace (ncols G) with m; [apply length_vecmat_w; exact Hr|].
  destruct G as [|row G]; simpl in Hn; [lia|]. simpl. symmetry. exact (Forall_inv Hr).
Qed.

(** [n] rows of [m < n] entries: the Google loop reads [matrix[i][m]] and
    raises [IndexError] before any iteration. *)
Lemma pageRank_tall (n m : nat) (M : matrix) (alpha eps : R) :
  (m < n)%nat -> length M = n -> Forall (fun row => length row = m) M ->
  forall iters res, pageRank_run M alpha eps iters res <-> iters = 0%nat /\ res = Err IndexError.
Proof.
  intros Hmn Hl Hr.
  assert (HG : google M alpha = Err IndexError).
  { apply google_short; [lia|]. destruct M as [|row M']; simpl in Hl; [lia|].
    exists row. split; [left; reflexivity|]. rewrite (Forall_inv Hr). simpl. lia. }
  intros iters res. split.
  - intros H. destruct H as [e E|G pi0 k r E U L]; rewrite HG in E; [|discriminate].
    injection E as <-. auto.
  - intros [-> ->]. constructor. exact HG.
Qed.

(** [n >= 2] rows of [m > n] entries: the Google loop succeeds, [np.matmul]
    of the [(1, n)] start vector with the [n x m] matrix gives a [(1, m)]
    row, and [np.subtract] of the two raises [ValueError] in the first
    iteration. *)
Lemma pageRank_wide (n m : nat) (M : matrix) (alpha eps : R) :
  (2 <= n < m)%nat -> length M = n -> Forall (fun row => length row = m) M -> eps <= 1 ->
  forall iters res, pageRank_run M alpha eps iters res <-> iters = 1%nat /\ res = Err ValueError.
Proof.
  intros Hnm Hl Hr Heps.
  set (G := map (fun row => map (fun x => alpha * x + (1 - alpha) * (1 / INR n)) (firstn n row)
                             ++ skipn n row) M).
  assert (HG : google M alpha = Ok G).
  { unfold google, ERatio. rewrite Hl, pydiv_INR by lia. simpl. apply google_rows_ok.
    eapply Forall_impl; [|exact Hr]. intros row ->. lia. }
  assert (HGl : length G = n) by (unfold G; rewrite length_map; exact Hl).
  assert (HGr : Forall (fun row => length row = m) G).
  { unfold G. rewrite Forall_map. eapply Forall_impl; [|exact Hr]. intros row Hrow.
    rewrite length_app, length_map, length_firstn, length_skipn, Hrow, Nat.min_l by lia. lia. }
  assert (HS : pr_step G (repeat (1 / INR n) n) = Err ValueError).
  { unfold pr_step. rewrite matmul_row_ok by (rewrite repeat_length; lia). simpl.
    rewrite np_subtract_mismatch; [reflexivity | | |];
      rewrite ?repeat_length, ?(length_vecmat_rect m _ G) by (lia || exact HGr); lia. }
  intros iters res. split.
  - intros H. destruct H as [e E|G' pi0 k r E U L]; rewrite HG in E; [discriminate|].
    injection E as <-. rewrite Hl, uniform_ok in U by lia. injection U as <-.
    inversion L as [? ? Hlt|? ? ? ? ? ? _ Hs _|? ? e' _ Hs].
    + lra.
    + rewrite HS in Hs. discriminate.
    + rewrite HS in Hs. injection Hs as <-. auto.
  - intros [-> ->]. eapply pageRank_return; [exact HG | rewrite Hl; apply uniform_ok; lia |].
    apply pr_raise; [lra | exact HS].
Qed.

(** [n >= 1] rows of [m <> n] entries: the authority matrix [L^T @ L] is
    [m x m], and [np.matmul] of the [(1, n)] start vector with it raises
    [ValueError] in the first iteration. *)
Lemma hits_rect_mismatch (n m : nat) (M : matrix) (xi eps : R) :
  (1 <= n)%nat -> n <> m -> length M = n -> Forall (fun row => length row = m) M -> eps <= 1 ->
  forall iters res, hypertextInducedTopicSearch M xi eps iters res <->
                    iters = 1%nat /\ res = Err ValueError.
Proof.
  intros Hn Hnm Hl Hr Heps.
  assert (HA : length (authMatrix (presence M)) = m).
  { unfold authMatrix, matmul. rewrite length_map, length_transpose.
    unfold presence. destruct M as [|row M']; simpl in Hl; [lia|]. simpl.
    rewrite length_map. exact (Forall_inv Hr). }
  assert (HS : forall r, hits_step (authMatrix (presence M)) (hubMatrix (presence M)) xi
                           ((1 - xi) * r) (repeat r n) (repeat r n) = Err ValueError).
  { intros r. unfold hits_step.
    rewrite matmul_row_mismatch by (rewrite repeat_length, HA; exact Hnm). reflexivity. }
  unfold hypertextInducedTopicSearch. rewrite Hl. intros iters res. split.
  - intros H. destruct H as [e E|r k res' E L]; [rewrite pydiv_INR in E by exact Hn; discriminate|].
    inversion L as [? ? ? Hlt|? ? ? ? ? ? ? ? _ Hs _|? ? ? e _ Hs].
    + lra.
    + rewrite HS in Hs. discriminate.
    + rewrite HS in Hs. injection Hs as <-. auto.
  - intros [-> ->]. eapply hits_return; [apply pydiv_INR; exact Hn|].
    apply hits_fail; [lra | apply HS].
Qed.

(** C8 (amended): [pageRank] and [hypertextInducedTopicSearch] validate
    nothing and raise no [InvalidShapeError]. On every square [n x n] matrix
    with [n >= 1], whatever the signs and row sums of its entries, neither
    call raises; the matrices [[-1, 2], [2, -1]] and [[1, 1], [0, 0]] are
    ranked [[0.5; 0.5]] after one iteration. On [n] rows of [m] entries
    ([m <> n]) only Python and numpy raise: [pageRank] raises [IndexError]
    in the Google loop, before iterating, when [m < n], and [ValueError] at
    [np.subtract] in its first iteration when [2 <= n < m] and
    [epsilon <= 1]; HITS raises [ValueError] at [np.matmul] in its first
    iteration when [n >= 1] and [epsilon <= 1]. *)
Theorem ranking_engines_no_validation :
  (forall (n : nat) (M : matrix) (alpha eps : R) (iters : nat) (e : PyError),
      (1 <= n)%nat -> square n M -> ~ pageRank_run M alpha eps iters (Err e)) /\
  (forall (n : nat) (M : matrix) (xi eps : R) (iters : nat) (e : PyError),
      (1 <= n)%nat -> square n M -> ~ hypertextInducedTopicSearch M xi eps iters (Err e)) /\
  pageRank_run negative2 0.85 1e-8 1 (Ok [0.5; 0.5]) /\
  pageRank_run unbalanced2 0.85 1e-8 1 (Ok [0.5; 0.5]) /\
  (forall (n m : nat) (M : matrix) (alpha eps : R) (iters : nat) (res : Exc vec),
      (m < n)%nat -> length M = n -> Forall (fun row => length row = m) M ->
      pageRank_run M alpha eps iters res <-> iters = 0%nat /\ res = Err IndexError) /\
  (forall (n m : nat) (M : matrix) (alpha eps : R) (iters : nat) (res : Exc vec),
      (2 <= n < m)%nat -> length M = n -> Forall (fun row => length row = m) M -> eps <= 1 ->
      pageRank_run M alpha eps iters res <-> iters = 1%nat /\ res = Err ValueError) /\
  (forall (n m : nat) (M : matrix) (xi eps : R) (iters : nat) (res : Exc (vec * vec)),
      (1 <= n)%nat -> n <> m -> length M = n -> Forall (fun row => length row = m) M -> eps <= 1 ->
      hypertextInducedTopicSearch M xi eps iters res <-> iters = 1%nat /\ res = Err ValueError).
Proof.
  split; [exact pageRank_no_error|]. split; [exact hits_no_error|].
  split; [exact negative2_run|]. split; [exact unbalanced2_run|].
  split; [intros n m M alpha eps iters res H1 H2 H3; exact (pageRank_tall n m M alpha eps H1 H2 H3 iters res)|].
  split.
  - intros n m M alpha eps iters res H1 H2 H3 H4; exact (pageRank_wide n m M alpha eps H1 H2 H3 H4 iters res).
  - intros n m M xi eps iters res H1 H2 H3 H4 H5; exact (hits_rect_mismatch n m M xi eps H1 H2 H3 H4 H5 iters res).
Qed.

(** C8 (counterexample): [negative2] has a negative entry, yet [pageRank]
    iterates on it and returns [[0.5; 0.5]], and no run of it raises. *)
Lemma pageRank_accepts_negative_entries :
  ~ nonneg_matrix negative2 /\ pageRank_run negative2 0.85 1e-8 1 (Ok [0.5; 0.5]) /\
  ~ (exists iters e, pageRank_run negative2 0.85 1e-8 iters (Err e)).
Proof.
  split; [|split].
  - unfold nonneg_matrix, negative2. intros H.
    inversion H as [|? ? H1 _]. inversion H1. lra.
  - exact negative2_run.
  - intros [iters [e H]].
    refine (pageRank_no_error 2 negative2 0.85 1e-8 iters e ltac:(lia) _ H).
    split; [reflexivity|]. unfold negative2. forall_each; reflexivity.
Qed.

(** ** The HITS draft of [activation_ranker] *)

Lemma square_scale (n : nat) (c : R) (A : matrix) :
  square n A -> square n (map (map (Rmult c)) A).
Proof.
  intros [Hl Hrows]. split; [rewrite length_map; exact Hl|].
  apply Forall_map. eapply Forall_impl; [|exact Hrows]. intros row H. rewrite length_map. exact H.
Qed.

Lemma activation_L_square (n : nat) (M : matrix) : square n M -> square n (activation_L M).
Proof.
  intros HM. unfold activation_L. destruct HM as [Hl Hrows]. split; [rewrite length_map; exact Hl|].
  apply Forall_map. eapply Forall_impl; [|exact Hrows]. intros row H. rewrite length_map. exact H.
Qed.

(** The draft multiplies the [(n, n)] matrix [authMatrix] by the [(1, n)]
    array [x] ([np.matmul(authMatrix, x)] instead of
    [np.matmul(x, authMatrix)]): for every square input with [n >= 2] and
    every [epsilon <= 1] the first iteration raises [ValueError]. *)
Theorem draft_hits_value_error (n : nat) (M : matrix) (xi eps : R) (res : Result (vec * vec)) :
  (2 <= n)%nat -> square n M -> eps <= 1 ->
  draft_hits_run M xi eps res <-> res = Raise ValueError.
Proof.
  intros Hn HM Heps. pose proof HM as [Hl _].
  pose proof (square_scale n xi _ (authMatrix_square n _ (activation_L_square n M HM))) as HA.
  assert (Hmm : forall y, np_matmul (map (map (Rmult xi)) (authMatrix (activation_L M))) [y] =
                          Raise ValueError).
  { intros y. unfold np_matmul. rewrite (ncols_square n _ HA).
    destruct (Nat.eq_dec n (length [y])) as [E|]; [simpl in E; lia | reflexivity]. }
  split.
  - intros H. destruct H as [e E|r res E Hloop].
    + rewrite Hl, pydiv_INR in E by lia. discriminate.
    + inversion Hloop as [? ? ? Hlt|? ? ? e Hle Hx|? ? ? ax e Hle Hx _|? ? ? ax hy ? Hle Hx _ _];
        subst; try lra.
      * rewrite Hmm in Hx. injection Hx as <-. reflexivity.
      * rewrite Hmm in Hx. discriminate.
      * rewrite Hmm in Hx. discriminate.
  - intros ->. eapply draft_hits_return; [rewrite Hl; apply pydiv_INR; lia|].
    apply draft_raise_x; [lra|]. apply Hmm.
Qed.

(** * The matrix builders of [matrix_loader] *)

(** ** Lists, indices and [setitem] *)

Lemma length_list_set {A : Type} (l : list A) (k : nat) (v : A) :
  length (list_set l k v) = length l.
Proof. revert k; induction l as [|a l IH]; intros [|k]; simpl; auto. Qed.

Lemma nth_list_set_eq {A : Type} (l : list A) (k : nat) (v d : A) :
  (k < length l)%nat -> nth k (list_set l k v) d = v.
Proof. revert k; induction l as [|a l IH]; intros [|k] Hk; simpl in *; try lia; auto. apply IH. lia. Qed.

Lemma nth_list_set_neq {A : Type} (l : list A) (k k' : nat) (v d : A) :
  k <> k' -> nth k' (list_set l k v) d = nth k' l d.
Proof.
  revert k k'; induction l as [|a l IH]; intros [|k] [|k'] Hk; simpl; try reflexivity.
  - congruence.
  - apply IH. congruence.
Qed.

Lemma list_set_map {A B : Type} (f : A -> B) (l : list A) (k : nat) (v : A) :
  map f (list_set l k v) = list_set (map f l) k (f v).
Proof. revert k; induction l as [|a l IH]; intros [|k]; simpl; f_equal; auto. Qed.

Lemma Forall_list_set {A : Type} (P : A -> Prop) (l : list A) (k : nat) (v : A) :
  Forall P l -> P v -> Forall P (list_set l k v).
Proof.
  intros Hl Hv. revert k; induction Hl as [|a l Ha Hl IH]; intros [|k]; simpl; constructor; auto.
Qed.

Lemma py_index_spec (l : list string) (x : string) (k : nat) :
  py_index l x = Val k -> (k < length l)%nat /\ nth k l EmptyString = x.
Proof.
  revert k; induction l as [|y l IH]; intros k H; simpl in H; [discriminate|].
  destruct (String.eqb_spec y x) as [->|Hne].
  - injection H as <-. simpl. split; [lia | reflexivity].
  - destruct (py_index l x) as [k'|e] eqn:E; simpl in H; [|discriminate].
    injection H as <-. destruct (IH k' eq_refl). simpl. split; [lia | assumption].
Qed.

Lemma dict_get_raise (d : assoc_dict) (key : string) (e : PyError) :
  dict_get d key = Raise e -> e = KeyError.
Proof.
  induction d as [|[k v] d IH]; simpl; [intros H; injection H as <-; reflexivity|].
  destruct (String.eqb k key); [discriminate | exact IH].
Qed.

Lemma py_index_raise (l : list string) (x : string) (e : PyError) :
  py_index l x = Raise e -> e = ValueError.
Proof.
  induction l as [|y l IH]; simpl; [intros H; injection H as <-; reflexivity|].
  destruct (String.eqb y x); [discriminate|].
  destruct (py_index l x); simpl; [discriminate | exact IH].
Qed.

Lemma py_index_in (l : list string) (x : string) :
  (exists k, py_index l x = Val k) <-> In x l.
Proof.
  induction l as [|y l IH]; simpl.
  - split; [intros [k H]; discriminate | contradiction].
  - destruct (String.eqb_spec y x) as [->|Hne].
    + split; [auto | eauto].
    + rewrite <- IH. split.
      * intros [k H]. right. destruct (py_index l x); simpl in H; [eauto | discriminate].
      * intros [E|[k Hk]]; [contradiction|]. rewrite Hk. simpl. eauto.
Qed.

Lemma setitem_square (N : nat) (M : matrix) (i c : nat) (v : R) :
  square N M -> (i < N)%nat -> (c < N)%nat ->
  exists M', setitem M i c v = Val M' /\ square N M' /\
    M' = list_set M i (list_set (nth i M []) c v).
Proof.
  intros [Hl Hrows] Hi Hc.
  assert (Hr : length (nth i M []) = N).
  { rewrite Forall_forall in Hrows. apply Hrows, nth_In. lia. }
  unfold setitem. rewrite Hl, Hr. destruct (Nat.ltb_spec i N); [|lia].
  destruct (Nat.ltb_spec c N); [|lia].
  eexists. split; [reflexivity|]. split; [|reflexivity]. split.
  - rewrite length_list_set. exact Hl.
  - apply Forall_list_set; [exact Hrows|]. rewrite length_list_set. exact Hr.
Qed.

Lemma setitem_keeps_square (N : nat) (M M' : matrix) (i c : nat) (v : R) :
  square N M -> setitem M i c v = Val M' -> square N M'.
Proof.
  intros [Hl Hrows]. unfold setitem.
  destruct (Nat.ltb_spec i (length M)) as [Hi|]; [|discriminate].
  destruct (Nat.ltb c (length (nth i M []))); [|discriminate]. intros H. injection H as <-.
  assert (Hr : length (nth i M []) = N).
  { rewrite Forall_forall in Hrows. apply Hrows, nth_In. lia. }
  split.
  - rewrite length_list_set. exact Hl.
  - apply Forall_list_set; [exact Hrows|]. rewrite length_list_set. exact Hr.
Qed.

Lemma setitem_shape (N : nat) (M M' : matrix) (i c : nat) (v : R) :
  setitem M i c v = Val M' -> M' = list_set M i (list_set (nth i M []) c v).
Proof.
  unfold setitem. destruct (Nat.ltb i (length M)); [|discriminate].
  destruct (Nat.ltb c (length (nth i M []))); [|discriminate]. intros H. injection H as <-. reflexivity.
Qed.

(** ** The two loops *)

Lemma setitem_val_square (N : nat) (M M' : matrix) (i c : nat) (v : R) :
  square N M -> (i < N)%nat -> (c < N)%nat -> setitem M i c v = Val M' ->
  square N M' /\ M' = list_set M i (list_set (nth i M []) c v).
Proof.
  intros HM Hi Hc E. destruct (setitem_square N M i c v HM Hi Hc) as [M1 [E1 [H1 H2]]].
  rewrite E1 in E. injection E as <-. auto.
Qed.

Lemma dict_get_in (d : assoc_dict) (key : string) (ts : list target) :
  dict_get d key = Val ts -> In (key, ts) d.
Proof.
  induction d as [|[k v] d IH]; simpl; [discriminate|].
  destruct (String.eqb_spec k key) as [->|_]; [intros H; injection H as ->; auto | auto].
Qed.

Lemma length_row_after cell ts r : length (row_after cell ts r) = length r.
Proof.
  unfold row_after. revert r; induction ts as [|t ts IH]; intros r; simpl; [reflexivity|].
  rewrite IH. destruct (cell t) as [[[c v]|]|e]; auto using length_list_set.
Qed.

Lemma vsum_indicator (f : nat -> bool) (l : list nat) :
  vsum (map (fun j => if f j then 1 else 0) l) = INR (length (filter f l)).
Proof.
  unfold vsum in *. induction l as [|j l IH]; [reflexivity|].
  cbn [map filter fold_right]. rewrite IH.
  destruct (f j); cbn [length]; [rewrite S_INR|]; lra.
Qed.

Lemma map_scale_zeros (c : R) (N : nat) : map (map (Rmult c)) (zeros N) = zeros N.
Proof.
  unfold zeros. rewrite map_repeat. f_equal. rewrite map_repeat. f_equal. ring.
Qed.

Lemma zeros_square (N : nat) : square N (zeros N).
Proof.
  unfold zeros. split; [apply repeat_length|].
  apply Forall_forall. intros r Hr. apply repeat_spec in Hr. subst r. apply repeat_length.
Qed.

Lemma setitem_scale (k : R) (M : matrix) (i c : nat) (v : R) :
  setitem (map (map (Rmult k)) M) i c (k * v) =
    match setitem M i c v with Val M' => Val (map (map (Rmult k)) M') | Raise e => Raise e end.
Proof.
  unfold setitem. rewrite length_map.
  destruct (Nat.ltb_spec i (length M)) as [Hi|Hi]; [|reflexivity].
  rewrite (nth_map_lt (map (Rmult k)) M i [] []) by exact Hi. rewrite length_map.
  destruct (Nat.ltb (c) (length (nth i M []))); [|reflexivity].
  rewrite list_set_map, list_set_map. reflexivity.
Qed.

Lemma row_after_cons cell t ts r :
  row_after cell (t :: ts) r =
    row_after cell ts (match cell t with Val (Some (c, v)) => list_set r c v | _ => r end).
Proof. reflexivity. Qed.

Lemma written_to_cons cell t ts j :
  written_to cell (t :: ts) j =
    (match cell t with Val (Some (c, _)) => Nat.eqb c j | _ => false end || written_to cell ts j)%bool.
Proof. reflexivity. Qed.

(** ** The two loops *)

Section Fill.
Variable cell : target -> Result (option (nat * R)).

Lemma fill_targets_inv (P : matrix -> Prop) (Q : target -> Prop) (i : nat) :
  (forall M t c v M', Q t -> P M -> cell t = Val (Some (c, v)) -> setitem M i c v = Val M' -> P M') ->
  forall ts M M', Forall Q ts -> fill_targets cell i M ts = Val M' -> P M -> P M'.
Proof.
  intros Hstep ts. induction ts as [|t ts IH]; intros M M' HQ H HP; simpl in H.
  - injection H as <-. exact HP.
  - apply Forall_cons_iff in HQ as [Qt HQ].
    destruct (cell t) as [[[c v]|]|e] eqn:Et; simpl in H; [|eauto|discriminate].
    destruct (setitem M i c v) as [M1|e] eqn:Es; simpl in H; [|discriminate].
    eapply IH; [exact HQ|exact H|]. eapply Hstep; eauto.
Qed.

Lemma fill_rows_inv (P : matrix -> Prop) (dict : assoc_dict) :
  forall cues i0 M M', fill_rows cell dict i0 cues M = Val M' ->
  (forall i M t c v M', (i0 <= i < i0 + length cues)%nat ->
     (exists cue ts, dict_get dict cue = Val ts /\ In t ts) -> P M ->
     cell t = Val (Some (c, v)) -> setitem M i c v = Val M' -> P M') ->
  P M -> P M'.
Proof.
  induction cues as [|cue cues IH]; intros i0 M M' H Hstep HP; simpl in H.
  - injection H as <-. exact HP.
  - destruct (dict_get dict cue) as [ts|e] eqn:Ed; simpl in H; [|discriminate].
    destruct (fill_targets cell i0 M ts) as [M1|e] eqn:Ef; simpl in H; [|discriminate].
    eapply IH; [exact H| |].
    + intros i M2 t c v M3 Hi. apply Hstep. simpl. lia.
    + eapply (fill_targets_inv P (fun t => In t ts) i0); [| |exact Ef|exact HP].
      * intros M2 t c v M3 Ht. apply Hstep; [simpl; lia|]. exists cue, ts. auto.
      * apply Forall_forall. auto.
Qed.

Variable N : nat.
Hypothesis cell_col : forall t c v, cell t = Val (Some (c, v)) -> (c < N)%nat.

Lemma fill_targets_square (i : nat) (ts : list target) (M M' : matrix) :
  (i < N)%nat -> square N M -> fill_targets cell i M ts = Val M' -> square N M'.
Proof.
  intros Hi HM E. eapply (fill_targets_inv (square N) (fun _ => True) i); [| |exact E|exact HM].
  - intros M1 t c v M2 _ H1 Hc Hs. apply (setitem_val_square N M1 M2 i c v); eauto.
  - apply Forall_forall. auto.
Qed.

Lemma fill_rows_square (dict : assoc_dict) (cues : list string) (i0 : nat) (M M' : matrix) :
  (i0 + length cues <= N)%nat -> square N M -> fill_rows cell dict i0 cues M = Val M' -> square N M'.
Proof.
  intros Hi HM E. eapply (fill_rows_inv (square N)); [exact E| |exact HM].
  intros i M1 t c v M2 Hr _ H1 Hc Hs. apply (setitem_val_square N M1 M2 i c v); eauto. lia.
Qed.

Lemma fill_targets_val (i : nat) :
  (i < N)%nat -> forall ts M, square N M ->
  (exists M', fill_targets cell i M ts = Val M') <-> Forall (fun t => exists o, cell t = Val o) ts.
Proof.
  intros Hi ts. induction ts as [|t ts IH]; intros M HM; simpl.
  - split; [constructor | eauto].
  - rewrite Forall_cons_iff. destruct (cell t) as [[[c v]|]|e] eqn:Et; simpl.
    + destruct (setitem_square N M i c v HM Hi (cell_col _ _ _ Et)) as [M1 [E [H1 _]]].
      rewrite E. simpl. rewrite (IH M1 H1). split; [eauto | tauto].
    + rewrite (IH M HM). split; [eauto | tauto].
    + split; [intros [M' H]; discriminate | intros [[o Ho] _]; discriminate].
Qed.

Lemma fill_rows_val (dict : assoc_dict) :
  forall cues i M, (i + length cues <= N)%nat -> square N M ->
  (exists M', fill_rows cell dict i cues M = Val M') <->
  Forall (fun cue => exists ts, dict_get dict cue = Val ts /\
                      Forall (fun t => exists o, cell t = Val o) ts) cues.
Proof.
  induction cues as [|cue cues IH]; intros i M Hi HM; simpl.
  - split; [constructor | eauto].
  - simpl in Hi. rewrite Forall_cons_iff. destruct (dict_get dict cue) as [ts|e]; simpl.
    + pose proof (fill_targets_val i ltac:(lia) ts M HM) as Hft.
      destruct (fill_targets cell i M ts) as [M1|e] eqn:Ef; simpl.
      * rewrite (IH (S i) M1 ltac:(lia) (fill_targets_square i ts M M1 ltac:(lia) HM Ef)).
        split; [|tauto]. intros H. split; [|exact H].
        exists ts. split; [reflexivity|]. apply Hft. eauto.
      * split; [intros [M' H]; discriminate|]. intros [[ts' [E Hts]] _].
        injection E as <-. apply Hft in Hts. destruct Hts as [M' H]. discriminate.
    + split; [intros [M' H]; discriminate | intros [[ts [E _]] _]; discriminate].
Qed.

Lemma fill_targets_rows (i : nat) :
  (i < N)%nat -> forall ts M M', square N M -> fill_targets cell i M ts = Val M' ->
  (forall k, k <> i -> nth k M' [] = nth k M []) /\ nth i M' [] = row_after cell ts (nth i M []).
Proof.
  intros Hi ts. induction ts as [|t ts IH]; intros M M' HM E; simpl in E.
  - injection E as <-. split; reflexivity.
  - rewrite row_after_cons.
    destruct (cell t) as [[[c v]|]|e] eqn:Et; simpl in E; [| |discriminate].
    + destruct (setitem_square N M i c v HM Hi (cell_col _ _ _ Et)) as [M1 [E1 [H1 ->]]].
      rewrite E1 in E. simpl in E. destruct (IH _ _ H1 E) as [Hk Hr].
      assert (Hl : (i < length M)%nat) by (destruct HM; lia).
      split.
      * intros k Hki. rewrite Hk by exact Hki. apply nth_list_set_neq. congruence.
      * rewrite Hr, nth_list_set_eq by exact Hl. reflexivity.
    + exact (IH _ _ HM E).
Qed.

Lemma fill_rows_rows (dict : assoc_dict) :
  forall cues i0 M M', (i0 + length cues <= N)%nat -> square N M ->
  fill_rows cell dict i0 cues M = Val M' ->
  (forall k, (k < i0 \/ i0 + length cues <= k)%nat -> nth k M' [] = nth k M []) /\
  (forall k, (i0 <= k < i0 + length cues)%nat ->
     exists ts, dict_get dict (nth (k - i0) cues EmptyString) = Val ts /\
                nth k M' [] = row_after cell ts (nth k M [])).
Proof.
  induction cues as [|cue cues IH]; intros i0 M M' Hi HM E; simpl in E.
  - injection E as <-. split; [reflexivity | simpl; intros; lia].
  - simpl in Hi. destruct (dict_get dict cue) as [ts|e] eqn:Ed; simpl in E; [|discriminate].
    destruct (fill_targets cell i0 M ts) as [M1|e] eqn:Ef; simpl in E; [|discriminate].
    pose proof (fill_targets_square i0 ts M M1 ltac:(lia) HM Ef) as H1.
    destruct (fill_targets_rows i0 ltac:(lia) ts M M1 HM Ef) as [Hk Hr].
    destruct (IH (S i0) M1 M' ltac:(lia) H1 E) as [Out In_].
    split.
    + intros k Hki. simpl in Hki. rewrite Out by lia. apply Hk. lia.
    + intros k Hki. simpl in Hki. destruct (Nat.eq_dec k i0) as [->|Hne].
      * exists ts. rewrite Nat.sub_diag. split; [exact Ed|].
        rewrite Out by lia. exact Hr.
      * destruct (In_ k ltac:(lia)) as [ts' [Ed' Hr']]. exists ts'.
        replace (k - i0)%nat with (S (k - S i0)) by lia. split; [exact Ed'|].
        rewrite Hr', Hk by lia. reflexivity.
Qed.

Lemma fill_targets_raise (i : nat) :
  (forall t e, cell t = Raise e -> e = ValueError) -> (i < N)%nat ->
  forall ts M e, square N M -> fill_targets cell i M ts = Raise e -> e = ValueError.
Proof.
  intros Herr Hi ts. induction ts as [|t ts IH]; intros M e HM H; simpl in H; [discriminate|].
  destruct (cell t) as [[[c v]|]|e'] eqn:Et; simpl in H.
  - destruct (setitem_square N M i c v HM Hi (cell_col _ _ _ Et)) as [M1 [E [H1 _]]].
    rewrite E in H. simpl in H. exact (IH M1 e H1 H).
  - exact (IH M e HM H).
  - injection H as <-. exact (Herr t e' Et).
Qed.

Lemma fill_rows_raise (dict : assoc_dict) :
  (forall t e, cell t = Raise e -> e = ValueError) ->
  forall cues i M e, (i + length cues <= N)%nat -> square N M ->
  fill_rows cell dict i cues M = Raise e -> e = KeyError \/ e = ValueError.
Proof.
  intros Herr. induction cues as [|cue cues IH]; intros i M e Hi HM H; simpl in H; [discriminate|].
  simpl in Hi. destruct (dict_get dict cue) as [ts|e'] eqn:Ed; simpl in H.
  - destruct (fill_targets cell i M ts) as [M1|e'] eqn:Ef; simpl in H.
    + exact (IH (S i) M1 e ltac:(lia) (fill_targets_square i ts M M1 ltac:(lia) HM Ef) H).
    + injection H as <-. right. exact (fill_targets_raise i Herr ltac:(lia) ts M e' HM Ef).
  - injection H as <-. left. exact (dict_get_raise dict cue e' Ed).
Qed.

End Fill.

Lemma row_after_unit (cell : target -> Result (option (nat * R))) :
  (forall t c v, cell t = Val (Some (c, v)) -> v = 1) ->
  forall ts r j, (j < length r)%nat -> (forall t c v, In t ts -> cell t = Val (Some (c, v)) -> (c < length r)%nat) ->
  nth j (row_after cell ts r) 0 = if written_to cell ts j then 1 else nth j r 0.
Proof.
  intros Hv ts. induction ts as [|t ts IH]; intros r j Hj Hc; [reflexivity|].
  rewrite row_after_cons, written_to_cons.
  destruct (cell t) as [[[c v]|]|e] eqn:Et.
  - rewrite (Hv _ _ _ Et) in *. rewrite IH.
    + destruct (Nat.eqb_spec c j) as [->|Hne]; simpl.
      * rewrite nth_list_set_eq by (eapply Hc; [left; reflexivity|exact Et]).
        destruct (written_to cell ts j); reflexivity.
      * rewrite nth_list_set_neq by exact Hne. reflexivity.
    + rewrite length_list_set. exact Hj.
    + intros t' c' v' Ht'. rewrite length_list_set. apply Hc. right. exact Ht'.
  - simpl. apply IH; [exact Hj|]. intros t' c' v' Ht'. apply Hc. right. exact Ht'.
  - simpl. apply IH; [exact Hj|]. intros t' c' v' Ht'. apply Hc. right. exact Ht'.
Qed.

(** ** The cells *)

Lemma Forall_nth_default {A : Type} (P : A -> Prop) (l : list A) (i : nat) (d : A) :
  Forall P l -> P d -> P (nth i l d).
Proof.
  intros Hl Hd. destruct (Nat.lt_ge_cases i (length l)) as [Hi|Hi].
  - rewrite Forall_forall in Hl. apply Hl, nth_In, Hi.
  - rewrite nth_overflow by exact Hi. exact Hd.
Qed.

Lemma Forall_equiv {A : Type} (P Q : A -> Prop) (l : list A) :
  (forall x, P x <-> Q x) -> Forall P l <-> Forall Q l.
Proof. intros H. split; apply Forall_impl; intros x; apply H. Qed.

Lemma cues_cond_equiv (d : assoc_dict) (nl : list string) (A B : target -> Prop) :
  (forall t, A t <-> B t) ->
  Forall (fun cue => exists ts, dict_get d cue = Val ts /\ Forall A ts) nl <->
  Forall (fun cue => exists ts, dict_get d cue = Val ts /\ Forall B ts) nl.
Proof.
  intros H. apply Forall_equiv. intros cue.
  split; intros [ts [E Hts]]; exists ts; split; auto; revert Hts; apply Forall_equiv; firstorder.
Qed.

Lemma normed_unweighted_cell_col (nl : list string) (t : target) (c : nat) (v : R) :
  normed_unweighted_cell nl t = Val (Some (c, v)) -> (c < length nl)%nat /\ v = 1.
Proof.
  destruct t as [[w fsg] normed]. unfold normed_unweighted_cell. destruct normed; [|discriminate].
  destruct (py_index nl w) as [k|e] eqn:E; simpl; [|discriminate].
  intros H. injection H as -> ->. split; [apply (py_index_spec nl w c E) | reflexivity].
Qed.

Lemma normed_weighted_cell_col (nl : list string) (t : target) (c : nat) (v : R) :
  normed_weighted_cell nl t = Val (Some (c, v)) -> (c < length nl)%nat /\ v = snd (fst t).
Proof.
  destruct t as [[w fsg] normed]. unfold normed_weighted_cell. destruct normed; [|discriminate].
  destruct (py_index nl w) as [k|e] eqn:E; simpl; [|discriminate].
  intros H. injection H as -> ->. split; [apply (py_index_spec nl w c E) | reflexivity].
Qed.

Lemma full_cell_col (nl ul : list string) (wt : bool) (t : target) (c : nat) (v : R) :
  full_cell nl ul wt t = Val (Some (c, v)) ->
  (c < length nl + length ul)%nat /\ v = (if wt then snd (fst t) else 1).
Proof.
  destruct t as [[w fsg] normed]. unfold full_cell.
  destruct normed; destruct (py_index _ w) as [k|e] eqn:E; simpl; try discriminate;
    intros H; injection H as <- <-; apply py_index_spec in E; split; (lia || reflexivity).
Qed.

Lemma normed_cell_val (nl : list string) (wt : bool) (t : target) :
  (exists o, (if wt then normed_weighted_cell nl t else normed_unweighted_cell nl t) = Val o) <->
  (snd t = true -> In (fst (fst t)) nl).
Proof.
  destruct t as [[w fsg] normed]. simpl. rewrite <- py_index_in.
  destruct wt; unfold normed_weighted_cell, normed_unweighted_cell; destruct normed;
    try (split; [intros _ H; discriminate | eauto]);
    (destruct (py_index nl w) as [k|e]; simpl;
     split; [eauto | eauto | intros [o H]; discriminate
            | intros H; destruct (H eq_refl) as [k H']; discriminate]).
Qed.

Lemma full_cell_val (nl ul : list string) (wt : bool) (t : target) :
  (exists o, full_cell nl ul wt t = Val o) <->
  (if snd t then In (fst (fst t)) nl else In (fst (fst t)) ul).
Proof.
  destruct t as [[w fsg] normed]. unfold full_cell. simpl.
  destruct normed; rewrite <- py_index_in;
    (destruct (py_index _ w) as [k|e]; simpl;
     split; [eauto | eauto | intros [o H]; discriminate | intros [k H']; discriminate]).
Qed.

Lemma setitem_nonneg (M M' : matrix) (i c : nat) (v : R) :
  nonneg_matrix M -> 0 <= v -> setitem M i c v = Val M' -> nonneg_matrix M'.
Proof.
  intros HM Hv E. rewrite (setitem_shape 0 M M' i c v E).
  apply Forall_list_set; [exact HM|]. apply Forall_list_set; [|exact Hv].
  apply Forall_nth_default; [exact HM | constructor].
Qed.

Lemma zeros_nonneg (N : nat) : nonneg_matrix (zeros N).
Proof.
  unfold nonneg_matrix, zeros. apply Forall_forall. intros r Hr. apply repeat_spec in Hr. subst r.
  apply Forall_forall. intros x Hx. apply repeat_spec in Hx. subst x. lra.
Qed.

Lemma nth_map_seq0 {A : Type} (f : nat -> A) (N i : nat) (d : A) :
  (i < N)%nat -> nth i (map f (seq 0 N)) d = f i.
Proof.
  intros Hi. rewrite (nth_map_lt f (seq 0 N) i 0%nat d) by (rewrite length_seq; exact Hi).
  rewrite seq_nth by exact Hi. reflexivity.
Qed.

Lemma makeStochastic_out_stochastic (n : nat) (M M' : matrix) :
  (2 <= n)%nat -> square n M -> nonneg_matrix M -> makeStochastic M = Ok M' -> row_stochastic n M'.
Proof.
  intros Hn HM Hnn E. pose proof (makeStochastic_square_entries n M HM) as EM.
  destruct HM as [HlM Hrows].
  assert (HF : Forall (fun row => length row = n /\ Forall (Rle 0) row) M).
  { rewrite Forall_forall in *. intros row Hin. split; auto.
    unfold nonneg_matrix in Hnn. rewrite Forall_forall in Hnn. auto. }
  destruct (makeStochastic_rows_props n Hn M 0 ltac:(simpl; lia) HF) as [M2 [E2 H2]].
  unfold makeStochastic in E. rewrite HlM, E2 in E. injection E as ->.
  pose proof (Forall2_length H2) as Hl.
  assert (Hall : Forall (fun row' => length row' = n /\ vsum row' = 1) M').
  { apply (Forall2_right _ _ _ _ H2). intros a b [? [? _]]. auto. }
  split; [split|split].
  - lia.
  - eapply Forall_impl; [|exact Hall]. intros r [Hr _]. exact Hr.
  - unfold makeStochastic in EM. rewrite HlM, E2 in EM. injection EM as ->.
    unfold nonneg_matrix. apply Forall_map, Forall_forall. intros i Hi.
    apply Forall_map, Forall_forall. intros j Hj.
    assert (Hrow : Forall (Rle 0) (nth i M [])) by (apply Forall_nth_default; [exact Hnn | constructor]).
    destruct (Req_EM_T (vsum (nth i M [])) 0) as [Hz|Hz].
    + destruct (Nat.eq_dec i j).
      * apply (Forall_nth_default (Rle 0)); [exact Hrow | lra].
      * unfold Rdiv. rewrite Rmult_1_l. apply Rlt_le, Rinv_0_lt_compat, lt_0_INR. lia.
    + pose proof (vsum_nonneg _ Hrow) as Hs.
      assert (Hp : 0 < vsum (nth i M [])) by (destruct Hs as [Hs|Hs]; [exact Hs | symmetry in Hs; contradiction]).
      unfold Rdiv. apply Rmult_le_pos; [apply (Forall_nth_default (Rle 0)); [exact Hrow | lra]|].
      apply Rlt_le, Rinv_0_lt_compat, Hp.
  - eapply Forall_impl; [|exact Hall]. intros r [_ Hr]. exact Hr.
Qed.

(** ** A builder, generically: fill [zeros N] row by row, then regularize *)

Section Builder.
Variable cell : target -> Result (option (nat * R)).
Variable N : nat.
Hypothesis cell_col : forall t c v, cell t = Val (Some (c, v)) -> (c < N)%nat.
Variable d : assoc_dict.
Variable nl : list string.
Hypothesis nl_N : (length nl <= N)%nat.

Lemma build_val :
  (exists M, build cell N d nl = Val M) <->
  Forall (fun cue => exists ts, dict_get d cue = Val ts /\
                      Forall (fun t => exists o, cell t = Val o) ts) nl.
Proof.
  unfold build.
  rewrite <- (fill_rows_val cell N cell_col d nl 0 (zeros N) ltac:(simpl; lia) (zeros_square N)).
  destruct (fill_rows cell d 0 nl (zeros N)) as [P|e] eqn:E; simpl.
  - pose proof (fill_rows_square cell N cell_col d nl 0 (zeros N) P ltac:(simpl; lia) (zeros_square N) E) as HP.
    rewrite (makeStochastic_square_entries N P HP). simpl. split; eauto.
  - split; intros [M H]; discriminate.
Qed.

Lemma build_stochastic (M : matrix) :
  (2 <= N)%nat ->
  (forall cue ts t c v, dict_get d cue = Val ts -> In t ts -> cell t = Val (Some (c, v)) -> 0 <= v) ->
  build cell N d nl = Val M -> row_stochastic N M.
Proof.
  unfold build. intros Hn Hv E.
  destruct (fill_rows cell d 0 nl (zeros N)) as [P|e] eqn:Ef; simpl in E; [|discriminate].
  pose proof (fill_rows_square cell N cell_col d nl 0 (zeros N) P ltac:(simpl; lia) (zeros_square N) Ef) as HP.
  assert (Hnn : nonneg_matrix P).
  { eapply (fill_rows_inv cell nonneg_matrix d nl 0); [exact Ef| |apply zeros_nonneg].
    intros i M1 t c v M2 _ [cue [ts [Ed Ht]]] H1 Hc Hs. eapply setitem_nonneg; [exact H1| |exact Hs].
    eapply Hv; eauto. }
  destruct (makeStochastic P) as [M'|e] eqn:Em; simpl in E; [|discriminate]. injection E as <-.
  exact (makeStochastic_out_stochastic N P M' Hn HP Hnn Em).
Qed.

Lemma build_untouched_row (M : matrix) (i : nat) :
  (length nl <= i < N)%nat -> build cell N d nl = Val M ->
  nth i M [] = map (fun j => if Nat.eq_dec i j then 0 else 1 / INR (N - 1)) (seq 0 N).
Proof.
  unfold build. intros Hi E.
  destruct (fill_rows cell d 0 nl (zeros N)) as [P|e] eqn:Ef; simpl in E; [|discriminate].
  pose proof (fill_rows_square cell N cell_col d nl 0 (zeros N) P ltac:(simpl; lia) (zeros_square N) Ef) as HP.
  destruct (fill_rows_rows cell N cell_col d nl 0 (zeros N) P ltac:(simpl; lia) (zeros_square N) Ef) as [Out _].
  rewrite (makeStochastic_square_entries N P HP) in E. simpl in E. injection E as <-.
  rewrite nth_map_seq0 by lia. rewrite Out by lia. unfold zeros. rewrite nth_repeat_in by lia.
  rewrite vsum_repeat, Rmult_0_l. destruct (Req_EM_T 0 0) as [_|H]; [|lra].
  apply map_ext_in. intros j Hj. apply in_seq in Hj.
  destruct (Nat.eq_dec i j); [apply nth_repeat_in; lia | reflexivity].
Qed.

Hypothesis cell_unit : forall t c v, cell t = Val (Some (c, v)) -> v = 1.

Lemma build_unit_row (M : matrix) (i : nat) (ts : list target) :
  (i < length nl)%nat -> dict_get d (nth i nl EmptyString) = Val ts -> build cell N d nl = Val M ->
  nth i M [] =
    map (fun j => if Nat.eqb (length (filter (written_to cell ts) (seq 0 N))) 0
                  then (if Nat.eq_dec i j then 0 else 1 / INR (N - 1))
                  else (if written_to cell ts j then 1 else 0)
                       / INR (length (filter (written_to cell ts) (seq 0 N))))
        (seq 0 N).
Proof.
  unfold build. intros Hi Ed E.
  destruct (fill_rows cell d 0 nl (zeros N)) as [P|e] eqn:Ef; simpl in E; [|discriminate].
  pose proof (fill_rows_square cell N cell_col d nl 0 (zeros N) P ltac:(simpl; lia) (zeros_square N) Ef) as HP.
  destruct (fill_rows_rows cell N cell_col d nl 0 (zeros N) P ltac:(simpl; lia) (zeros_square N) Ef) as [_ In_].
  destruct (In_ i ltac:(simpl; lia)) as [ts' [Ed' Hrow]].
  rewrite Nat.sub_0_r, Ed in Ed'. injection Ed' as <-.
  unfold zeros in Hrow. rewrite nth_repeat_in in Hrow by lia.
  set (f := written_to cell ts) in *.
  assert (Hr : nth i P [] = map (fun j => if f j then 1 else 0) (seq 0 N)).
  { rewrite Hrow. apply nth_ext with (d := 0) (d' := 0).
    - rewrite length_row_after, repeat_length, length_map, length_seq. reflexivity.
    - intros j Hj. rewrite length_row_after, repeat_length in Hj.
      rewrite (row_after_unit cell cell_unit ts (repeat 0 N) j) by
        (rewrite ?repeat_length; first [exact Hj | intros t c v _ Hc; eapply cell_col; exact Hc]).
      rewrite nth_map_seq0 by exact Hj. rewrite nth_repeat_in by exact Hj. reflexivity. }
  rewrite (makeStochastic_square_entries N P HP) in E. simpl in E. injection E as <-.
  rewrite nth_map_seq0 by lia. rewrite Hr, vsum_indicator.
  apply map_ext_in. intros j Hj. pose proof Hj as Hj'. apply in_seq in Hj'.
  rewrite nth_map_seq0 by lia.
  destruct (Nat.eqb_spec (length (filter f (seq 0 N))) 0) as [Hk|Hk].
  - rewrite Hk. simpl INR. destruct (Req_EM_T 0 0) as [_|H]; [|lra].
    destruct (Nat.eq_dec i j); [|reflexivity].
    apply length_zero_iff_nil in Hk.
    destruct (f j) eqn:Efj; [|reflexivity].
    assert (Hin : In j (filter f (seq 0 N))) by (apply filter_In; auto).
    rewrite Hk in Hin. contradiction.
  - destruct (Req_EM_T (INR (length (filter f (seq 0 N)))) 0) as [Hz|Hz].
    + change 0 with (INR 0) in Hz. apply INR_eq in Hz. contradiction.
    + reflexivity.
Qed.

(** A builder raises only what its dictionary lookups ([KeyError]) and its
    cell function raise: [fill_rows] writes in range and [makeStochastic]
    of the square result never raises. *)
Lemma build_raise (e : PyError) :
  (forall t e, cell t = Raise e -> e = ValueError) ->
  build cell N d nl = Raise e -> e = KeyError \/ e = ValueError.
Proof.
  intros Herr. unfold build.
  destruct (fill_rows cell d 0 nl (zeros N)) as [P|e'] eqn:E; simpl.
  - pose proof (fill_rows_square cell N cell_col d nl 0 (zeros N) P ltac:(simpl; lia) (zeros_square N) E) as HP.
    rewrite (makeStochastic_square_entries N P HP). simpl. discriminate.
  - intros H. injection H as <-.
    exact (fill_rows_raise cell N cell_col d Herr nl 0 (zeros N) e' ltac:(simpl; lia) (zeros_square N) E).
Qed.

End Builder.

Lemma builders_are_build (d : assoc_dict) (nl ul : list string) :
  createNormedUnweightedMatrix d nl = build (normed_unweighted_cell nl) (length nl) d nl /\
  createNormedWeightedMatrix d nl = build (normed_weighted_cell nl) (length nl) d nl /\
  createFullUnweightedMatrix d nl ul = build (full_cell nl ul false) (length nl + length ul) d nl /\
  createFullWeightedMatrix d nl ul = build (full_cell nl ul true) (length nl + length ul) d nl.
Proof. repeat split. Qed.

Lemma fill_targets_scale (cell1 cell2 : target -> Result (option (nat * R))) (k : R) (i : nat) :
  forall ts M,
  (forall t, In t ts ->
     cell2 t = match cell1 t with Val (Some (c, v)) => Val (Some (c, k * v)) | o => o end) ->
  fill_targets cell2 i (map (map (Rmult k)) M) ts =
    match fill_targets cell1 i M ts with Val M' => Val (map (map (Rmult k)) M') | Raise e => Raise e end.
Proof.
  induction ts as [|t ts IH]; intros M H; simpl; [reflexivity|].
  rewrite (H t (or_introl eq_refl)).
  destruct (cell1 t) as [[[c v]|]|e]; simpl.
  - rewrite setitem_scale. destruct (setitem M i c v); simpl; [|reflexivity].
    apply IH. intros t' Ht'. apply H. right. exact Ht'.
  - apply IH. intros t' Ht'. apply H. right. exact Ht'.
  - reflexivity.
Qed.

Lemma fill_rows_scale (cell1 cell2 : target -> Result (option (nat * R))) (k : R) (d : assoc_dict) :
  (forall cue ts t, dict_get d cue = Val ts -> In t ts ->
     cell2 t = match cell1 t with Val (Some (c, v)) => Val (Some (c, k * v)) | o => o end) ->
  forall cues i M,
  fill_rows cell2 d i cues (map (map (Rmult k)) M) =
    match fill_rows cell1 d i cues M with Val M' => Val (map (map (Rmult k)) M') | Raise e => Raise e end.
Proof.
  intros H. induction cues as [|cue cues IH]; intros i M; simpl; [reflexivity|].
  destruct (dict_get d cue) as [ts|e] eqn:Ed; simpl; [|reflexivity].
  rewrite (fill_targets_scale cell1 cell2 k i ts M (fun t Ht => H cue ts t Ed Ht)).
  destruct (fill_targets cell1 i M ts); simpl; [apply IH | reflexivity].
Qed.

Lemma build_scale (cell1 cell2 : target -> Result (option (nat * R))) (c : R) (N : nat)
    (d : assoc_dict) (nl : list string) :
  c <> 0 -> (forall t c' v, cell1 t = Val (Some (c', v)) -> 0 <= v) ->
  (forall cue ts t, dict_get d cue = Val ts -> In t ts ->
     cell2 t = match cell1 t with Val (Some (c', v)) => Val (Some (c', c * v)) | o => o end) ->
  build cell2 N d nl = build cell1 N d nl.
Proof.
  intros Hc Hv H. unfold build.
  pose proof (fill_rows_scale cell1 cell2 c d H nl 0 (zeros N)) as E.
  rewrite map_scale_zeros in E. rewrite E.
  destruct (fill_rows cell1 d 0 nl (zeros N)) as [P|e] eqn:Ef; simpl; [|reflexivity].
  assert (Hnn : nonneg_matrix P).
  { eapply (fill_rows_inv cell1 nonneg_matrix d nl 0); [exact Ef| |apply zeros_nonneg].
    intros i M1 t c' v M2 _ _ H1 Hct Hs. eapply setitem_nonneg; [exact H1| |exact Hs].
    eapply Hv; eauto. }
  assert (Hsq : square N P).
  { eapply (fill_rows_inv cell1 (square N) d nl 0); [exact Ef| |apply zeros_square].
    intros i M1 t c' v M2 _ _ H1 _ Hs. exact (setitem_keeps_square N M1 M2 i c' v H1 Hs). }
  destruct Hsq as [HlP HrP].
  unfold makeStochastic. rewrite length_map, HlP.
  rewrite makeStochastic_rows_scale by assumption. reflexivity.
Qed.

Lemma dict_targets (P : target -> Prop) (d : assoc_dict) (cue : string) (ts : list target) (t : target) :
  Forall (fun kv => Forall P (snd kv)) d -> dict_get d cue = Val ts -> In t ts -> P t.
Proof.
  intros Hd E Ht. apply dict_get_in in E. rewrite Forall_forall in Hd.
  specialize (Hd _ E). simpl in Hd. rewrite Forall_forall in Hd. auto.
Qed.

Lemma normed_cell_raise (nl : list string) (wt : bool) (t : target) (e : PyError) :
  (if wt then normed_weighted_cell nl t else normed_unweighted_cell nl t) = Raise e -> e = ValueError.
Proof.
  destruct t as [[w fsg] normed].
  destruct wt; unfold normed_weighted_cell, normed_unweighted_cell; destruct normed;
    try discriminate; destruct (py_index nl w) as [k|e'] eqn:E; simpl; try discriminate;
    intros H; injection H as <-; exact (py_index_raise nl w e' E).
Qed.

Lemma normed_unweighted_col_only (nl : list string) (t : target) (c : nat) (v : R) :
  normed_unweighted_cell nl t = Val (Some (c, v)) -> (c < length nl)%nat.
Proof. intros H. exact (proj1 (normed_unweighted_cell_col nl t c v H)). Qed.

Lemma normed_weighted_col_only (nl : list string) (t : target) (c : nat) (v : R) :
  normed_weighted_cell nl t = Val (Some (c, v)) -> (c < length nl)%nat.
Proof. intros H. exact (proj1 (normed_weighted_cell_col nl t c v H)). Qed.

Lemma full_col_only (nl ul : list string) (wt : bool) (t : target) (c : nat) (v : R) :
  full_cell nl ul wt t = Val (Some (c, v)) -> (c < length nl + length ul)%nat.
Proof. intros H. exact (proj1 (full_cell_col nl ul wt t c v H)). Qed.

Lemma le_plus_l_nat (a b : nat) : (a <= a + b)%nat.
Proof. lia. Qed.

(** ** Properties of the builders *)

(** [createNormedUnweightedMatrix] and [createNormedWeightedMatrix] return
    exactly when every cue of [normed_list] is a key of [dict] and every
    normed target of those cues is in [normed_list]; unnormed targets are
    never looked up.  Otherwise they raise [KeyError] at
    [dict[normed_list[i]]] or [ValueError] at [normed_list.index], and
    nothing else: every write is in range and the final [makeStochastic]
    never raises. *)
Theorem normed_builders_succeed (d : assoc_dict) (nl : list string) :
  ((exists M, createNormedUnweightedMatrix d nl = Val M) <->
     Forall (fun cue => exists ts, dict_get d cue = Val ts /\
               Forall (fun t : target => snd t = true -> In (fst (fst t)) nl) ts) nl) /\
  ((exists M, createNormedWeightedMatrix d nl = Val M) <->
     Forall (fun cue => exists ts, dict_get d cue = Val ts /\
               Forall (fun t : target => snd t = true -> In (fst (fst t)) nl) ts) nl) /\
  (forall e, createNormedUnweightedMatrix d nl = Raise e -> e = KeyError \/ e = ValueError) /\
  (forall e, createNormedWeightedMatrix d nl = Raise e -> e = KeyError \/ e = ValueError).
Proof.
  destruct (builders_are_build d nl []) as [E1 [E2 _]]. rewrite E1, E2. split; [|split; [|split]].
  - rewrite (build_val _ _ (normed_unweighted_col_only nl) d nl (Nat.le_refl _)).
    apply cues_cond_equiv. intros t. exact (normed_cell_val nl false t).
  - rewrite (build_val _ _ (normed_weighted_col_only nl) d nl (Nat.le_refl _)).
    apply cues_cond_equiv. intros t. exact (normed_cell_val nl true t).
  - intros e. apply (build_raise _ _ (normed_unweighted_col_only nl) d nl (Nat.le_refl _)).
    intros t e'. exact (normed_cell_raise nl false t e').
  - intros e. apply (build_raise _ _ (normed_weighted_col_only nl) d nl (Nat.le_refl _)).
    intros t e'. exact (normed_cell_raise nl true t e').
Qed.

(** [createFullUnweightedMatrix] and [createFullWeightedMatrix] return
    exactly when every cue of [normed_list] is a key of [dict], every normed
    target of those cues is in [normed_list] and every other target is in
    [unnormed_list]. *)
Theorem full_builders_succeed (d : assoc_dict) (nl ul : list string) :
  ((exists M, createFullUnweightedMatrix d nl ul = Val M) <->
     Forall (fun cue => exists ts, dict_get d cue = Val ts /\
               Forall (fun t : target => if snd t then In (fst (fst t)) nl else In (fst (fst t)) ul) ts) nl) /\
  ((exists M, createFullWeightedMatrix d nl ul = Val M) <->
     Forall (fun cue => exists ts, dict_get d cue = Val ts /\
               Forall (fun t : target => if snd t then In (fst (fst t)) nl else In (fst (fst t)) ul) ts) nl).
Proof.
  destruct (builders_are_build d nl ul) as [_ [_ [E3 E4]]]. rewrite E3, E4. split.
  - rewrite (build_val _ _ (full_col_only nl ul false) d nl (le_plus_l_nat _ _)).
    apply cues_cond_equiv. intros t. exact (full_cell_val nl ul false t).
  - rewrite (build_val _ _ (full_col_only nl ul true) d nl (le_plus_l_nat _ _)).
    apply cues_cond_equiv. intros t. exact (full_cell_val nl ul true t).
Qed.

(** With at least two words, every matrix the builders return is square of
    the size of the word lists, non-negative, and its rows sum to [1]; for
    the weighted builders this needs the strengths of [dict] to be
    non-negative. *)
Theorem builders_row_stochastic (d : assoc_dict) (nl ul : list string) (M : matrix) :
  ((2 <= length nl)%nat -> createNormedUnweightedMatrix d nl = Val M ->
     row_stochastic (length nl) M) /\
  ((2 <= length nl + length ul)%nat -> createFullUnweightedMatrix d nl ul = Val M ->
     row_stochastic (length nl + length ul) M) /\
  (Forall (fun kv => Forall (fun t => 0 <= snd (fst t)) (snd kv)) d ->
   (2 <= length nl)%nat -> createNormedWeightedMatrix d nl = Val M ->
     row_stochastic (length nl) M) /\
  (Forall (fun kv => Forall (fun t => 0 <= snd (fst t)) (snd kv)) d ->
   (2 <= length nl + length ul)%nat -> createFullWeightedMatrix d nl ul = Val M ->
     row_stochastic (length nl + length ul) M).
Proof.
  destruct (builders_are_build d nl ul) as [E1 [E2 [E3 E4]]]. rewrite E1, E2, E3, E4.
  split; [|split; [|split]].
  - intros Hn. apply (build_stochastic _ _ (normed_unweighted_col_only nl) d nl (Nat.le_refl _) M Hn).
    intros cue ts t c v _ _ Hc. rewrite (proj2 (normed_unweighted_cell_col nl t c v Hc)). lra.
  - intros Hn. apply (build_stochastic _ _ (full_col_only nl ul false) d nl (le_plus_l_nat _ _) M Hn).
    intros cue ts t c v _ _ Hc. rewrite (proj2 (full_cell_col nl ul false t c v Hc)). lra.
  - intros Hd Hn. apply (build_stochastic _ _ (normed_weighted_col_only nl) d nl (Nat.le_refl _) M Hn).
    intros cue ts t c v Ed Ht Hc. rewrite (proj2 (normed_weighted_cell_col nl t c v Hc)).
    exact (dict_targets _ d cue ts t Hd Ed Ht).
  - intros Hd Hn. apply (build_stochastic _ _ (full_col_only nl ul true) d nl (le_plus_l_nat _ _) M Hn).
    intros cue ts t c v Ed Ht Hc. rewrite (proj2 (full_cell_col nl ul true t c v Hc)).
    exact (dict_targets _ d cue ts t Hd Ed Ht).
Qed.

(** In the matrices of the full builders, the row of every word of
    [unnormed_list] (rows [len(normed_list)] and after) is never written, so
    [makeStochastic] turns it into the dangling row: [0] on the diagonal and
    [1/(N-1)] everywhere else, whatever [dict] holds. *)
Theorem full_builders_unnormed_rows (d : assoc_dict) (nl ul : list string) (M : matrix) (i : nat) :
  (length nl <= i < length nl + length ul)%nat ->
  (createFullUnweightedMatrix d nl ul = Val M \/ createFullWeightedMatrix d nl ul = Val M) ->
  nth i M [] = map (fun j => if Nat.eq_dec i j then 0 else 1 / INR (length nl + length ul - 1))
                   (seq 0 (length nl + length ul)).
Proof.
  destruct (builders_are_build d nl ul) as [_ [_ [E3 E4]]]. rewrite E3, E4.
  intros Hi [H|H].
  - exact (build_untouched_row _ _ (full_col_only nl ul false) d nl (le_plus_l_nat _ _) M i Hi H).
  - exact (build_untouched_row _ _ (full_col_only nl ul true) d nl (le_plus_l_nat _ _) M i Hi H).
Qed.

(** The row of cue [i] in the matrix of an unweighted builder: when [k]
    columns are written by the targets of [dict[normed_list[i]]] (a column
    counts once, however many targets name it), each of them holds [1/k] and
    the others [0]; when none is written ([k = 0]) the row is the dangling
    row. *)
Theorem unweighted_builders_rows (d : assoc_dict) (nl ul : list string) (M : matrix)
    (i : nat) (ts : list target) :
  (i < length nl)%nat -> dict_get d (nth i nl EmptyString) = Val ts ->
  (createNormedUnweightedMatrix d nl = Val M ->
   nth i M [] =
     map (fun j =>
       if Nat.eqb (length (filter (written_to (normed_unweighted_cell nl) ts) (seq 0 (length nl)))) 0
       then (if Nat.eq_dec i j then 0 else 1 / INR (length nl - 1))
       else (if written_to (normed_unweighted_cell nl) ts j then 1 else 0)
            / INR (length (filter (written_to (normed_unweighted_cell nl) ts) (seq 0 (length nl)))))
       (seq 0 (length nl))) /\
  (createFullUnweightedMatrix d nl ul = Val M ->
   nth i M [] =
     map (fun j =>
       if Nat.eqb (length (filter (written_to (full_cell nl ul false) ts)
                                  (seq 0 (length nl + length ul)))) 0
       then (if Nat.eq_dec i j then 0 else 1 / INR (length nl + length ul - 1))
       else (if written_to (full_cell nl ul false) ts j then 1 else 0)
            / INR (length (filter (written_to (full_cell nl ul false) ts)
                                  (seq 0 (length nl + length ul)))))
       (seq 0 (length nl + length ul))).
Proof.
  destruct (builders_are_build d nl ul) as [E1 [_ [E3 _]]]. rewrite E1, E3.
  intros Hi Ed. split.
  - apply (build_unit_row _ _ (normed_unweighted_col_only nl) d nl (Nat.le_refl _)); [|exact Hi|exact Ed].
    intros t c v Hc. exact (proj2 (normed_unweighted_cell_col nl t c v Hc)).
  - apply (build_unit_row _ _ (full_col_only nl ul false) d nl (le_plus_l_nat _ _)); [|exact Hi|exact Ed].
    intros t c v Hc. exact (proj2 (full_cell_col nl ul false t c v Hc)).
Qed.

(** When every strength in [dict] is the same non-zero [c], the weighted
    builders return what the unweighted ones return (both raise the same
    error when one raises): [makeStochastic] divides the constant out. *)
Theorem weighted_builders_constant_strength (d : assoc_dict) (nl ul : list string) (c : R) :
  c <> 0 -> Forall (fun kv => Forall (fun t => snd (fst t) = c) (snd kv)) d ->
  createNormedWeightedMatrix d nl = createNormedUnweightedMatrix d nl /\
  createFullWeightedMatrix d nl ul = createFullUnweightedMatrix d nl ul.
Proof.
  intros Hc Hd. destruct (builders_are_build d nl ul) as [E1 [E2 [E3 E4]]]. rewrite E1, E2, E3, E4.
  split; apply (build_scale _ _ c); try exact Hc.
  - intros t c' v H. rewrite (proj2 (normed_unweighted_cell_col nl t c' v H)). lra.
  - intros cue ts t Ed Ht. pose proof (dict_targets _ d cue ts t Hd Ed Ht) as Hs.
    destruct t as [[w fsg] normed]. simpl in Hs. subst fsg.
    unfold normed_weighted_cell, normed_unweighted_cell.
    destruct normed; [|reflexivity]. destruct (py_index nl w); simpl; [|reflexivity].
    rewrite Rmult_1_r. reflexivity.
  - intros t c' v H. rewrite (proj2 (full_cell_col nl ul false t c' v H)). lra.
  - intros cue ts t Ed Ht. pose proof (dict_targets _ d cue ts t Hd Ed Ht) as Hs.
    destruct t as [[w fsg] normed]. simpl in Hs. subst fsg. unfold full_cell.
    destruct normed; destruct (py_index _ w); simpl; try reflexivity; rewrite Rmult_1_r; reflexivity.
Qed.

(** ** Instances of the further properties on concrete inputs *)

Lemma ex_full_ok (wt : bool) :
  exists M, build (full_cell ex_normed ex_unnormed wt) (length ex_normed + length ex_unnormed)
                  ex_dict ex_normed = Val M.
Proof.
  apply (build_val _ _ (full_col_only ex_normed ex_unnormed wt) ex_dict ex_normed (le_plus_l_nat _ _)).
  forall_each; eexists; (split; [reflexivity|]); forall_each; destruct wt; eexists; reflexivity.
Qed.

Lemma ex_full_unweighted_ok : exists M, createFullUnweightedMatrix ex_dict ex_normed ex_unnormed = Val M.
Proof. exact (ex_full_ok false). Qed.

Lemma ex_full_weighted_ok : exists M, createFullWeightedMatrix ex_dict ex_normed ex_unnormed = Val M.
Proof. exact (ex_full_ok true). Qed.

Lemma square2_swap2 : square 2 swap2.
Proof. split; [reflexivity|]. forall_each; reflexivity. Qed.

Lemma square2_chain2 : square 2 chain2.
Proof. split; [reflexivity|]. forall_each; reflexivity. Qed.

Lemma unbalanced2_ok : square 2 unbalanced2 /\ nonneg_matrix unbalanced2.
Proof.
  split; [split; [reflexivity|]; forall_each; reflexivity|].
  unfold nonneg_matrix, unbalanced2. forall_each; lra.
Qed.

Lemma makeStochastic_never_raises_witness :
  exists M', makeStochastic [[0]] = Ok M' /\ square 1 M'.
Proof.
  apply (makeStochastic_never_raises 1 [[0]]). split; [reflexivity|]. forall_each; reflexivity.
Defined.

Lemma makeStochastic_zero_sum_row_witness :
  exists M', makeStochastic [[1; -1]; [0.5; 0.5]] = Ok M' /\ nth 0 M' [] = [1; 1].
Proof.
  destruct (makeStochastic_zero_sum_row 2 [[1; -1]; [0.5; 0.5]] 0
              ltac:(split; [reflexivity|]; forall_each; reflexivity) ltac:(lia)
              ltac:(unfold vsum; simpl; lra)) as [M' [E H]].
  exists M'. split; [exact E|]. rewrite H. simpl. f_equal. f_equal. field.
Defined.

Lemma makeStochastic_fixes_stochastic_witness :
  makeStochastic [[0.5; 0.25; 0.25]; [0; 1; 0]] = Ok [[0.5; 0.25; 0.25]; [0; 1; 0]].
Proof.
  apply makeStochastic_fixes_stochastic.
  - forall_each; simpl; lia.
  - unfold rows_sum_one. forall_each; unfold vsum; simpl; lra.
Defined.

Lemma makeStochastic_idempotent_witness :
  bind (makeStochastic unbalanced2) makeStochastic = makeStochastic unbalanced2.
Proof.
  apply (makeStochastic_idempotent 2 unbalanced2); [lia | apply unbalanced2_ok | apply unbalanced2_ok].
Defined.

Lemma makeStochastic_scale_invariant_witness :
  makeStochastic (map (map (Rmult 3)) unbalanced2) = makeStochastic unbalanced2.
Proof.
  apply (makeStochastic_scale_invariant 2 unbalanced2 3); [apply unbalanced2_ok | apply unbalanced2_ok | lra].
Defined.

Lemma ranking_engines_no_validation_witness :
  ~ pageRank_run negative2 0.85 1e-8 5 (Err ZeroDivisionError) /\
  ~ hypertextInducedTopicSearch negative2 0.85 1e-8 5 (Err ZeroDivisionError) /\
  pageRank_run (repeat [1; 0; 0; 0] 5) 0.85 1e-8 0 (Err IndexError) /\
  pageRank_run (repeat [1; 0; 0; 0; 0] 4) 0.85 1e-8 1 (Err ValueError) /\
  hypertextInducedTopicSearch (repeat [1; 0; 0; 0; 0] 4) 0.85 1e-8 1 (Err ValueError).
Proof.
  destruct ranking_engines_no_validation as [P1 [P2 [_ [_ [P5 [P6 P7]]]]]].
  assert (Hsq : square 2 negative2).
  { split; [reflexivity|]. unfold negative2. forall_each; reflexivity. }
  split; [|split; [|split; [|split]]].
  - apply (P1 2%nat negative2); [lia | exact Hsq].
  - apply (P2 2%nat negative2); [lia | exact Hsq].
  - apply (proj2 (P5 5%nat 4%nat (repeat [1; 0; 0; 0] 5) 0.85 1e-8 0%nat (Err IndexError)
                     ltac:(lia) eq_refl ltac:(simpl; forall_each; reflexivity))).
    split; reflexivity.
  - apply (proj2 (P6 4%nat 5%nat (repeat [1; 0; 0; 0; 0] 4) 0.85 1e-8 1%nat (Err ValueError)
                     ltac:(lia) eq_refl ltac:(simpl; forall_each; reflexivity) ltac:(lra))).
    split; reflexivity.
  - apply (proj2 (P7 4%nat 5%nat (repeat [1; 0; 0; 0; 0] 4) 0.85 1e-8 1%nat (Err ValueError)
                     ltac:(lia) ltac:(lia) eq_refl ltac:(simpl; forall_each; reflexivity) ltac:(lra))).
    split; reflexivity.
Defined.


Lemma pageRank_uniform_columns_witness :
  pageRank_run swap2 0.85 1e-8 1 (Ok (repeat (1 / INR 2) 2)).
Proof.
  apply (pageRank_uniform_columns 2 swap2 0.85 1e-8); [lia | exact square2_swap2 | | lra | split; reflexivity].
  intros j Hj. destruct j as [|[|j]]; [unfold vsum; simpl; lra | unfold vsum; simpl; lra | lia].
Defined.

Lemma hits_transpose_swaps_witness :
  transpose chain2 = [[0; 0]; [1; 0]] /\
  hypertextInducedTopicSearch chain2 1 0.5 2 (Ok ([0; 1], [1; 0])) /\
  hypertextInducedTopicSearch (transpose chain2) 1 0.5 2 (Ok ([1; 0], [0; 1])).
Proof.
  split; [reflexivity|]. split; [exact chain2_hits_run|].
  apply (proj2 (hits_transpose_swaps 2 chain2 1 0.5 2 [1; 0] [0; 1] square2_chain2)).
  exact chain2_hits_run.
Defined.

Lemma hits_no_links_witness :
  exists iters, hypertextInducedTopicSearch (zeros 2) 0.5 0.5 iters
                  (Ok (repeat (1 / sqrt (INR 2)) 2, repeat (1 / sqrt (INR 2)) 2)).
Proof.
  apply (hits_no_links 2 (zeros 2) 0.5 0.5); [lia | apply zeros_square | | lra | lra].
  unfold zeros. simpl. forall_each; reflexivity.
Defined.

Lemma draft_hits_value_error_witness : draft_hits_run swap2 0.5 1e-8 (Raise ValueError).
Proof.
  apply (draft_hits_value_error 2 swap2 0.5 1e-8); [lia | exact square2_swap2 | lra | reflexivity].
Defined.

Lemma normed_builders_succeed_witness :
  (exists M, createNormedUnweightedMatrix ex_dict ex_normed = Val M) /\
  createNormedUnweightedMatrix ex_dict ["q"%string] = Raise KeyError /\
  createNormedWeightedMatrix ex_dict ["a"%string] = Raise ValueError /\
  (ValueError = KeyError \/ ValueError = ValueError).
Proof.
  split; [|split; [reflexivity | split; [reflexivity|]]].
  - apply (proj1 (normed_builders_succeed ex_dict ex_normed)).
    forall_each; eexists; (split; [reflexivity|]); forall_each; simpl; intros H;
      first [discriminate | tauto | (right; left; reflexivity) | (left; reflexivity)].
  - apply (proj2 (proj2 (proj2 (normed_builders_succeed ex_dict ["a"%string])))). reflexivity.
Defined.

Lemma full_builders_succeed_witness :
  exists M, createFullWeightedMatrix ex_dict ex_normed ex_unnormed = Val M.
Proof.
  apply (proj2 (full_builders_succeed ex_dict ex_normed ex_unnormed)).
  forall_each; eexists; (split; [reflexivity|]); forall_each; simpl;
    first [(right; left; reflexivity) | (left; reflexivity)].
Defined.

Lemma builders_row_stochastic_witness :
  exists M, createFullWeightedMatrix ex_dict ex_normed ex_unnormed = Val M /\ row_stochastic 3 M.
Proof.
  destruct ex_full_weighted_ok as [M HM]. exists M. split; [exact HM|].
  apply (builders_row_stochastic ex_dict ex_normed ex_unnormed M); [| simpl; lia | exact HM].
  unfold ex_dict. forall_each; simpl; lra.
Defined.

Lemma full_builders_unnormed_rows_witness :
  exists M, createFullUnweightedMatrix ex_dict ex_normed ex_unnormed = Val M /\
    nth 2 M [] = [1 / 2; 1 / 2; 0].
Proof.
  destruct ex_full_unweighted_ok as [M HM]. exists M. split; [exact HM|].
  rewrite (full_builders_unnormed_rows ex_dict ex_normed ex_unnormed M 2 ltac:(simpl; lia) (or_introl HM)).
  simpl. repeat f_equal; field.
Defined.

Lemma unweighted_builders_rows_witness :
  exists M, createFullUnweightedMatrix ex_dict ex_normed ex_unnormed = Val M /\
    nth 0 M [] = [0; 1 / 2; 1 / 2].
Proof.
  destruct ex_full_unweighted_ok as [M HM]. exists M. split; [exact HM|].
  rewrite (proj2 (unweighted_builders_rows ex_dict ex_normed ex_unnormed M 0
                    [("b"%string, 0.5, true); ("x"%string, 0.5, false)] ltac:(simpl; lia) eq_refl) HM).
  simpl. repeat f_equal; field.
Defined.

Lemma weighted_builders_constant_strength_witness :
  createNormedWeightedMatrix ex_half_dict ex_normed = createNormedUnweightedMatrix ex_half_dict ex_normed.
Proof.
  apply (proj1 (weighted_builders_constant_strength ex_half_dict ex_normed ex_unnormed 0.5 ltac:(lra)
                  ltac:(unfold ex_half_dict; forall_each; reflexivity))).
Defined.

(** * [load] *)

(** ** One line *)

Lemma load_line_spec (a : assoc_dict) (nl ul : list string) (line : string) (st' : load_state) :
  load_line (a, nl, ul) line = Val st' ->
  match line_fields line with
  | None => st' = (a, nl, ul)
  | Some (cue, t, normed, g, p) =>
      st' = (dict_append a cue (t, INR (digits_value 0 p) / INR (digits_value 0 g), normed),
             if (Nat.eqb (length nl) 0 || negb (String.eqb (last nl EmptyString) cue))%bool
             then nl ++ [cue] else nl,
             if (negb normed && negb (existsb (String.eqb t) ul))%bool then ul ++ [t] else ul)
  end.
Proof.
  unfold load_line. destruct (line_fields line) as [[[[[cue t] normed] g] p]|];
    [|intros H; injection H as <-; reflexivity].
  unfold py_int. destruct (all_chars ascii_digit p); simpl; [|discriminate].
  destruct (all_chars ascii_digit g); simpl; [|discriminate].
  unfold pydiv. destruct (Req_EM_T _ 0); simpl; [discriminate|].
  intros H. injection H as <-. reflexivity.
Qed.


Lemma load_lines_app (st : load_state) (l1 l2 : list string) :
  load_lines st (l1 ++ l2) = let? st' := load_lines st l1 in load_lines st' l2.
Proof.
  revert st; induction l1 as [|line l1 IH]; intros st; simpl; [reflexivity|].
  destruct (load_line st line); simpl; [apply IH | reflexivity].
Qed.


(** ** The dictionary *)

Lemma dict_append_get (d : assoc_dict) (key : string) (v : target) (w : string) :
  dict_get (dict_append d key v) w =
    if String.eqb key w
    then Val (match dict_get d w with Val ts => ts | Raise _ => [] end ++ [v])
    else dict_get d w.
Proof.
  induction d as [|[k vs] d IH]; simpl.
  - destruct (String.eqb key w); reflexivity.
  - destruct (String.eqb_spec k key) as [->|Hne]; simpl.
    + destruct (String.eqb key w); reflexivity.
    + rewrite IH. destruct (String.eqb_spec k w) as [->|Hkw]; [|reflexivity].
      destruct (String.eqb_spec key w) as [->|]; [contradiction | reflexivity].
Qed.

Lemma file_targets_cons (line : string) (lines : list string) (cue : string) :
  file_targets (line :: lines) cue =
    match line_fields line with
    | Some (c, t, normed, g, p) =>
        if String.eqb c cue
        then [(t, INR (digits_value 0 p) / INR (digits_value 0 g), normed)] else []
    | None => []
    end ++ file_targets lines cue.
Proof. reflexivity. Qed.

Lemma file_targets_in (lines : list string) (cue : string) (t : target) :
  In t (file_targets lines cue) <->
  exists line g p, In line lines /\ line_fields line = Some (cue, fst (fst t), snd t, g, p) /\
    snd (fst t) = INR (digits_value 0 p) / INR (digits_value 0 g).
Proof.
  induction lines as [|line lines IH].
  - simpl. split; [contradiction | intros [? [? [? [[] _]]]]].
  - rewrite file_targets_cons, in_app_iff, IH. split.
    + intros [H|[l [g [p [Hl H]]]]]; [|exists l, g, p; split; [right; exact Hl | exact H]].
      destruct (line_fields line) as [[[[[c t'] normed] g] p]|] eqn:E; [|contradiction].
      destruct (String.eqb_spec c cue) as [->|]; [|contradiction].
      destruct H as [<-|[]]. exists line, g, p. split; [left; reflexivity|]. auto.
    + intros [l [g [p [[<-|Hl] [E Hv]]]]].
      * left. rewrite E, String.eqb_refl. left. destruct t as [[w f] b]. simpl in *. subst f. reflexivity.
      * right. exists l, g, p. split; [exact Hl|]. auto.
Qed.

Lemma file_targets_nil (lines : list string) (cue : string) :
  file_targets lines cue <> [] <->
  exists line t b g p, In line lines /\ line_fields line = Some (cue, t, b, g, p).
Proof.
  split.
  - intros H. destruct (file_targets lines cue) as [|t ts] eqn:E; [contradiction|].
    assert (Ht : In t (file_targets lines cue)) by (rewrite E; left; reflexivity).
    apply file_targets_in in Ht. destruct Ht as [line [g [p [Hl [Hf _]]]]].
    exists line, (fst (fst t)), (snd t), g, p. auto.
  - intros [line [t [b [g [p [Hl Hf]]]]]] E.
    assert (Ht : In (t, INR (digits_value 0 p) / INR (digits_value 0 g), b) (file_targets lines cue)).
    { apply file_targets_in. exists line, g, p. auto. }
    rewrite E in Ht. contradiction.
Qed.

(** ** The loop *)

Lemma last_in (l : list string) (d : string) : l <> [] -> In (last l d) l.
Proof.
  intros H. rewrite (app_removelast_last d H) at 2. apply in_or_app. right. left. reflexivity.
Qed.

Lemma sorted_snoc (R : string -> string -> Prop) (l : list string) (x d : string) :
  Sorted R l -> (l = [] \/ R (last l d) x) -> Sorted R (l ++ [x]).
Proof.
  induction l as [|a l IH]; intros Hs Hx; simpl.
  - repeat constructor.
  - inversion Hs as [|a' l' Hl Hhd]; subst.
    destruct l as [|b l].
    + simpl in Hx. destruct Hx as [Hx|Hx]; [discriminate|]. repeat constructor. exact Hx.
    + constructor.
      * apply IH; [exact Hl|]. right. destruct Hx as [Hx|Hx]; [discriminate | exact Hx].
      * simpl. inversion Hhd. constructor. assumption.
Qed.

Lemma sorted_nth (R : string -> string -> Prop) (l : list string) (d : string) :
  Sorted R l -> forall k, (S k < length l)%nat -> R (nth k l d) (nth (S k) l d).
Proof.
  induction 1 as [|a l Hl IH Hhd]; intros k Hk; simpl in Hk; [lia|].
  destruct k as [|k].
  - destruct l as [|b l]; simpl in Hk; [lia|]. inversion Hhd. assumption.
  - apply IH. lia.
Qed.

Lemma load_lines_lists (lines : list string) :
  forall a nl ul a' nl' ul', load_lines (a, nl, ul) lines = Val (a', nl', ul') ->
  (forall w, In w ul' <-> In w ul \/
     exists line c g p, In line lines /\ line_fields line = Some (c, w, false, g, p)) /\
  (NoDup ul -> NoDup ul') /\
  (forall w, In w nl' <-> In w nl \/
     exists line t b g p, In line lines /\ line_fields line = Some (w, t, b, g, p)) /\
  (Sorted (fun x y => x <> y) nl -> Sorted (fun x y => x <> y) nl') /\
  (forall w, (exists ts, dict_get a' w = Val ts) <-> (exists ts, dict_get a w = Val ts) \/
     exists line t b g p, In line lines /\ line_fields line = Some (w, t, b, g, p)) /\
  (forall w, match dict_get a' w with Val ts => ts | Raise _ => [] end =
             match dict_get a w with Val ts => ts | Raise _ => [] end ++ file_targets lines w).
Proof.
  induction lines as [|line lines IH]; intros a nl ul a' nl' ul' H; simpl in H.
  - injection H as <- <- <-. split; [|split; [|split; [|split; [|split]]]].
    + intros w. split; [auto|]. intros [Hw|[? [? [? [? [[] _]]]]]]. exact Hw.
    + auto.
    + intros w. split; [auto|]. intros [Hw|[? [? [? [? [? [[] _]]]]]]]. exact Hw.
    + auto.
    + intros w. split; [auto|]. intros [Hw|[? [? [? [? [? [[] _]]]]]]]. exact Hw.
    + intros w. simpl. rewrite app_nil_r. reflexivity.
  - destruct (load_line (a, nl, ul) line) as [[[a1 nl1] ul1]|e] eqn:E; simpl in H; [|discriminate].
    apply load_line_spec in E.
    destruct (IH a1 nl1 ul1 a' nl' ul' H) as [U1 [U2 [N1 [N2 [K1 K2]]]]].
    destruct (line_fields line) as [[[[[cue t] normed] g] p]|] eqn:Ef.
    + injection E as -> -> ->. split; [|split; [|split; [|split; [|split]]]].
      * intros w. rewrite U1. split.
        -- intros [Hw|[l [c [g' [p' [Hl Hf]]]]]].
           ++ destruct (negb normed && negb (existsb (String.eqb t) ul))%bool eqn:Ec.
              ** apply in_app_iff in Hw as [Hw|[<-|[]]]; [left; exact Hw|].
                 right. apply Bool.andb_true_iff in Ec as [Hn _]. destruct normed; [discriminate|].
                 exists line, cue, g, p. split; [left; reflexivity | exact Ef].
              ** left. exact Hw.
           ++ right. exists l, c, g', p'. split; [first [exact Hl | right; exact Hl] | exact Hf].
        -- intros [Hw|[l [c [g' [p' [[<-|Hl] Hf]]]]]].
           ++ left. destruct (_ && _)%bool; [apply in_or_app; left|]; exact Hw.
           ++ rewrite Ef in Hf. injection Hf as -> -> -> -> ->. left. simpl.
              destruct (existsb (String.eqb w) ul) eqn:Ex; simpl.
              ** apply existsb_exists in Ex as [y [Hy Hwy]]. apply String.eqb_eq in Hwy. subst y. exact Hy.
              ** apply in_or_app. right. left. reflexivity.
           ++ right. exists l, c, g', p'. split; [first [exact Hl | right; exact Hl] | exact Hf].
      * intros Hnd. apply U2. destruct (negb normed && negb (existsb (String.eqb t) ul))%bool eqn:Ec; [|exact Hnd].
        apply Bool.andb_true_iff in Ec as [_ Hx]. apply Bool.negb_true_iff in Hx.
        apply NoDup_app; [exact Hnd | repeat constructor; auto |].
        intros y Hw [Hy|[]]. subst y. assert (Hin : existsb (String.eqb t) ul = true).
        { apply existsb_exists. exists t. split; [exact Hw | apply String.eqb_refl]. }
        congruence.
      * intros w. rewrite N1. split.
        -- intros [Hw|[l [t' [b [g' [p' [Hl Hf]]]]]]].
           ++ destruct (_ || _)%bool eqn:Ec.
              ** apply in_app_iff in Hw as [Hw|[<-|[]]]; [left; exact Hw|].
                 right. exists line, t, normed, g, p. split; [left; reflexivity | exact Ef].
              ** left. exact Hw.
           ++ right. exists l, t', b, g', p'. split; [first [exact Hl | right; exact Hl] | exact Hf].
        -- intros [Hw|[l [t' [b [g' [p' [[<-|Hl] Hf]]]]]]].
           ++ left. destruct (_ || _)%bool; [apply in_or_app; left|]; exact Hw.
           ++ rewrite Ef in Hf. injection Hf as <- _ _ _ _. left.
              destruct (Nat.eqb (length nl) 0 || negb (String.eqb (last nl EmptyString) cue))%bool eqn:Ec.
              ** apply in_or_app. right. left. reflexivity.
              ** apply Bool.orb_false_iff in Ec as [Hl0 Hlast]. apply Bool.negb_false_iff, String.eqb_eq in Hlast.
                 rewrite <- Hlast. apply last_in. intros ->. discriminate.
           ++ right. exists l, t', b, g', p'. split; [first [exact Hl | right; exact Hl] | exact Hf].
      * intros Hs. apply N2.
        destruct (Nat.eqb (length nl) 0 || negb (String.eqb (last nl EmptyString) cue))%bool eqn:Ec; [|exact Hs].
        apply (sorted_snoc _ nl cue EmptyString Hs).
        apply Bool.orb_true_iff in Ec as [Hl0|Hlast].
        -- left. apply length_zero_iff_nil. apply Nat.eqb_eq. exact Hl0.
        -- right. apply Bool.negb_true_iff, String.eqb_neq in Hlast. exact Hlast.
      * intros w. rewrite K1, dict_append_get. split.
        -- intros [[ts Hts]|[l [t' [b [g' [p' [Hl Hf]]]]]]].
           ++ destruct (String.eqb_spec cue w) as [->|Hne].
              ** right. exists line, t, normed, g, p. split; [left; reflexivity | exact Ef].
              ** left. exists ts. exact Hts.
           ++ right. exists l, t', b, g', p'. split; [first [exact Hl | right; exact Hl] | exact Hf].
        -- intros [[ts Hts]|[l [t' [b [g' [p' [[<-|Hl] Hf]]]]]]].
           ++ left. destruct (String.eqb cue w); eauto.
           ++ rewrite Ef in Hf. injection Hf as -> _ _ _ _. left. rewrite String.eqb_refl. eauto.
           ++ right. exists l, t', b, g', p'. split; [first [exact Hl | right; exact Hl] | exact Hf].
      * intros w. rewrite K2, dict_append_get, file_targets_cons, Ef.
        destruct (String.eqb cue w); [|reflexivity]. rewrite app_assoc. reflexivity.
    + injection E as -> -> ->. split; [|split; [|split; [|split; [|split]]]].
      * intros w. rewrite U1. split.
        -- intros [Hw|[l [c [g' [p' [Hl Hf]]]]]]; [left; exact Hw|].
           right. exists l, c, g', p'. split; [first [exact Hl | right; exact Hl] | exact Hf].
        -- intros [Hw|[l [c [g' [p' [[<-|Hl] Hf]]]]]]; [left; exact Hw | congruence |].
           right. exists l, c, g', p'. split; [first [exact Hl | right; exact Hl] | exact Hf].
      * exact U2.
      * intros w. rewrite N1. split.
        -- intros [Hw|[l [t' [b [g' [p' [Hl Hf]]]]]]]; [left; exact Hw|].
           right. exists l, t', b, g', p'. split; [first [exact Hl | right; exact Hl] | exact Hf].
        -- intros [Hw|[l [t' [b [g' [p' [[<-|Hl] Hf]]]]]]]; [left; exact Hw | congruence |].
           right. exists l, t', b, g', p'. split; [first [exact Hl | right; exact Hl] | exact Hf].
      * exact N2.
      * intros w. rewrite K1. split.
        -- intros [Hw|[l [t' [b [g' [p' [Hl Hf]]]]]]]; [left; exact Hw|].
           right. exists l, t', b, g', p'. split; [first [exact Hl | right; exact Hl] | exact Hf].
        -- intros [Hw|[l [t' [b [g' [p' [[<-|Hl] Hf]]]]]]]; [left; exact Hw | congruence |].
           right. exists l, t', b, g', p'. split; [first [exact Hl | right; exact Hl] | exact Hf].
      * intros w. rewrite K2, file_targets_cons, Ef. reflexivity.
Qed.

(** ** [unnormed_list.sort()] *)

Lemma insert_sorted_perm (x : string) (l : list string) : Permutation (insert_sorted x l) (x :: l).
Proof.
  induction l as [|y l IH]; simpl; [reflexivity|].
  destruct (String.leb x y); [reflexivity|].
  transitivity (y :: x :: l); [constructor; exact IH | apply perm_swap].
Qed.

Lemma sort_strings_perm (l : list string) : Permutation (sort_strings l) l.
Proof.
  induction l as [|x l IH]; simpl; [reflexivity|].
  transitivity (x :: sort_strings l); [apply insert_sorted_perm | constructor; exact IH].
Qed.

Lemma insert_sorted_hd (x y : string) (l : list string) :
  String.leb y x = true -> HdRel (fun a b => String.leb a b = true) y l ->
  HdRel (fun a b => String.leb a b = true) y (insert_sorted x l).
Proof.
  intros Hyx Hhd. destruct l as [|z l]; simpl; [constructor; exact Hyx|].
  destruct (String.leb x z); constructor; [exact Hyx | inversion Hhd; assumption].
Qed.

Lemma insert_sorted_sorted (x : string) (l : list string) :
  Sorted (fun a b => String.leb a b = true) l ->
  Sorted (fun a b => String.leb a b = true) (insert_sorted x l).
Proof.
  induction 1 as [|y l Hl IH Hhd]; simpl; [repeat constructor|].
  destruct (String.leb x y) eqn:Exy.
  - constructor; [constructor; assumption | constructor; exact Exy].
  - constructor; [exact IH|]. apply insert_sorted_hd; [|exact Hhd].
    destruct (String.leb_total x y) as [H|H]; [congruence | exact H].
Qed.

Lemma sort_strings_sorted (l : list string) : Sorted (fun a b => String.leb a b = true) (sort_strings l).
Proof. induction l as [|x l IH]; simpl; [constructor | apply insert_sorted_sorted; exact IH]. Qed.

Lemma sorted_leb_ltb (l : list string) :
  Sorted (fun a b => String.leb a b = true) l -> NoDup l ->
  Sorted (fun a b => String.ltb a b = true) l.
Proof.
  induction 1 as [|y l Hl IH Hhd]; intros Hnd; [constructor|].
  inversion Hnd as [|y' l' Hy Hnd']; subst. constructor; [exact (IH Hnd')|].
  destruct l as [|z l]; constructor. inversion Hhd as [|? ? Hyz]; subst.
  unfold String.ltb. unfold String.leb in Hyz.
  destruct (String.compare y z) eqn:E; try reflexivity; try discriminate.
  apply String.compare_eq_iff in E. subst z. exfalso. apply Hy. left. reflexivity.
Qed.

Lemma load_result (lines : list string) (a : assoc_dict) (nl ul : list string) :
  load lines = Val (a, nl, ul) ->
  exists ul0, load_lines ([], [], []) lines = Val (a, nl, ul0) /\ ul = sort_strings ul0.
Proof.
  unfold load. destruct (load_lines ([], [], []) lines) as [[[a0 nl0] ul0]|e]; simpl; [|discriminate].
  intros H. injection H as <- <- <-. eauto.
Qed.

Lemma load_assocs_get (lines : list string) (a : assoc_dict) (nl ul : list string) (cue : string) :
  load lines = Val (a, nl, ul) ->
  dict_get a cue = match file_targets lines cue with [] => Raise KeyError | _ => Val (file_targets lines cue) end.
Proof.
  intros H. destruct (load_result lines a nl ul H) as [ul0 [E _]].
  destruct (load_lines_lists lines [] [] [] a nl ul0 E) as [_ [_ [_ [_ [K1 K2]]]]].
  specialize (K1 cue). specialize (K2 cue). simpl in K2.
  destruct (dict_get a cue) as [ts|e] eqn:Ed.
  - subst ts. destruct (file_targets lines cue) as [|t ts] eqn:Ef; [|reflexivity].
    exfalso. apply (proj2 (file_targets_nil lines cue)); [|exact Ef].
    destruct (proj1 K1 (ex_intro _ _ eq_refl)) as [[ts Hts]|Hl]; [discriminate | exact Hl].
  - rewrite (dict_get_raise a cue e Ed).
    destruct (file_targets lines cue) as [|t ts] eqn:Ef; [reflexivity|].
    exfalso. assert (Hne : file_targets lines cue <> []) by (rewrite Ef; discriminate).
    apply file_targets_nil in Hne. destruct (proj2 K1 (or_intror Hne)) as [ts' Hts']. discriminate.
Qed.



Lemma dedup_adj_snoc (l : list string) (c : string) :
  dedup_adj (l ++ [c]) =
    if (Nat.eqb (length (dedup_adj l)) 0 || negb (String.eqb (last (dedup_adj l) EmptyString) c))%bool
    then dedup_adj l ++ [c] else dedup_adj l.
Proof.
  induction l as [|x l IH]; [reflexivity|].
  rewrite <- app_comm_cons. cbn [dedup_adj]. rewrite IH.
  destruct (dedup_adj l) as [|y r].
  - cbn [length Nat.eqb orb app last negb].
    destruct (String.eqb_spec x c) as [->|Hne]; reflexivity.
  - cbn [length Nat.eqb orb].
    assert (Hx : last (if String.eqb x y then y :: r else x :: y :: r) EmptyString =
                 last (y :: r) EmptyString) by (destruct (String.eqb x y); reflexivity).
    rewrite Hx. destruct (negb (String.eqb (last (y :: r) EmptyString) c)); cbn [app];
      destruct (String.eqb x y); reflexivity.
Qed.

Lemma file_cues_cons (line : string) (lines : list string) :
  file_cues (line :: lines) =
    match line_fields line with Some (c, _, _, _, _) => [c] | None => [] end ++ file_cues lines.
Proof. reflexivity. Qed.

(** The loop extends [normed_list] as [dedup_adj] extends the list of the
    cues read so far. *)
Lemma load_lines_nl (lines : list string) :
  forall a nl ul a' nl' ul' l0, load_lines (a, nl, ul) lines = Val (a', nl', ul') ->
  nl = dedup_adj l0 -> nl' = dedup_adj (l0 ++ file_cues lines).
Proof.
  induction lines as [|line lines IH]; intros a nl ul a' nl' ul' l0 H Hl0; simpl in H.
  - injection H as <- <- <-. rewrite app_nil_r. exact Hl0.
  - destruct (load_line (a, nl, ul) line) as [[[a1 nl1] ul1]|e] eqn:E; simpl in H; [|discriminate].
    apply load_line_spec in E. rewrite file_cues_cons.
    destruct (line_fields line) as [[[[[cue t] normed] g] p]|] eqn:Ef.
    + injection E as -> -> ->. rewrite app_assoc. apply (IH _ _ _ _ _ _ _ H).
      rewrite dedup_adj_snoc, <- Hl0. reflexivity.
    + injection E as -> -> ->. apply (IH _ _ _ _ _ _ _ H). exact Hl0.
Qed.

(** ** Properties of [load] *)


(** After [load], [assocs[cue]] is the list of the [(target, #P / #G,
    normed)] of the accepted lines with that cue, in file order, and raises
    [KeyError] for a word that is the cue of no accepted line. *)
Theorem load_assocs (lines : list string) (a : assoc_dict) (nl ul : list string) :
  load lines = Val (a, nl, ul) ->
  forall cue, dict_get a cue =
    match file_targets lines cue with
    | [] => Raise KeyError
    | _ => Val (file_targets lines cue)
    end.
Proof. intros H cue. exact (load_assocs_get lines a nl ul cue H). Qed.

(** [normed_list] holds exactly the cues of the accepted lines, which are
    also exactly the keys of [assocs]; no two neighbours in it are equal.
    It is not sorted: it is the sequence of the cues of the accepted lines
    in file order, each run of equal adjacent cues kept once, so a cue
    that comes back after another one is listed again. *)
Theorem load_normed_list (lines : list string) (a : assoc_dict) (nl ul : list string) :
  load lines = Val (a, nl, ul) ->
  (forall w, In w nl <-> exists line t b g p, In line lines /\ line_fields line = Some (w, t, b, g, p)) /\
  (forall w, In w nl <-> exists ts, dict_get a w = Val ts) /\
  (forall k, (S k < length nl)%nat -> nth k nl EmptyString <> nth (S k) nl EmptyString) /\
  nl = dedup_adj (file_cues lines).
Proof.
  intros H. destruct (load_result lines a nl ul H) as [ul0 [E _]].
  destruct (load_lines_lists lines [] [] [] a nl ul0 E) as [_ [_ [N1 [N2 [K1 _]]]]].
  assert (HN : forall w, In w nl <-> exists line t b g p, In line lines /\ line_fields line = Some (w, t, b, g, p)).
  { intros w. rewrite N1. simpl. tauto. }
  split; [|split; [|split]]; [| | |exact (load_lines_nl lines [] [] [] a nl ul0 [] E eq_refl)].
  - exact HN.
  - intros w. rewrite HN, K1. simpl. split; [tauto|]. intros [[ts Hts]|Hl]; [discriminate | exact Hl].
  - intros k Hk. exact (sorted_nth (fun x y => x <> y) nl EmptyString (N2 (Sorted_nil _)) k Hk).
Qed.

(** [unnormed_list] holds exactly the targets of the accepted lines marked
    as not normed, each once, in strictly increasing order. *)
Theorem load_unnormed_list (lines : list string) (a : assoc_dict) (nl ul : list string) :
  load lines = Val (a, nl, ul) ->
  (forall w, In w ul <-> exists line c g p, In line lines /\ line_fields line = Some (c, w, false, g, p)) /\
  NoDup ul /\ Sorted (fun x y => String.ltb x y = true) ul.
Proof.
  intros H. destruct (load_result lines a nl ul H) as [ul0 [E ->]].
  destruct (load_lines_lists lines [] [] [] a nl ul0 E) as [U1 [U2 _]].
  assert (Hnd : NoDup (sort_strings ul0)).
  { apply (Permutation_NoDup (Permutation_sym (sort_strings_perm ul0))). apply U2. constructor. }
  split; [|split; [exact Hnd|]].
  - intros w. split.
    + intros Hw. apply (Permutation_in _ (sort_strings_perm ul0)) in Hw.
      apply U1 in Hw as [[]|Hw]. exact Hw.
    + intros Hw. apply (Permutation_in _ (Permutation_sym (sort_strings_perm ul0))).
      apply U1. right. exact Hw.
  - apply sorted_leb_ltb; [apply sort_strings_sorted | exact Hnd].
Qed.

(** A line that [load] skips has no effect, wherever it stands in the file:
    the result is the one of the file without it. *)
Theorem load_skipped_line (l1 l2 : list string) (line : string) :
  line_fields line = None -> load (l1 ++ line :: l2) = load (l1 ++ l2).
Proof.
  intros H. unfold load. rewrite !load_lines_app.
  destruct (load_lines ([], [], []) l1) as [st|e]; simpl; [|reflexivity].
  unfold load_line. rewrite H. reflexivity.
Qed.

(** Feeding [load]'s result to the builders: all four return (none raises
    [ValueError] at [normed_list.index]) exactly when every target that a
    line marks as normed is also the cue of some line; the cues and the
    unnormed targets never make them raise. *)
Theorem load_then_builders (lines : list string) (a : assoc_dict) (nl ul : list string) :
  load lines = Val (a, nl, ul) ->
  ((exists M, createNormedUnweightedMatrix a nl = Val M) <-> normed_targets_are_cues lines) /\
  ((exists M, createNormedWeightedMatrix a nl = Val M) <-> normed_targets_are_cues lines) /\
  ((exists M, createFullUnweightedMatrix a nl ul = Val M) <-> normed_targets_are_cues lines) /\
  ((exists M, createFullWeightedMatrix a nl ul = Val M) <-> normed_targets_are_cues lines).
Proof.
  intros H. destruct (load_result lines a nl ul H) as [ul0 [E Hul]].
  destruct (load_lines_lists lines [] [] [] a nl ul0 E) as [U1 [_ [N1 _]]].
  assert (HN : forall w, In w nl <-> exists line t b g p, In line lines /\ line_fields line = Some (w, t, b, g, p)).
  { intros w. rewrite N1. simpl. tauto. }
  assert (HU : forall w, (exists line c g p, In line lines /\ line_fields line = Some (c, w, false, g, p)) ->
                         In w ul).
  { intros w Hw. subst ul. apply (Permutation_in _ (Permutation_sym (sort_strings_perm ul0))).
    apply U1. right. exact Hw. }
  assert (Hget : forall cue, In cue nl -> dict_get a cue = Val (file_targets lines cue)).
  { intros cue Hc. rewrite (load_assocs_get lines a nl ul cue H).
    assert (Hne : file_targets lines cue <> []) by (apply file_targets_nil, HN, Hc).
    destruct (file_targets lines cue); [contradiction | reflexivity]. }
  (* the condition of [build_val], for the normed and for the full cells *)
  assert (Cn : Forall (fun cue => exists ts, dict_get a cue = Val ts /\
                 Forall (fun t : target => snd t = true -> In (fst (fst t)) nl) ts) nl <->
               normed_targets_are_cues lines).
  { split.
    - intros HF line c t g p Hl Hf.
      assert (Hc : In c nl) by (apply HN; exists line, t, true, g, p; auto).
      rewrite Forall_forall in HF. destruct (HF c Hc) as [ts [Ets Hts]].
      rewrite Hget in Ets by exact Hc. injection Ets as <-.
      rewrite Forall_forall in Hts.
      assert (Hin : In (t, INR (digits_value 0 p) / INR (digits_value 0 g), true) (file_targets lines c)).
      { apply file_targets_in. exists line, g, p. auto. }
      apply HN. exact (Hts _ Hin eq_refl).
    - intros HC. apply Forall_forall. intros cue Hc. exists (file_targets lines cue).
      split; [exact (Hget cue Hc)|]. apply Forall_forall. intros t Ht Hnt.
      apply file_targets_in in Ht as [line [g [p [Hl [Hf _]]]]]. rewrite Hnt in Hf.
      apply HN. exact (HC line cue _ g p Hl Hf). }
  assert (Cf : Forall (fun cue => exists ts, dict_get a cue = Val ts /\
                 Forall (fun t : target => if snd t then In (fst (fst t)) nl else In (fst (fst t)) ul) ts) nl <->
               Forall (fun cue => exists ts, dict_get a cue = Val ts /\
                 Forall (fun t : target => snd t = true -> In (fst (fst t)) nl) ts) nl).
  { apply Forall_equiv. intros cue. split.
    - intros [ts [Ets Hts]]. exists ts. split; [exact Ets|]. revert Hts. apply Forall_impl.
      intros t Ht Hnt. rewrite Hnt in Ht. exact Ht.
    - intros [ts [Ets Hts]]. exists ts. split; [exact Ets|]. apply Forall_forall. intros t Ht.
      rewrite Forall_forall in Hts. destruct (snd t) eqn:Hnt; [exact (Hts t Ht Hnt)|].
      (* a target read from a line *)
      destruct (in_dec string_dec cue nl) as [Hc|Hc].
      + rewrite Hget in Ets by exact Hc. injection Ets as <-.
        apply file_targets_in in Ht as [line [g [p [Hl [Hf _]]]]]. rewrite Hnt in Hf.
        apply HU. exists line, cue, g, p. auto.
      + exfalso. apply Hc. rewrite (load_assocs_get lines a nl ul cue H) in Ets.
        destruct (file_targets lines cue) as [|t0 ts0] eqn:Ef; [discriminate|].
        apply HN, file_targets_nil. rewrite Ef. discriminate. }
  destruct (builders_are_build a nl ul) as [E1 [E2 [E3 E4]]].
  split; [|split; [|split]].
  - rewrite E1, (build_val _ _ (normed_unweighted_col_only nl) a nl (Nat.le_refl _)), <- Cn.
    apply cues_cond_equiv. intros t. exact (normed_cell_val nl false t).
  - rewrite E2, (build_val _ _ (normed_weighted_col_only nl) a nl (Nat.le_refl _)), <- Cn.
    apply cues_cond_equiv. intros t. exact (normed_cell_val nl true t).
  - rewrite E3, (build_val _ _ (full_col_only nl ul false) a nl (le_plus_l_nat _ _)), <- Cn, <- Cf.
    apply cues_cond_equiv. intros t. exact (full_cell_val nl ul false t).
  - rewrite E4, (build_val _ _ (full_col_only nl ul true) a nl (le_plus_l_nat _ _)), <- Cn, <- Cf.
    apply cues_cond_equiv. intros t. exact (full_cell_val nl ul true t).
Qed.

(** ** Instances of the properties of [load] *)

Lemma ex_lines_load : load ex_lines = Val (ex_dict, ex_normed, ex_unnormed).
Proof.
  unfold load, ex_lines. simpl. unfold load_line. simpl.
  repeat rewrite pydiv_ok by lra. simpl.
  unfold ex_dict, ex_normed, ex_unnormed. repeat f_equal; (reflexivity || lra).
Qed.

Lemma load_assocs_witness :
  load ex_lines = Val (ex_dict, ex_normed, ex_unnormed) /\ dict_get ex_dict "x"%string = Raise KeyError.
Proof.
  split; [exact ex_lines_load|].
  rewrite (load_assocs ex_lines ex_dict ex_normed ex_unnormed ex_lines_load "x"%string). reflexivity.
Defined.

Lemma ex_lines2_load : load ex_lines2 = Val (ex_dict2, ex_normed2, ex_unnormed2).
Proof.
  unfold load, ex_lines2. simpl. unfold load_line. simpl.
  repeat rewrite pydiv_ok by lra. simpl.
  unfold ex_dict2, ex_normed2, ex_unnormed2. repeat f_equal; (reflexivity || lra).
Qed.

Lemma load_normed_list_witness :
  load ex_lines2 = Val (ex_dict2, ex_normed2, ex_unnormed2) /\
  file_cues ex_lines2 = ["b"%string; "a"%string; "a"%string; "b"%string] /\
  ex_normed2 = dedup_adj (file_cues ex_lines2) /\
  nth 1 ex_normed2 EmptyString <> nth 2 ex_normed2 EmptyString /\
  ~ Sorted (fun x y => String.leb x y = true) ex_normed2.
Proof.
  destruct (load_normed_list ex_lines2 ex_dict2 ex_normed2 ex_unnormed2 ex_lines2_load)
    as [_ [_ [Hadj Hdedup]]].
  split; [exact ex_lines2_load|]. split; [reflexivity|]. split; [exact Hdedup|]. split.
  - apply Hadj. simpl. lia.
  - intros Hs. apply Sorted_inv in Hs as [_ Hh]. inversion Hh as [|? ? Hba].
    vm_compute in Hba. discriminate.
Defined.

Lemma load_unnormed_list_witness :
  load ex_lines2 = Val (ex_dict2, ex_normed2, ex_unnormed2) /\
  ex_unnormed2 = ["x"%string; "z"%string] /\ NoDup ex_unnormed2 /\
  Sorted (fun x y => String.ltb x y = true) ex_unnormed2.
Proof.
  destruct (load_unnormed_list ex_lines2 ex_dict2 ex_normed2 ex_unnormed2 ex_lines2_load)
    as [_ [Hnd Hs]].
  split; [exact ex_lines2_load|]. split; [reflexivity|]. split; [exact Hnd | exact Hs].
Defined.




Lemma load_skipped_line_witness :
  line_fields "b,c,NO,n/a,1"%string = None /\
  load (["a,b,YES,2,1"%string] ++ "b,c,NO,n/a,1"%string :: ["b,a,YES,1,1"%string]) =
  load (["a,b,YES,2,1"%string] ++ ["b,a,YES,1,1"%string]).
Proof. split; [reflexivity | apply load_skipped_line; reflexivity]. Defined.

Lemma load_then_builders_witness :
  load ex_lines = Val (ex_dict, ex_normed, ex_unnormed) /\ normed_targets_are_cues ex_lines.
Proof.
  split; [exact ex_lines_load|].
  apply (proj1 (proj2 (proj2 (proj2 (load_then_builders ex_lines ex_dict ex_normed ex_unnormed ex_lines_load))))).
  exact ex_full_weighted_ok.
Defined.
